(** * Similarity network fusion (SimilarityFusion.py): a shallow embedding

    The Python module builds affinity matrices from distance matrices
    ([getW], [getWCSMSSM]), derives the full and the K-nearest-neighbour
    transition matrices ([getP], [getS]) and runs the cross-diffusion
    iteration ([doSimilarityFusionWs], [doSimilarityFusion]).

    Numbers.  numpy's float64 entries are idealised as real numbers [R]
    with the exponential of the Standard Library; rounding, overflow and
    underflow are outside the model.  Division is [Rdiv], which is total;
    numpy yields nan or inf (with a warning, never an exception) when it
    divides by zero, so every statement about a computed value either
    proves that the divisors involved are nonzero or assumes it.

    Store.  numpy arrays and Python lists are mutable objects that are
    passed by reference.  Two-dimensional arrays and lists of array
    references live in a [heap]; the Python functions are programs of a
    state-and-exception monad [Py] over it, statement by statement.
    One-dimensional temporaries ([RowSum], [SNorm], [MeanDist]) are fresh
    results of reductions that are never aliased, so their masked
    assignment is a rebinding of a value.  The unnamed results of
    subexpressions are not allocated one by one; views ([A.T], slices) are
    only read.

    Left out: the timing and printing ([tic], [toc], [verboseTimes]), the
    plotting branch of [doSimilarityFusionWs] and the two script blocks at
    the end of the module. *)

From stdpp Require Import base list sets.
From Stdlib Require Import Reals Lra Lia Sorted.

Local Open Scope R_scope.

(** ** Matrices as row-major lists *)

Abbreviation matrix := (list (list R)).

(** [A.shape[0]] and [A.shape[1]]; an array without rows has no columns
    here. *)
Definition nrows (A : matrix) : nat := length A.
Definition ncols (A : matrix) : nat := length (hd [] A).

(** [A[i, j]] *)
Definition get (A : matrix) (i j : nat) : R := nth j (nth i A []) 0.

(** The [n] x [m] array whose entry [(i, j)] is [f i j]. *)
Definition mkmat (n m : nat) (f : nat -> nat -> R) : matrix :=
  map (fun i => map (fun j => f i j) (seq 0 m)) (seq 0 n).

Definition is_matrix (n m : nat) (A : matrix) : Prop :=
  length A = n /\ Forall (fun r => length r = m) A.

Definition nonneg (A : matrix) : Prop :=
  Forall (Forall (fun x => 0 <= x)) A.

Definition symmetric (n : nat) (A : matrix) : Prop :=
  forall i j, (i < n)%nat -> (j < n)%nat -> get A i j = get A j i.

Definition Rsum (l : list R) : R := fold_right Rplus 0 l.

(** ** numpy primitives on array values

    Binary operations are entrywise over the shape of the left operand:
    every use below combines arrays of one shape (or, for [+=], updates
    the left one in place); numpy's broadcasting of other shapes and its
    shape errors are not modelled. *)

(** [np.zeros((n, m))] and [np.eye(n)] *)
Definition np_zeros (n m : nat) : matrix := mkmat n m (fun _ _ => 0).
Definition np_eye (n : nat) : matrix :=
  mkmat n n (fun i j => if (i =? j)%nat then 1 else 0).

(** [A.T] *)
Definition transpose (A : matrix) : matrix :=
  mkmat (ncols A) (nrows A) (fun i j => get A j i).

(** [A + B], [c * A], [A / c], [-A] *)
Definition madd (A B : matrix) : matrix :=
  mkmat (nrows A) (ncols A) (fun i j => get A i j + get B i j).
Definition mscale (c : R) (A : matrix) : matrix := map (map (Rmult c)) A.
Definition mdivc (A : matrix) (c : R) : matrix := map (map (fun x => x / c)) A.
Definition mneg (A : matrix) : matrix := map (map Ropp) A.

(** What [np.fill_diagonal(A, x)] leaves in [A]. *)
Definition fill_diagonal (A : matrix) (x : R) : matrix :=
  mkmat (nrows A) (ncols A) (fun i j => if (i =? j)%nat then x else get A i j).

(** [np.sum(A, 1)] and [np.mean(A, 1)] *)
Definition np_sum1 (A : matrix) : list R := map Rsum A.
Definition np_mean1 (A : matrix) : list R :=
  map (fun r => Rsum r / INR (length r)) A.

(** [v[v == 0] = 1] on a one-dimensional array [v] *)
Definition zero_to_one (v : list R) : list R :=
  map (fun s => if Req_dec_T s 0 then 1 else s) v.

(** [A / v[:, None]]: row [i] of [A] divided by [v[i]] *)
Definition div_rows (A : matrix) (v : list R) : matrix :=
  zip_with (fun r s => map (fun x => x / s) r) A v.

(** Sparse-times-dense product [S.dot(X)], the sparse matrix taken by its
    entries. *)
Definition mdot (S X : matrix) : matrix :=
  mkmat (nrows S) (ncols X)
    (fun i j => Rsum (map (fun k => get S i k * get X k j) (seq 0 (ncols S)))).

(** *** Partial selection

    [np.partition(a, kth, 1)] reorders every row so that the entry at
    position [kth] is the one a full sort would put there, with no larger
    entry before it and no smaller one after it; the order inside the two
    parts is unspecified.  A sorted row is such a reordering, and the
    multiset of values in front of position [kth] is the same for all of
    them.  [np.argpartition] returns the corresponding column indices;
    here ties keep their index order. *)

Fixpoint insert_sorted (x : R) (l : list R) : list R :=
  match l with
  | [] => [x]
  | y :: t => if Rle_dec x y then x :: y :: t else y :: insert_sorted x t
  end.

Definition sort_row (r : list R) : list R := fold_right insert_sorted [] r.

Fixpoint insert_index (key : nat -> R) (i : nat) (l : list nat) : list nat :=
  match l with
  | [] => [i]
  | j :: t =>
      if Rle_dec (key i) (key j) then i :: j :: t
      else j :: insert_index key i t
  end.

Definition argsort_row (r : list R) : list nat :=
  fold_right (insert_index (fun i => nth i r 0)) [] (seq 0 (length r)).

(** [scipy.sparse.coo_matrix((V, (I, J)), shape=(n, m)).tocsr()] by its
    entries: the values of the triples that name an entry are added up. *)
Definition coo_entry (T : list (nat * nat * R)) (i j : nat) : R :=
  Rsum (map (fun t => if ((t.1.1 =? i) && (t.1.2 =? j))%nat then t.2 else 0) T).

Definition coo_matrix (n m : nat) (T : list (nat * nat * R)) : matrix :=
  mkmat n m (coo_entry T).

(** The Gaussian kernel [exp(-d**2 / (2*(Mu*e)**2))] *)
Definition kernel (Mu d e : R) : R :=
  exp (- (d * d) / (2 * ((Mu * e) * (Mu * e)))).

(** What [W[r0:r0+n, c0:c0+m] = B] leaves in [W], for [B] of shape
    [(n, m)]. *)
Definition set_block (W : matrix) (r0 c0 : nat) (B : matrix) : matrix :=
  mkmat (nrows W) (ncols W)
    (fun i j =>
       if ((r0 <=? i) && (i <? r0 + nrows B) &&
           (c0 <=? j) && (j <? c0 + ncols B))%nat
       then get B (i - r0) (j - c0) else get W i j).

(** ** The store *)

Abbreviation loc := nat (only parsing).

Record heap := Heap {
  arrays : list matrix;        (* two-dimensional numpy (and csr) arrays *)
  pylists : list (list loc)    (* Python lists of array references *)
}.

(** The exceptions the modelled statements can raise.  [SystemError]
    stands for the use of a reference that the store does not hold, which
    no Python program can produce. *)
Inductive exn := ValueError | IndexError | ZeroDivisionError | SystemError.

Inductive outcome (A : Type) :=
  | Ok (a : A) (h : heap)
  | Raise (e : exn) (h : heap).
Arguments Ok {A} a h.
Arguments Raise {A} e h.

Definition Py (A : Type) : Type := heap -> outcome A.

#[global] Instance Py_ret : MRet Py := fun A a h => Ok a h.
#[global] Instance Py_bind : MBind Py := fun A B f c h =>
  match c h with
  | Ok a h' => f a h'
  | Raise e h' => Raise e h'
  end.

Definition raise {A} (e : exn) : Py A := fun h => Raise e h.

Definition final_heap {A} (o : outcome A) : heap :=
  match o with Ok _ h => h | Raise _ h => h end.

(** *** Arrays *)

Definition add_array (h : heap) (v : matrix) : heap :=
  Heap (arrays h ++ [v]) (pylists h).
Definition set_array (h : heap) (l : loc) (v : matrix) : heap :=
  Heap (<[l := v]> (arrays h)) (pylists h).

(** A freshly allocated array holding [v]. *)
Definition new_array (v : matrix) : Py loc :=
  fun h => Ok (length (arrays h)) (add_array h v).

Definition read (l : loc) : Py matrix :=
  fun h => match arrays h !! l with
           | Some v => Ok v h
           | None => Raise SystemError h
           end.

(** Overwrite the entries of the array at [l], in place. *)
Definition write (l : loc) (v : matrix) : Py unit :=
  fun h => match arrays h !! l with
           | Some _ => Ok tt (set_array h l v)
           | None => Raise SystemError h
           end.

(** [x *= c], [x += y], [x /= c] and [np.fill_diagonal(x, c)] on arrays:
    all four update [x] in place.  When [x] is a list item, as in
    [nextPts[i] += Pts[k]], Python stores the same reference back into
    the list, which changes nothing. *)
Definition imul (x : loc) (c : R) : Py unit :=
  xv ← read x; write x (mscale c xv).
Definition iadd (x y : loc) : Py unit :=
  xv ← read x; yv ← read y; write x (madd xv yv).
Definition idivc (x : loc) (c : R) : Py unit :=
  xv ← read x; write x (mdivc xv c).
Definition np_fill_diagonal (x : loc) (c : R) : Py unit :=
  xv ← read x; write x (fill_diagonal xv c).

(** [np.partition(A, kth, 1)] and [np.argpartition(A, kth, 1)]: [kth]
    out of bounds is a [ValueError]. *)
Definition np_partition (A : matrix) (kth : nat) : Py matrix :=
  if (kth <? ncols A)%nat then mret (map sort_row A) else raise ValueError.
Definition np_argpartition (A : matrix) (kth : nat) : Py (list (list nat)) :=
  if (kth <? ncols A)%nat then mret (map argsort_row A) else raise ValueError.

(** *** Python lists *)

Definition add_list (h : heap) (ls : list loc) : heap :=
  Heap (arrays h) (pylists h ++ [ls]).
Definition set_list (h : heap) (L : loc) (ls : list loc) : heap :=
  Heap (arrays h) (<[L := ls]> (pylists h)).

Definition new_list (ls : list loc) : Py loc :=
  fun h => Ok (length (pylists h)) (add_list h ls).

Definition list_items (L : loc) : Py (list loc) :=
  fun h => match pylists h !! L with
           | Some ls => Ok ls h
           | None => Raise SystemError h
           end.

(** [len(L)], [L[i]] and [L[i] = x] *)
Definition len (L : loc) : Py nat := ls ← list_items L; mret (length ls).
Definition list_getitem (L : loc) (i : nat) : Py loc :=
  ls ← list_items L;
  match ls !! i with Some x => mret x | None => raise IndexError end.
Definition list_setitem (L : loc) (i : nat) (x : loc) : Py unit :=
  fun h => match pylists h !! L with
           | Some ls =>
               if (i <? length ls)%nat then Ok tt (set_list h L (<[i := x]> ls))
               else Raise IndexError h
           | None => Raise SystemError h
           end.

(** *** Loops *)

(** [for x in xs: body] *)
Fixpoint for_each {A} (xs : list A) (body : A -> Py unit) : Py unit :=
  match xs with
  | [] => mret tt
  | x :: t => body x ;; for_each t body
  end.

Fixpoint map_each {A B} (xs : list A) (f : A -> Py B) : Py (list B) :=
  match xs with
  | [] => mret []
  | x :: t => y ← f x; ys ← map_each t f; mret (y :: ys)
  end.

(** [[f(x) for x in L]] *)
Definition list_comp (f : loc -> Py loc) (L : loc) : Py loc :=
  xs ← list_items L; ys ← map_each xs f; new_list ys.

(** A loop that runs [n] times and rebinds one variable. *)
Fixpoint repeat_on {S} (n : nat) (body : S -> Py S) (s : S) : Py S :=
  match n with
  | O => mret s
  | S n' => s' ← body s; repeat_on n' body s'
  end.

(** ** The Python functions *)

(** [getW(D, K, Mu)], lines 15-33.  [DSym] is a fresh array; its diagonal
    is zeroed in place.  [Neighbs] holds the [K+1] smallest entries of
    every row of [DSym]. *)
Definition getW (D : loc) (K : nat) (Mu : R) : Py loc :=
  Dv ← read D;
  DSym ← new_array (mscale (1/2) (madd Dv (transpose Dv)));
  np_fill_diagonal DSym 0;;
  DSymv ← read DSym;
  Part ← np_partition DSymv (K + 1);
  let Neighbs := map (take (K + 1)) Part in
  let MeanDist :=
    map (fun m => m * INR (K + 1) / INR K) (np_mean1 Neighbs) in
  let Eps :=
    mkmat (nrows DSymv) (ncols DSymv)
      (fun i j => nth i MeanDist 0 + nth j MeanDist 0 + get DSymv i j) in
  let Eps := mdivc Eps 3 in
  new_array
    (mkmat (nrows DSymv) (ncols DSymv)
       (fun i j => kernel Mu (get DSymv i j) (get Eps i j))).

(** The split of the neighbour budget in [getWCSMSSM], lines 43-44:
    [k1 = int(K*float(N)/(M+N))] and [k2 = K - k1].  [int] truncates the
    quotient, and the float division raises when [M + N] is 0. *)
Definition split_neighbours (K N M : nat) : Py (nat * nat)%type :=
  if (M + N =? 0)%nat then raise ZeroDivisionError
  else
    let k1 := (K * N / (M + N))%nat in
    let k2 := (K - k1)%nat in
    mret (k1, k2).

(** [getWCSMSSM(SSMA, SSMB, CSMAB, K, Mu)], lines 38-66.  The partition
    along axis 0 is taken on the transpose. *)
Definition getWCSMSSM (SSMA SSMB CSMAB : loc) (K : nat) (Mu : R) : Py loc :=
  Av ← read SSMA;
  Bv ← read SSMB;
  let N := nrows Av in
  let M := nrows Bv in
  ks ← split_neighbours K N M;
  let k1 := ks.1 in
  let k2 := ks.2 in
  WSSMA ← getW SSMA k1 Mu;
  WSSMB ← getW SSMB k2 Mu;
  Cv ← read CSMAB;
  Part1 ← np_partition Cv k2;
  let MeanDist1 := np_mean1 (map (take k2) Part1) in
  Part2 ← np_partition (transpose Cv) k1;
  let MeanDist2 := np_mean1 (map (take k1) Part2) in
  Eps ← new_array
          (mkmat (nrows Cv) (ncols Cv)
             (fun i j => nth i MeanDist1 0 + nth j MeanDist2 0 + get Cv i j));
  idivc Eps 3;;
  Epsv ← read Eps;
  let WCSMAB :=
    mkmat (nrows Cv) (ncols Cv)
      (fun i j => kernel Mu (get Cv i j) (get Epsv i j)) in
  W ← new_array (np_zeros (N + M) (N + M));
  WA ← read WSSMA;
  Wv ← read W; write W (set_block Wv 0 0 WA);;
  Wv ← read W; write W (set_block Wv 0 N WCSMAB);;
  Wv ← read W; write W (set_block Wv N 0 (transpose WCSMAB));;
  WB ← read WSSMB;
  Wv ← read W; write W (set_block Wv N N WB);;
  mret W.

(** [getP(W, diagRegularize)], lines 69-82. *)
Definition getP (W : loc) (diagRegularize : bool) : Py loc :=
  Wv ← read W;
  if diagRegularize then
    let P := mscale (1/2) (np_eye (nrows Wv)) in
    WNoDiag ← new_array Wv;
    np_fill_diagonal WNoDiag 0;;
    WNoDiagv ← read WNoDiag;
    let RowSum := zero_to_one (np_sum1 WNoDiagv) in
    new_array (madd P (div_rows (mscale (1/2) WNoDiagv) RowSum))
  else
    let RowSum := zero_to_one (np_sum1 Wv) in
    new_array (div_rows Wv RowSum).

(** [getS(W, K)], lines 86-98.  [J] holds, for every row, the columns of
    its [K] largest entries; the triples [(I, J, V)] are flattened as in
    the source.  scipy rejects an index outside the shape [(N, N)]. *)
Definition getS (W : loc) (K : nat) : Py loc :=
  Wv ← read W;
  let N := nrows Wv in
  Jfull ← np_argpartition (mneg Wv) K;
  let J := map (take K) Jfull in
  let I := map (fun i => replicate K i) (seq 0 N) in
  let V := zip_with (fun Ir Jr => zip_with (get Wv) Ir Jr) I J in
  let SNorm := zero_to_one (np_sum1 V) in
  let V := div_rows V SNorm in
  let T := zip (zip (concat I) (concat J)) (concat V) in
  if forallb (fun t => (t.1.1 <? N) && (t.1.2 <? N))%nat T
  then new_array (coo_matrix N N T)
  else raise ValueError.

(** One pass of the loop over [i], lines 137-158, for the lists that the
    variables [Ss], [Pts] and [nextPts] name. *)
Definition diffuse_one (Ss Pts nextPts : loc) (N : nat) (reg : R) (i : nat)
  : Py unit :=
  x ← list_getitem nextPts i; imul x 0;;
  for_each (seq 0 N) (fun k =>
    if (i =? k)%nat then mret tt
    else x ← list_getitem nextPts i; y ← list_getitem Pts k; iadd x y);;
  x ← list_getitem nextPts i; idivc x (INR (N - 1));;
  S ← list_getitem Ss i; Sv ← read S;
  x ← list_getitem nextPts i; xv ← read x;
  A ← new_array (mdot Sv (transpose xv));
  S ← list_getitem Ss i; Sv ← read S;
  Av ← read A;
  r ← new_array (mdot Sv (transpose Av));
  list_setitem nextPts i r;;
  if Rlt_dec 0 reg then
    x ← list_getitem nextPts i; xv ← read x;
    write x (madd xv (mscale reg (np_eye (nrows xv))))
  else mret tt.

(** [doSimilarityFusionWs(Ws, K, NIters, reg)], lines 107-166, for a call
    that does not take the plotting branch of line 123 (that branch reads
    the states, draws a copy of each and saves a picture; with the default
    [PlotNames = []] it is taken only on an empty list, once per sweep).
    The loop over [it] rebinds [Pts] to the list that [nextPts] names
    (line 160). *)
Definition doSimilarityFusionWs (Ws : loc) (K NIters : nat) (reg : R) : Py loc :=
  Ps ← list_comp (fun W => getP W false) Ws;
  Ss ← list_comp (fun W => getS W K) Ws;
  Pts ← list_comp (fun P => Pv ← read P; new_array Pv) Ps;
  nextPts ← list_comp
              (fun P => Pv ← read P; new_array (np_zeros (nrows Pv) (ncols Pv)))
              Pts;
  N ← len Pts;
  Pts ← repeat_on NIters
          (fun Pts =>
             for_each (seq 0 N) (diffuse_one Ss Pts nextPts N reg);;
             mret nextPts)
          Pts;
  P0 ← list_getitem Pts 0; P0v ← read P0;
  FusedScores ← new_array (np_zeros (nrows P0v) (ncols P0v));
  Pt_s ← list_items Pts;
  for_each Pt_s (fun Pt => iadd FusedScores Pt);;
  Fv ← read FusedScores;
  new_array (mdivc Fv (INR N)).

(** [doSimilarityFusion(Scores, K, NIters, reg)], lines 169-172; [getW]
    is called with its default [Mu = 0.5]. *)
Definition doSimilarityFusion (Scores : loc) (K NIters : nat) (reg : R)
  : Py loc :=
  Ws ← list_comp (fun D => getW D K (1/2)) Scores;
  doSimilarityFusionWs Ws K NIters reg.

(** ** The values the functions compute

    The array values that the programs above leave in the arrays they
    return, as functions of the values of their arguments; the run lemmas
    below relate them to the programs. *)

Definition DSym_of (D : matrix) : matrix :=
  fill_diagonal (mscale (1/2) (madd D (transpose D))) 0.

Definition MeanDist_of (D : matrix) (K : nat) : list R :=
  map (fun m => m * INR (K + 1) / INR K)
    (np_mean1 (map (take (K + 1)) (map sort_row (DSym_of D)))).

Definition Eps_of (D : matrix) (K : nat) : matrix :=
  mdivc
    (mkmat (nrows (DSym_of D)) (ncols (DSym_of D))
       (fun i j => nth i (MeanDist_of D K) 0 + nth j (MeanDist_of D K) 0 +
                   get (DSym_of D) i j))
    3.

Definition W_of (D : matrix) (K : nat) (Mu : R) : matrix :=
  mkmat (nrows (DSym_of D)) (ncols (DSym_of D))
    (fun i j => kernel Mu (get (DSym_of D) i j) (get (Eps_of D K) i j)).

Definition RowSum_of (W : matrix) : list R := zero_to_one (np_sum1 W).

Definition P_of (W : matrix) : matrix := div_rows W (RowSum_of W).

Definition P_reg_of (W : matrix) : matrix :=
  madd (mscale (1/2) (np_eye (nrows W)))
    (div_rows (mscale (1/2) (fill_diagonal W 0))
       (RowSum_of (fill_diagonal W 0))).

Definition J_of (W : matrix) (K : nat) : list (list nat) :=
  map (take K) (map argsort_row (mneg W)).

Definition I_of (W : matrix) (K : nat) : list (list nat) :=
  map (fun i => replicate K i) (seq 0 (nrows W)).

Definition V_of (W : matrix) (K : nat) : matrix :=
  zip_with (fun Ir Jr => zip_with (get W) Ir Jr) (I_of W K) (J_of W K).

Definition SNorm_of (W : matrix) (K : nat) : list R :=
  zero_to_one (np_sum1 (V_of W K)).

Definition T_of (W : matrix) (K : nat) : list (nat * nat * R) :=
  zip (zip (concat (I_of W K)) (concat (J_of W K)))
    (concat (div_rows (V_of W K) (SNorm_of W K))).

Definition S_of (W : matrix) (K : nat) : matrix :=
  coo_matrix (nrows W) (nrows W) (T_of W K).

(** The consensus that pass [i] leaves in [nextPts[i]] before the
    products: [old] is what [nextPts[i]] held, [cur] are the arrays that
    [Pts] names while the pass runs. *)
Definition cross_of (old : matrix) (cur : list matrix) (i N : nat) : matrix :=
  mdivc
    (fold_left
       (fun acc k => if (i =? k)%nat then acc else madd acc (nth k cur []))
       (seq 0 N) (mscale 0 old))
    (INR (N - 1)).

Definition diffuse_of (S X : matrix) (reg : R) : matrix :=
  let Y := mdot S (transpose (mdot S (transpose X))) in
  if Rlt_dec 0 reg then madd Y (mscale reg (np_eye (nrows Y))) else Y.

(** One pass and one sweep over the values: [cur] are the values of the
    arrays in the list that [Pts] names, [nxt] those in the list that
    [nextPts] names.  When the two variables name one list ([aliased]),
    pass [i] reads what the passes before it have stored. *)
Definition pass_of (aliased : bool) (Ss cur nxt : list matrix) (reg : R)
    (i N : nat) : list matrix :=
  <[i := diffuse_of (nth i Ss [])
           (cross_of (nth i nxt []) (if aliased then nxt else cur) i N)
           reg]> nxt.

Definition sweep_of (aliased : bool) (Ss cur nxt : list matrix) (reg : R)
  : list matrix :=
  fold_left (fun nx i => pass_of aliased Ss cur nx reg i (length cur))
    (seq 0 (length cur)) nxt.

Fixpoint sweeps_of (n : nat) (aliased : bool) (Ss cur nxt : list matrix)
  (reg : R) : list matrix :=
  match n with
  | O => cur
  | S n' =>
      let nx := sweep_of aliased Ss cur nxt reg in
      sweeps_of n' true Ss nx nx reg
  end.

Definition fused_of (Xs : list matrix) : matrix :=
  mdivc
    (fold_left madd Xs
       (np_zeros (nrows (nth 0%nat Xs [])) (ncols (nth 0%nat Xs []))))
    (INR (length Xs)).

Definition zeros_like (A : matrix) : matrix := np_zeros (nrows A) (ncols A).

Definition fusion_of (Ws : list matrix) (K NIters : nat) (reg : R) : matrix :=
  fused_of
    (sweeps_of NIters false (map (fun W => S_of W K) Ws) (map P_of Ws)
       (map zeros_like (map P_of Ws)) reg).

(** ** The synchronous iteration of the design

    Written after the design's words: [Cross_i] is the sum of the other
    states over [m - 1], [NextP_i = S_i Cross_i S_i^T + reg I], every
    [NextP_i] is computed from the states of the sweep's start, and the
    result is the average of the states after [NIters] sweeps. *)

Definition msum (n m : nat) (Xs : list matrix) : matrix :=
  mkmat n m (fun i j => Rsum (map (fun X => get X i j) Xs)).

Definition others {A} (i : nat) (xs : list A) : list A :=
  take i xs ++ drop (S i) xs.

Definition sync_next (n : nat) (S : matrix) (Ps : list matrix) (i : nat)
  (reg : R) : matrix :=
  madd
    (mdot (mdot S (mdivc (msum n n (others i Ps)) (INR (length Ps - 1))))
       (transpose S))
    (mscale reg (np_eye n)).

Definition sync_sweep (n : nat) (Ss Ps : list matrix) (reg : R) : list matrix :=
  map (fun i => sync_next n (nth i Ss []) Ps i reg) (seq 0 (length Ps)).

Fixpoint sync_sweeps (k n : nat) (Ss Ps : list matrix) (reg : R) : list matrix :=
  match k with
  | O => Ps
  | S k' => sync_sweeps k' n Ss (sync_sweep n Ss Ps reg) reg
  end.

Definition sync_fusion (n : nat) (Ws : list matrix) (K NIters : nat) (reg : R)
  : matrix :=
  mdivc
    (msum n n
       (sync_sweeps NIters n (map (fun W => S_of W K) Ws) (map P_of Ws) reg))
    (INR (length Ws)).

(** ** Rounding to the nearest integer, for the neighbour split

    [k] is a nearest integer to the quotient [a / b] when it is at most
    one half away from it (whatever the rule for halves). *)
Definition nearest_int (k a b : Z) : Prop :=
  (2 * Z.abs (b * k - a) <= b)%Z.

(** ** Store extension

    [h'] extends [h] when every array and every list that [h] holds is in
    [h'] at the same reference with the same contents. *)
Definition heap_ext (h h' : heap) : Prop :=
  arrays h `prefix_of` arrays h' /\ pylists h `prefix_of` pylists h'.

(** ** Concrete inputs *)

(** A distance matrix of three items on a line. *)
Definition D_ex : matrix := [[0; 1; 2]; [1; 0; 1]; [2; 1; 0]].

(** ** Row by row view of [getS]

    For a row [r] of [W]: the columns that are kept, the divisor of the
    row and the triples that the row contributes. *)
Definition J_row (r : list R) (K : nat) : list nat :=
  take K (argsort_row (map Ropp r)).

Definition V_row (r : list R) (K : nat) : list R :=
  map (fun j => nth j r 0) (J_row r K).

Definition s_row (r : list R) (K : nat) : R :=
  if Req_dec_T (Rsum (V_row r K)) 0 then 1 else Rsum (V_row r K).

Definition T_row (i : nat) (r : list R) (K : nat) : list (nat * nat * R) :=
  map (fun j => (i, j, nth j r 0 / s_row r K)) (J_row r K).

(** The row of the sparse matrix: the kept entries over the divisor. *)
Definition S_row (r : list R) (n K : nat) : list R :=
  map (fun j => if decide (j ∈ J_row r K) then nth j r 0 / s_row r K else 0)
    (seq 0 n).

#[global] Instance R_eq_dec : EqDecision R := Req_dec_T.


(** An all-zero affinity matrix. *)
Definition W_zero : matrix := [[0; 0]; [0; 0]].

(** ** Descriptions of the store

    [arrays_at h ls vs]: the references [ls] hold the array values [vs]. *)
Definition arrays_at (h : heap) (ls : list loc) (vs : list matrix) : Prop :=
  Forall2 (fun l v => arrays h !! l = Some v) ls vs.

(** A function that leaves its result in a fresh array, the last one it
    allocates, and writes to no array that existed before the call: on an
    argument that holds [v] and satisfies [P], the result holds [g v]. *)
Definition allocates (f : loc -> Py loc) (g : matrix -> matrix)
    (P : matrix -> Prop) : Prop :=
  forall h l v, arrays h !! l = Some v -> P v ->
    exists ext,
      f l h = Ok (length (arrays h) + length ext)%nat
                (Heap (arrays h ++ ext ++ [g v]) (pylists h)).

(** The store while [doSimilarityFusionWs] iterates, seen from the store
    [h0] of the call: the lists that [Ss], [Pts] and [nextPts] name hold
    references to arrays with the values [Svs], [cur] and [nxt]; the arrays
    of [nextPts] are distinct, were allocated by the call, and come after
    those of the other lists unless [Pts] names the same list. *)
Definition fusion_state (h0 h : heap) (Ss Pts nextPts : loc) (aliased : bool)
    (Svs cur nxt : list matrix) : Prop :=
  exists (b : nat) (lsS lsC lsN : list loc),
    heap_ext h0 h /\
    (length (arrays h0) <= b)%nat /\ (length (pylists h0) <= nextPts)%nat /\
    pylists h !! Ss = Some lsS /\ pylists h !! Pts = Some lsC /\
    pylists h !! nextPts = Some lsN /\
    Ss <> nextPts /\
    arrays_at h lsS Svs /\ arrays_at h lsC cur /\ arrays_at h lsN nxt /\
    Forall (fun l => (l < b)%nat) lsS /\
    Forall (fun l => (b <= l)%nat) lsN /\ NoDup lsN /\
    (if aliased then Pts = nextPts
     else Pts <> nextPts /\ Forall (fun l => (l < b)%nat) lsC).

(** The store after pass [i]: the old array [x] of [nextPts[i]] holds the
    consensus [C], the two products [Av] and [Y] are new arrays, the list
    holds [lsN'], and the second product holds the new state [V]. *)
Definition after_pass (h : heap) (x : loc) (C Av Y : matrix) (nextPts : loc)
    (lsN' : list loc) (V : matrix) : heap :=
  set_array
    (set_list (add_array (add_array (set_array h x C) Av) Y) nextPts lsN')
    (S (length (arrays h))) V.

(** A function that, on every store, either returns a fresh array (the
    last one it allocates) or raises, and in both cases only adds arrays
    to the store. *)
Definition fresh_or_raises (f : loc -> Py loc) : Prop :=
  forall h l,
    (exists ext v,
       f l h = Ok (length (arrays h) + length ext)%nat
                 (Heap (arrays h ++ ext ++ [v]) (pylists h))) \/
    (exists e ext, f l h = Raise e (Heap (arrays h ++ ext) (pylists h))).

(** Two affinity matrices over two items, and the stores of a call
    that passes the list [[W1_ex, W2_ex]] or the list [[W2_ex, W1_ex]]. *)
Definition W1_ex : matrix := [[1; 1/2]; [1/2; 1]].
Definition W2_ex : matrix := [[1; 1/4]; [1/4; 1]].
Definition heap_ex12 : heap := Heap [W1_ex; W2_ex] [[0%nat; 1%nat]].
Definition heap_ex21 : heap := Heap [W1_ex; W2_ex] [[1%nat; 0%nat]].

(** The store of a call that passes the one-element list [[D_ex]]. *)
Definition heap_ex_single : heap := Heap [D_ex] [[0%nat]].

(** ** Rows of [getP]

    The divisor that [getP] uses for a row, and the sum of the
    off-diagonal entries of row [i] of an [n] x [n] array. *)
Definition divisor_of (s : R) : R := if Req_dec_T s 0 then 1 else s.

Definition row_divisor (r : list R) : R := divisor_of (Rsum r).

Definition offdiag_sum (W : matrix) (n i : nat) : R :=
  Rsum (map (fun j => if (i =? j)%nat then 0 else get W i j) (seq 0 n)).

(** [W'] is [W] rescaled by a positive constant. *)
Definition rescaled (W W' : matrix) : Prop :=
  exists c, 0 < c /\ W' = mscale c W.

(** The store of a call that passes [[W1_ex, W2_ex]] (list 0) or the same
    matrices rescaled by 2 and by 3 (list 1). *)
Definition heap_ex_scaled : heap :=
  Heap [W1_ex; W2_ex; mscale 2 W1_ex; mscale 3 W2_ex]
       [[0%nat; 1%nat]; [2%nat; 3%nat]].

(** A distance matrix that is not symmetric and has a nonzero diagonal,
    with the same symmetrised off-diagonal distances as [D_ex]. *)
Definition D_ex_asym : matrix := [[5; 2; 1]; [0; 7; 1/2]; [3; 3/2; 9]].


(** The store of two calls that pass [W1_ex] and [W2_ex] in the two
    orders (lists 0 and 1). *)
Definition heap_ex_orders : heap :=
  Heap [W1_ex; W2_ex] [[0%nat; 1%nat]; [1%nat; 0%nat]].

(** Entrywise nonnegative [n] x [n] arrays, and arrays whose first [n]
    diagonal entries are at least [c]. *)
Definition nonneg_square (n : nat) (X : matrix) : Prop :=
  is_matrix n n X /\ nonneg X.

Definition diagonal_ge (n : nat) (c : R) (X : matrix) : Prop :=
  forall a, (a < n)%nat -> c <= get X a a.

(** ** The value of [getWCSMSSM]

    The bandwidths and the kernel of the cross block (lines 49-56), and
    the array that lines 61-65 assemble, as functions of the values of the
    three arguments. *)
Definition CrossEps_of (C : matrix) (k1 k2 : nat) : matrix :=
  mdivc
    (mkmat (nrows C) (ncols C)
       (fun i j =>
          nth i (np_mean1 (map (take k2) (map sort_row C))) 0 +
          nth j (np_mean1 (map (take k1) (map sort_row (transpose C)))) 0 +
          get C i j))
    3.

Definition WCross_of (C : matrix) (k1 k2 : nat) (Mu : R) : matrix :=
  mkmat (nrows C) (ncols C)
    (fun i j => kernel Mu (get C i j) (get (CrossEps_of C k1 k2) i j)).

Definition WCSMSSM_of (A B C : matrix) (K : nat) (Mu : R) : matrix :=
  let N := nrows A in
  let M := nrows B in
  let k1 := (K * N / (M + N))%nat in
  let k2 := (K - k1)%nat in
  set_block
    (set_block
       (set_block
          (set_block (np_zeros (N + M) (N + M)) 0 0 (W_of A k1 Mu))
          0 N (WCross_of C k1 k2 Mu))
       N 0 (transpose (WCross_of C k1 k2 Mu)))
    N N (W_of B k2 Mu).

(** A cross-similarity matrix between the items of two copies of [D_ex],
    and the store of a call that passes them. *)
Definition C_ex : matrix := [[1; 2; 3]; [2; 1; 2]; [3; 2; 1]].

Definition heap_ex_cross : heap := Heap [D_ex; D_ex; C_ex] [].

(** [D'] holds the distances of [D] up to their unit and to the way each
    distance is split between the entries [(i, j)] and [(j, i)]. *)
Definition same_distances (n : nat) (D D' : matrix) : Prop :=
  exists c, 0 < c /\
    forall i j, (i < n)%nat -> (j < n)%nat -> i <> j ->
      get D' i j + get D' j i = c * (get D i j + get D j i).

(** The store of two calls that pass two lists of distance matrices over
    three items. *)
Definition heap_ex_scores : heap :=
  Heap [D_ex; D_ex; D_ex_asym; mscale 2 D_ex]
    [[0%nat; 1%nat]; [2%nat; 3%nat]].

(** Matrices whose rows show the three cases of the row normalization: a
    row with a nonzero sum, an all-zero row, and a row of nonzero entries
    that sum to zero ([W_kept_ex]: whose two largest entries sum to
    zero). *)
Definition W_rows_ex : matrix := [[1; 1]; [0; 0]; [1; -1]].

Definition W_kept_ex : matrix := [[1; 1/2; 1/4]; [0; 0; 0]; [1; -1; -2]].
(** * Properties *)

(** ** Array values *)

Section array_values.
Implicit Types (A B : matrix) (f : nat -> nat -> R) (r : list R).

Lemma length_mkmat n m f : length (mkmat n m f) = n.
Proof. unfold mkmat. by rewrite length_map, length_seq. Qed.

Lemma nth_mkmat n m f i :
  (i < n)%nat -> nth i (mkmat n m f) [] = map (fun j => f i j) (seq 0 m).
Proof.
  intros Hi. unfold mkmat.
  rewrite (nth_indep _ [] (map (fun j => f 0%nat j) (seq 0 m)))
    by (by rewrite length_map, length_seq).
  rewrite (map_nth (fun i => map (fun j => f i j) (seq 0 m)) (seq 0 n) 0%nat i).
  by rewrite seq_nth.
Qed.

Lemma get_mkmat n m f i j :
  (i < n)%nat -> (j < m)%nat -> get (mkmat n m f) i j = f i j.
Proof.
  intros Hi Hj. unfold get. rewrite nth_mkmat by done.
  rewrite (nth_indep _ 0 (f i 0%nat)) by (by rewrite length_map, length_seq).
  rewrite (map_nth (fun j => f i j) (seq 0 m) 0%nat j).
  by rewrite seq_nth.
Qed.

Lemma is_matrix_mkmat n m f : is_matrix n m (mkmat n m f).
Proof.
  split; [apply length_mkmat|]. unfold mkmat.
  apply Forall_map, Forall_forall. intros i _. simpl.
  by rewrite length_map, length_seq.
Qed.

Lemma nrows_mkmat n m f : nrows (mkmat n m f) = n.
Proof. apply length_mkmat. Qed.

Lemma ncols_mkmat n m f : (0 < n)%nat -> ncols (mkmat n m f) = m.
Proof.
  intros Hn. unfold ncols. destruct n as [|n]; [lia|].
  unfold mkmat. simpl. by rewrite length_map, length_seq.
Qed.

Lemma is_matrix_ncols n m A : is_matrix n m A -> (0 < n)%nat -> ncols A = m.
Proof.
  intros [Hl HF] Hn. unfold ncols. destruct A as [|r A]; simpl in *; [lia|].
  by inversion HF.
Qed.

Lemma is_matrix_nrows n m A : is_matrix n m A -> nrows A = n.
Proof. by intros [Hl _]. Qed.

Lemma Rsum_app r1 r2 : Rsum (r1 ++ r2) = Rsum r1 + Rsum r2.
Proof. induction r1 as [|x r1 IH]; simpl; [lra|]. rewrite IH. lra. Qed.

Lemma Rsum_map_div r s : Rsum (map (fun x => x / s) r) = Rsum r / s.
Proof.
  induction r as [|x r IH]; simpl; [unfold Rdiv; lra|].
  rewrite IH. unfold Rdiv. lra.
Qed.

Lemma Rsum_nonneg r : Forall (fun x => 0 <= x) r -> 0 <= Rsum r.
Proof.
  induction 1 as [|x r Hx _ IH]; simpl; lra.
Qed.

Lemma Rsum_nonneg_zero r :
  Forall (fun x => 0 <= x) r -> Rsum r = 0 -> Forall (fun x => x = 0) r.
Proof.
  induction 1 as [|x r Hx Hr IH]; simpl; intros Hs; [constructor|].
  pose proof (Rsum_nonneg r Hr).
  constructor; [lra|]. apply IH. lra.
Qed.

Lemma Rsum_zeros r : Forall (fun x => x = 0) r -> Rsum r = 0.
Proof. induction 1 as [|x r Hx _ IH]; simpl; lra. Qed.

Lemma zero_to_one_nonzero v : Forall (fun s => s <> 0) (zero_to_one v).
Proof.
  unfold zero_to_one. apply Forall_map, Forall_forall. intros s _. simpl.
  destruct (Req_dec_T s 0); lra.
Qed.

Lemma lookup_div_rows A v i r s :
  A !! i = Some r -> v !! i = Some s ->
  div_rows A v !! i = Some (map (fun x => x / s) r).
Proof.
  intros Hr Hs. unfold div_rows. rewrite lookup_zip_with, Hr, Hs. done.
Qed.

Lemma lookup_RowSum_of A i r :
  A !! i = Some r ->
  RowSum_of A !! i = Some (if Req_dec_T (Rsum r) 0 then 1 else Rsum r).
Proof.
  intros Hr. unfold RowSum_of, zero_to_one, np_sum1.
  by rewrite !list_lookup_fmap, Hr.
Qed.

End array_values.

(** ** The store and the monad *)

Section store.
Context {X : Type}.
Implicit Types (l : list X) (h : heap).

Lemma lookup_snoc l x : (l ++ [x]) !! length l = Some x.
Proof. by rewrite list_lookup_middle. Qed.

Lemma insert_snoc l x y : <[length l := y]> (l ++ [x]) = l ++ [y].
Proof.
  replace (length l) with (length l + 0)%nat by lia.
  by rewrite insert_app_r.
Qed.

Lemma prefix_insert_ge l k i x :
  l `prefix_of` k -> (length l <= i)%nat -> l `prefix_of` <[i := x]> k.
Proof.
  intros [t ->] Hi. rewrite insert_app_r_alt by done. by eexists.
Qed.

Lemma prefix_snoc l k x : l `prefix_of` k -> l `prefix_of` k ++ [x].
Proof. intros [t ->]. rewrite <- (assoc_L (++)). by eexists. Qed.

End store.

Lemma heap_ext_refl h : heap_ext h h.
Proof. by split. Qed.

Lemma heap_ext_trans h1 h2 h3 :
  heap_ext h1 h2 -> heap_ext h2 h3 -> heap_ext h1 h3.
Proof. intros [? ?] [? ?]. split; by etrans. Qed.

Lemma heap_ext_add_array h h' v : heap_ext h h' -> heap_ext h (add_array h' v).
Proof. intros [? ?]. split; simpl; [by apply prefix_snoc|done]. Qed.

Lemma heap_ext_add_list h h' ls : heap_ext h h' -> heap_ext h (add_list h' ls).
Proof. intros [? ?]. split; simpl; [done|by apply prefix_snoc]. Qed.

Lemma heap_ext_set_array h h' l v :
  heap_ext h h' -> (length (arrays h) <= l)%nat -> heap_ext h (set_array h' l v).
Proof. intros [? ?] ?. split; simpl; [by apply prefix_insert_ge|done]. Qed.

Lemma heap_ext_set_list h h' L ls :
  heap_ext h h' -> (length (pylists h) <= L)%nat -> heap_ext h (set_list h' L ls).
Proof. intros [? ?] ?. split; simpl; [done|by apply prefix_insert_ge]. Qed.

Lemma heap_ext_lookup_array h h' l v :
  heap_ext h h' -> arrays h !! l = Some v -> arrays h' !! l = Some v.
Proof. intros [Ha _] Hl. by eapply prefix_lookup_Some. Qed.

Lemma heap_ext_lookup_list h h' L ls :
  heap_ext h h' -> pylists h !! L = Some ls -> pylists h' !! L = Some ls.
Proof. intros [_ Hp] Hl. by eapply prefix_lookup_Some. Qed.

Lemma bind_run {A B} (c : Py A) (f : A -> Py B) h :
  (c ≫= f) h =
  match c h with Ok a h' => f a h' | Raise e h' => Raise e h' end.
Proof. reflexivity. Qed.


(** Reading and writing the store. *)

Lemma lookup_add_array_new h v :
  arrays (add_array h v) !! length (arrays h) = Some v.
Proof. apply lookup_snoc. Qed.

Lemma lookup_add_array_old h v l x :
  arrays h !! l = Some x -> arrays (add_array h v) !! l = Some x.
Proof. intros Hl. simpl. by apply lookup_app_l_Some. Qed.

Lemma lookup_set_array_eq h l v x :
  arrays h !! l = Some x -> arrays (set_array h l v) !! l = Some v.
Proof.
  intros Hl. simpl. apply list_lookup_insert_eq. by eapply lookup_lt_Some.
Qed.

Lemma lookup_set_array_ne h l l' v x :
  arrays h !! l' = Some x -> l <> l' -> arrays (set_array h l v) !! l' = Some x.
Proof. intros Hl Hne. simpl. by rewrite list_lookup_insert_ne. Qed.

Lemma lookup_add_list_new h ls :
  pylists (add_list h ls) !! length (pylists h) = Some ls.
Proof. apply lookup_snoc. Qed.

Lemma lookup_add_list_old h ls L x :
  pylists h !! L = Some x -> pylists (add_list h ls) !! L = Some x.
Proof. intros Hl. simpl. by apply lookup_app_l_Some. Qed.

Lemma lookup_set_list_eq h L ls x :
  pylists h !! L = Some x -> pylists (set_list h L ls) !! L = Some ls.
Proof.
  intros Hl. simpl. apply list_lookup_insert_eq. by eapply lookup_lt_Some.
Qed.

Lemma lookup_set_list_ne h L L' ls x :
  pylists h !! L' = Some x -> L <> L' -> pylists (set_list h L ls) !! L' = Some x.
Proof. intros Hl Hne. simpl. by rewrite list_lookup_insert_ne. Qed.

Lemma length_add_array h v :
  length (arrays (add_array h v)) = S (length (arrays h)).
Proof. simpl. rewrite length_app. simpl. lia. Qed.

Lemma length_set_array h l v :
  length (arrays (set_array h l v)) = length (arrays h).
Proof. simpl. apply length_insert. Qed.

Lemma length_add_list h ls :
  length (pylists (add_list h ls)) = S (length (pylists h)).
Proof. simpl. rewrite length_app. simpl. lia. Qed.

Lemma length_set_list h L ls :
  length (pylists (set_list h L ls)) = length (pylists h).
Proof. simpl. apply length_insert. Qed.

Lemma read_run h l v : arrays h !! l = Some v -> read l h = Ok v h.
Proof. intros Hl. unfold read. by rewrite Hl. Qed.

Lemma write_run h l v x :
  arrays h !! l = Some x -> write l v h = Ok tt (set_array h l v).
Proof. intros Hl. unfold write. by rewrite Hl. Qed.

Lemma imul_run h l c x :
  arrays h !! l = Some x -> imul l c h = Ok tt (set_array h l (mscale c x)).
Proof.
  intros Hl. unfold imul. rewrite bind_run, (read_run _ _ _ Hl).
  by apply write_run with x.
Qed.

Lemma idivc_run h l c x :
  arrays h !! l = Some x -> idivc l c h = Ok tt (set_array h l (mdivc x c)).
Proof.
  intros Hl. unfold idivc. rewrite bind_run, (read_run _ _ _ Hl).
  by apply write_run with x.
Qed.

Lemma iadd_run h l l' x y :
  arrays h !! l = Some x -> arrays h !! l' = Some y ->
  iadd l l' h = Ok tt (set_array h l (madd x y)).
Proof.
  intros Hl Hl'. unfold iadd.
  rewrite bind_run, (read_run _ _ _ Hl), bind_run, (read_run _ _ _ Hl').
  by apply write_run with x.
Qed.

Lemma np_fill_diagonal_run h l c x :
  arrays h !! l = Some x ->
  np_fill_diagonal l c h = Ok tt (set_array h l (fill_diagonal x c)).
Proof.
  intros Hl. unfold np_fill_diagonal. rewrite bind_run, (read_run _ _ _ Hl).
  by apply write_run with x.
Qed.

Lemma list_items_run h L ls :
  pylists h !! L = Some ls -> list_items L h = Ok ls h.
Proof. intros Hl. unfold list_items. by rewrite Hl. Qed.

Lemma len_run h L ls : pylists h !! L = Some ls -> len L h = Ok (length ls) h.
Proof.
  intros Hl. unfold len. by rewrite bind_run, (list_items_run _ _ _ Hl).
Qed.

Lemma list_getitem_run h L ls i x :
  pylists h !! L = Some ls -> ls !! i = Some x -> list_getitem L i h = Ok x h.
Proof.
  intros Hl Hi. unfold list_getitem.
  by rewrite bind_run, (list_items_run _ _ _ Hl), Hi.
Qed.

Lemma list_setitem_run h L ls i x :
  pylists h !! L = Some ls -> (i < length ls)%nat ->
  list_setitem L i x h = Ok tt (set_list h L (<[i := x]> ls)).
Proof.
  intros Hl Hi. unfold list_setitem. rewrite Hl.
  by destruct (Nat.ltb_spec i (length ls)); [|lia].
Qed.

Lemma set_add_array_new h v w :
  set_array (add_array h v) (length (arrays h)) w = add_array h w.
Proof. unfold set_array, add_array. simpl. by rewrite insert_snoc. Qed.

(** ** [getP] *)

Lemma getP_run h W Wv :
  arrays h !! W = Some Wv ->
  getP W false h = Ok (length (arrays h)) (add_array h (P_of Wv)).
Proof.
  intros HW. unfold getP. by rewrite bind_run, (read_run _ _ _ HW).
Qed.

Lemma getP_reg_run h W Wv :
  arrays h !! W = Some Wv ->
  getP W true h =
  Ok (S (length (arrays h)))
    (add_array (add_array h (fill_diagonal Wv 0)) (P_reg_of Wv)).
Proof.
  intros HW. unfold getP. rewrite bind_run, (read_run _ _ _ HW).
  rewrite bind_run. unfold new_array at 1. rewrite bind_run.
  rewrite (np_fill_diagonal_run _ _ _ Wv) by apply lookup_add_array_new.
  rewrite set_add_array_new.
  rewrite bind_run, (read_run _ _ (fill_diagonal Wv 0))
    by apply lookup_add_array_new.
  unfold new_array. by rewrite length_add_array.
Qed.

(** C5: [getP(W, False)] returns a fresh array in which row [i] is the
    row of [W] over the divisor of line 80: the row sum, or 1 when the row
    sum is zero.  The divisor is never zero, so no entry is a quotient by
    zero.  A row with a nonzero sum comes out with sum 1; a row with sum
    zero is divided by 1 and comes out as it is, which for a nonnegative
    row means all-zero.  For a nonnegative [W] every row falls under one
    of the two cases. *)
Theorem getP_rows_stochastic (h : heap) (W : loc) (Wv : matrix) :
  arrays h !! W = Some Wv ->
  exists P h' Pv,
    getP W false h = Ok P h' /\
    arrays h' !! P = Some Pv /\
    length Pv = length Wv /\
    forall i r, Wv !! i = Some r ->
      exists p,
        Pv !! i = Some p /\
        p = map (fun x => x / (if Req_dec_T (Rsum r) 0 then 1 else Rsum r)) r /\
        (if Req_dec_T (Rsum r) 0 then 1 else Rsum r) <> 0 /\
        (Rsum r <> 0 -> Rsum p = 1) /\
        (Rsum r = 0 -> p = r) /\
        (Forall (fun x => 0 <= x) r -> Rsum r = 0 ->
         Forall (fun x => x = 0) p).
Proof.
  intros HW.
  exists (length (arrays h)), (add_array h (P_of Wv)), (P_of Wv).
  split; [by apply getP_run|]. split; [apply lookup_snoc|].
  split.
  { unfold P_of, div_rows, RowSum_of, zero_to_one, np_sum1.
    rewrite length_zip_with, !length_map. lia. }
  intros i r Hr.
  exists (map (fun x => x / (if Req_dec_T (Rsum r) 0 then 1 else Rsum r)) r).
  split.
  { unfold P_of. apply lookup_div_rows; [done|]. by apply lookup_RowSum_of. }
  split; [done|].
  split; [destruct (Req_dec_T (Rsum r) 0); lra|].
  split; [|split].
  - intros Hz. destruct (Req_dec_T (Rsum r) 0); [done|].
    rewrite Rsum_map_div. by field.
  - intros Hz. destruct (Req_dec_T (Rsum r) 0); [|done].
    rewrite <- (map_id r) at 2. apply map_ext. intros x.
    unfold Rdiv. rewrite Rinv_1. lra.
  - intros Hrn Hz. destruct (Req_dec_T (Rsum r) 0); [|done].
    apply Forall_map. eapply Forall_impl; [by apply Rsum_nonneg_zero|].
    simpl. intros x ->. unfold Rdiv. lra.
Qed.

(** A witness: the matrix with the rows [1, 1] (sum 2), [0, 0] and
    [1, -1] (nonzero entries, sum zero). *)
Lemma getP_rows_stochastic_witness :
  exists P h' Pv,
    getP 0%nat false (Heap [W_rows_ex] []) = Ok P h' /\
    arrays h' !! P = Some Pv /\
    length Pv = length W_rows_ex /\
    forall i r, W_rows_ex !! i = Some r ->
      exists p,
        Pv !! i = Some p /\
        p = map (fun x => x / (if Req_dec_T (Rsum r) 0 then 1 else Rsum r)) r /\
        (if Req_dec_T (Rsum r) 0 then 1 else Rsum r) <> 0 /\
        (Rsum r <> 0 -> Rsum p = 1) /\
        (Rsum r = 0 -> p = r) /\
        (Forall (fun x => 0 <= x) r -> Rsum r = 0 ->
         Forall (fun x => x = 0) p).
Proof.
  apply (getP_rows_stochastic (Heap [W_rows_ex] []) 0%nat W_rows_ex).
  reflexivity.
Defined.

(** On that matrix: the first row is divided by its sum, the other two
    by 1. *)
Lemma getP_rows_example :
  exists P h',
    getP 0%nat false (Heap [W_rows_ex] []) = Ok P h' /\
    arrays h' !! P = Some [[1/2; 1/2]; [0; 0]; [1; -1]].
Proof.
  eexists _, _. split; [by apply (getP_run _ _ W_rows_ex)|].
  rewrite lookup_add_array_new. f_equal.
  unfold P_of, RowSum_of, zero_to_one, np_sum1, div_rows, W_rows_ex. simpl.
  repeat match goal with
  | |- context [Req_dec_T ?a ?b] =>
      let H := fresh in
      destruct (Req_dec_T a b) as [H|H]; try (exfalso; lra); clear H
  end.
  repeat apply (f_equal2 cons); try reflexivity; lra.
Qed.

(** ** [getW] *)

Section getW_values.
Implicit Types (A D : matrix).

Lemma get_map_rows (g : R -> R) A i j :
  g 0 = 0 -> get (map (map g) A) i j = g (get A i j).
Proof.
  intros Hg. unfold get.
  change (@nil R) with (map g []) at 1. rewrite map_nth.
  rewrite <- Hg at 1. by rewrite map_nth.
Qed.

Lemma get_mscale c A i j : get (mscale c A) i j = c * get A i j.
Proof. unfold mscale. rewrite get_map_rows; [done|lra]. Qed.

Lemma get_mdivc A c i j : get (mdivc A c) i j = get A i j / c.
Proof.
  unfold mdivc. rewrite (get_map_rows (fun x => x / c)); [done|].
  unfold Rdiv. lra.
Qed.

Lemma is_matrix_map_rows (g : R -> R) n m A :
  is_matrix n m A -> is_matrix n m (map (map g) A).
Proof.
  intros [Hl HF]. split; [by rewrite length_map|].
  apply Forall_map. eapply Forall_impl; [done|].
  simpl. intros r Hr. by rewrite length_map.
Qed.

Lemma nrows_map_rows (g : R -> R) A : nrows (map (map g) A) = nrows A.
Proof. unfold nrows. by rewrite length_map. Qed.

Lemma ncols_map_rows (g : R -> R) A : ncols (map (map g) A) = ncols A.
Proof. unfold ncols. destruct A; simpl; [done|by rewrite length_map]. Qed.

Lemma is_matrix_DSym_of n D : is_matrix n n D -> is_matrix n n (DSym_of D).
Proof.
  intros HD. unfold DSym_of, fill_diagonal, mscale.
  rewrite nrows_map_rows, ncols_map_rows. unfold madd.
  rewrite nrows_mkmat. destruct n as [|n].
  - destruct HD as [Hl _]. unfold nrows. rewrite Hl. apply is_matrix_mkmat.
  - rewrite ncols_mkmat by (rewrite (is_matrix_nrows _ _ _ HD); lia).
    rewrite (is_matrix_nrows _ _ _ HD), (is_matrix_ncols _ _ _ HD) by lia.
    apply is_matrix_mkmat.
Qed.

Lemma get_DSym_of n D i j :
  is_matrix n n D -> (i < n)%nat -> (j < n)%nat ->
  get (DSym_of D) i j =
  if (i =? j)%nat then 0 else 1/2 * (get D i j + get D j i).
Proof.
  intros HD Hi Hj.
  assert (Hr : nrows D = n) by (by apply (is_matrix_nrows n n)).
  assert (Hc : ncols D = n) by (apply (is_matrix_ncols n); [done|lia]).
  unfold DSym_of, fill_diagonal, mscale.
  rewrite nrows_map_rows, ncols_map_rows. unfold madd at 1 2.
  rewrite nrows_mkmat, ncols_mkmat, Hr, Hc by lia.
  rewrite get_mkmat by done. destruct (i =? j)%nat; [done|].
  fold (mscale (1/2) (madd D (transpose D))). rewrite get_mscale.
  unfold madd. rewrite Hr, Hc, get_mkmat by done.
  unfold transpose. rewrite Hr, Hc, get_mkmat by done. done.
Qed.

Lemma get_Eps_of n D K i j :
  is_matrix n n D -> (i < n)%nat -> (j < n)%nat ->
  get (Eps_of D K) i j =
  (nth i (MeanDist_of D K) 0 + nth j (MeanDist_of D K) 0 +
   get (DSym_of D) i j) / 3.
Proof.
  intros HD Hi Hj. pose proof (is_matrix_DSym_of n D HD) as HS.
  unfold Eps_of. rewrite get_mdivc.
  rewrite (is_matrix_nrows _ _ _ HS), (is_matrix_ncols _ _ _ HS) by lia.
  by rewrite get_mkmat.
Qed.

Lemma get_W_of n D K Mu i j :
  is_matrix n n D -> (i < n)%nat -> (j < n)%nat ->
  get (W_of D K Mu) i j =
  kernel Mu (get (DSym_of D) i j) (get (Eps_of D K) i j).
Proof.
  intros HD Hi Hj. pose proof (is_matrix_DSym_of n D HD) as HS.
  unfold W_of.
  rewrite (is_matrix_nrows _ _ _ HS), (is_matrix_ncols _ _ _ HS) by lia.
  by rewrite get_mkmat.
Qed.

Lemma is_matrix_W_of n D K Mu : is_matrix n n D -> is_matrix n n (W_of D K Mu).
Proof.
  intros HD. pose proof (is_matrix_DSym_of n D HD) as HS. unfold W_of.
  rewrite (is_matrix_nrows _ _ _ HS). destruct n as [|n].
  - split; [apply length_mkmat|constructor].
  - rewrite (is_matrix_ncols _ _ _ HS) by lia. apply is_matrix_mkmat.
Qed.

Lemma DSym_of_symmetric n D : is_matrix n n D -> symmetric n (DSym_of D).
Proof.
  intros HD i j Hi Hj. rewrite !(get_DSym_of n) by done.
  rewrite (Nat.eqb_sym j i). destruct (i =? j)%nat; lra.
Qed.

Lemma W_of_symmetric n D K Mu : is_matrix n n D -> symmetric n (W_of D K Mu).
Proof.
  intros HD i j Hi Hj. rewrite !(get_W_of n), !(get_Eps_of n) by done.
  rewrite (DSym_of_symmetric n D HD i j) by done.
  f_equal. f_equal. lra.
Qed.

Lemma W_of_diagonal n D K Mu i :
  is_matrix n n D -> (i < n)%nat -> get (W_of D K Mu) i i = 1.
Proof.
  intros HD Hi. rewrite (get_W_of n), (get_DSym_of n) by done.
  rewrite Nat.eqb_refl. unfold kernel.
  replace (- (0 * 0) / _) with 0 by (unfold Rdiv; lra).
  apply exp_0.
Qed.

Lemma kernel_range Mu d e : Mu * e <> 0 -> 0 < kernel Mu d e <= 1.
Proof.
  intros Hne. unfold kernel. split; [apply exp_pos|].
  assert (Hq : 0 < 2 * (Mu * e * (Mu * e))) by nra.
  assert (Hx : - (d * d) / (2 * (Mu * e * (Mu * e))) <= 0).
  { unfold Rdiv. apply Rinv_0_lt_compat in Hq. nra. }
  destruct Hx as [Hx | ->]; [|rewrite exp_0; lra].
  apply exp_increasing in Hx. rewrite exp_0 in Hx. lra.
Qed.

End getW_values.

Lemma getW_run h D Dv K Mu :
  arrays h !! D = Some Dv ->
  getW D K Mu h =
  if (K + 1 <? ncols (DSym_of Dv))%nat
  then Ok (S (length (arrays h)))
         (add_array (add_array h (DSym_of Dv)) (W_of Dv K Mu))
  else Raise ValueError (add_array h (DSym_of Dv)).
Proof.
  intros HD. unfold getW. rewrite bind_run, (read_run _ _ _ HD).
  rewrite bind_run. unfold new_array at 1. rewrite bind_run.
  rewrite (np_fill_diagonal_run _ _ _ (mscale (1/2) (madd Dv (transpose Dv))))
    by apply lookup_add_array_new.
  rewrite set_add_array_new. fold (DSym_of Dv).
  rewrite bind_run, (read_run _ _ (DSym_of Dv)) by apply lookup_add_array_new.
  rewrite bind_run. unfold np_partition.
  destruct (K + 1 <? ncols (DSym_of Dv))%nat; [|done].
  unfold mret, Py_ret, new_array. by rewrite length_add_array.
Qed.

Lemma lookup_add_array_new2 h a b :
  arrays (add_array (add_array h a) b) !! S (length (arrays h)) = Some b.
Proof. rewrite <- (length_add_array h a). apply lookup_add_array_new. Qed.

Lemma getW_run_ok h D Dv K Mu n :
  arrays h !! D = Some Dv -> is_matrix n n Dv -> (K + 1 < n)%nat ->
  getW D K Mu h =
  Ok (S (length (arrays h)))
    (add_array (add_array h (DSym_of Dv)) (W_of Dv K Mu)).
Proof.
  intros HD HDm HK. rewrite (getW_run _ _ _ _ _ HD).
  rewrite (is_matrix_ncols n n) by (by apply is_matrix_DSym_of || lia).
  by destruct (Nat.ltb_spec (K + 1) n); [|lia].
Qed.

(** *** [getW] on the distances [D_ex] *)

(** Evaluation of a closed expression: every comparison of two reals is
    settled by [lra]. *)
Ltac decide_R :=
  let H := fresh in
  match goal with
  | |- context [Rle_dec ?a ?b] => destruct (Rle_dec a b) as [H|H]
  | |- context [Req_dec_T ?a ?b] => destruct (Req_dec_T a b) as [H|H]
  | |- context [Rlt_dec ?a ?b] => destruct (Rlt_dec a b) as [H|H]
  end;
  simpl in H; first [exfalso; lra | clear H]; simpl.

Ltac eval_R := simpl; repeat decide_R.

Ltac list_eq_R :=
  repeat match goal with
  | |- _ :: _ = _ :: _ => apply (f_equal2 cons)
  | |- [] = [] => reflexivity
  end; try lra.

Lemma is_matrix_D_ex : is_matrix 3 3 D_ex.
Proof. split; [done|]. by repeat constructor. Qed.

Lemma nonneg_D_ex : nonneg D_ex.
Proof. repeat constructor; lra. Qed.

Lemma DSym_of_D_ex : DSym_of D_ex = D_ex.
Proof.
  unfold DSym_of, D_ex, fill_diagonal, mscale, madd, transpose, mkmat, get,
    nrows, ncols.
  simpl. repeat (f_equal; try lra).
Qed.

Lemma MeanDist_of_D_ex : MeanDist_of D_ex 1 = [1; 1; 1].
Proof.
  unfold MeanDist_of. rewrite DSym_of_D_ex. unfold D_ex, np_mean1, sort_row.
  eval_R. repeat (f_equal; try lra).
Qed.

Lemma Eps_of_D_ex_nonzero i j :
  (i < 3)%nat -> (j < 3)%nat -> get (Eps_of D_ex 1) i j <> 0.
Proof.
  intros Hi Hj. rewrite (get_Eps_of 3) by (done || apply is_matrix_D_ex).
  rewrite MeanDist_of_D_ex, DSym_of_D_ex.
  destruct i as [|[|[|i]]]; [| | |lia];
    (destruct j as [|[|[|j]]]; [| | |lia]); unfold get, D_ex; simpl; lra.
Qed.

(** C10: for a nonnegative N x N distance matrix, [1 <= K < N-1] and
    [Mu > 0], [getW] returns an array whose diagonal entry [(i, i)] is
    exactly 1 wherever the bandwidth [Eps[i, i]] is nonzero. *)
Theorem getW_diagonal_one (h : heap) (D : loc) (Dv : matrix) (n K : nat)
    (Mu : R) (i : nat) :
  arrays h !! D = Some Dv ->
  is_matrix n n Dv ->
  nonneg Dv ->
  (1 <= K)%nat -> (K + 1 < n)%nat ->
  0 < Mu ->
  (i < n)%nat ->
  get (Eps_of Dv K) i i <> 0 ->
  exists W h' Wv,
    getW D K Mu h = Ok W h' /\ arrays h' !! W = Some Wv /\ get Wv i i = 1.
Proof.
  intros HD Hm _ _ HK _ Hi _.
  eexists _, _, (W_of Dv K Mu). split; [by eapply getW_run_ok|].
  split; [apply lookup_add_array_new2|]. by apply (W_of_diagonal n).
Qed.

Lemma getW_diagonal_one_witness :
  exists W h' Wv,
    getW 0%nat 1 (1/2) (Heap [D_ex] []) = Ok W h' /\
    arrays h' !! W = Some Wv /\ get Wv 0%nat 0%nat = 1.
Proof.
  apply (getW_diagonal_one (Heap [D_ex] []) 0%nat D_ex 3 1 (1/2) 0%nat).
  - reflexivity.
  - apply is_matrix_D_ex.
  - apply nonneg_D_ex.
  - lia.
  - lia.
  - lra.
  - lia.
  - apply Eps_of_D_ex_nonzero; lia.
Defined.

(** C2, as stated, fails on the diagonal: for the distances [D_ex],
    [K = 1] and [Mu = 0.5] (so [1 <= K < N-1] and [Mu > 0]) the returned
    affinity has the entry [(0, 0)] equal to 1, not 0. *)
Lemma getW_diagonal_not_zero :
  is_matrix 3 3 D_ex /\ (1 <= 1 < 3 - 1)%nat /\ 0 < 1/2 /\
  exists W h' Wv,
    getW 0%nat 1 (1/2) (Heap [D_ex] []) = Ok W h' /\
    arrays h' !! W = Some Wv /\
    ~ (forall i, (i < 3)%nat -> get Wv i i = 0).
Proof.
  split; [apply is_matrix_D_ex|]. split; [simpl; lia|]. split; [lra|].
  eexists _, _, (W_of D_ex 1 (1/2)).
  split; [by apply (getW_run_ok _ _ D_ex _ _ 3); [|apply is_matrix_D_ex|lia]|].
  split; [apply lookup_add_array_new2|].
  intros H0. specialize (H0 0%nat ltac:(lia)).
  rewrite (W_of_diagonal 3) in H0 by (apply is_matrix_D_ex || lia). lra.
Qed.

(** C2, amended: for an N x N distance matrix, [1 <= K < N-1], [Mu > 0]
    and nonzero bandwidths, [getW] returns an N x N array that is
    symmetric, has every entry in (0, 1], and has every diagonal entry
    equal to 1. *)
Theorem getW_affinity (h : heap) (D : loc) (Dv : matrix) (n K : nat) (Mu : R) :
  arrays h !! D = Some Dv ->
  is_matrix n n Dv ->
  (1 <= K)%nat -> (K + 1 < n)%nat ->
  0 < Mu ->
  (forall i j, (i < n)%nat -> (j < n)%nat -> get (Eps_of Dv K) i j <> 0) ->
  exists W h' Wv,
    getW D K Mu h = Ok W h' /\ arrays h' !! W = Some Wv /\
    is_matrix n n Wv /\
    symmetric n Wv /\
    (forall i j, (i < n)%nat -> (j < n)%nat -> 0 < get Wv i j <= 1) /\
    (forall i, (i < n)%nat -> get Wv i i = 1).
Proof.
  intros HD Hm _ HK HMu HEps.
  eexists _, _, (W_of Dv K Mu). split; [by eapply getW_run_ok|].
  split; [apply lookup_add_array_new2|].
  split; [by apply is_matrix_W_of|].
  split; [by apply W_of_symmetric|].
  split.
  - intros i j Hi Hj. rewrite (get_W_of n) by done.
    apply kernel_range. specialize (HEps i j Hi Hj). nra.
  - intros i Hi. by apply (W_of_diagonal n).
Qed.

Lemma getW_affinity_witness :
  exists W h' Wv,
    getW 0%nat 1 (1/2) (Heap [D_ex] []) = Ok W h' /\
    arrays h' !! W = Some Wv /\
    is_matrix 3 3 Wv /\
    symmetric 3 Wv /\
    (forall i j, (i < 3)%nat -> (j < 3)%nat -> 0 < get Wv i j <= 1) /\
    (forall i, (i < 3)%nat -> get Wv i i = 1).
Proof.
  apply (getW_affinity (Heap [D_ex] []) 0%nat D_ex 3 1 (1/2)).
  - reflexivity.
  - apply is_matrix_D_ex.
  - lia.
  - lia.
  - lra.
  - apply Eps_of_D_ex_nonzero.
Defined.

(** ** The neighbour split of [getWCSMSSM] *)

Lemma split_neighbours_run K N M h :
  (0 < N + M)%nat ->
  split_neighbours K N M h = Ok ((K * N / (M + N))%nat,
                                 (K - K * N / (M + N))%nat) h.
Proof.
  intros Hpos. unfold split_neighbours.
  by destruct (Nat.eqb_spec (M + N) 0); [lia|].
Qed.

(** C8, as stated, fails: for [K = 5], [N = 3], [M = 1] the quotient
    [K*N/(N+M)] is 3.75, whose nearest integer is 4, and the code takes
    [k1 = 3] (and [k2 = 2]). *)
Lemma split_neighbours_not_round :
  exists k1 k2 : nat,
    (forall h, split_neighbours 5 3 1 h = Ok (k1, k2) h) /\
    nearest_int 4 (5 * 3) (3 + 1) /\
    ~ nearest_int (Z.of_nat k1) (5 * 3) (3 + 1).
Proof.
  exists 3%nat, 2%nat. split; [intros h; reflexivity|].
  unfold nearest_int. simpl. lia.
Qed.

(** C8, amended: for sets of sizes [N] and [M] (not both empty) and a
    budget [K], the split is [k1 = floor(K*N/(N+M))], the quotient
    truncated, and [k2 = K - k1]. *)
Theorem split_neighbours_floor (K N M : nat) (h : heap) :
  (0 < N + M)%nat ->
  exists k1 k2 : nat,
    split_neighbours K N M h = Ok (k1, k2) h /\
    (k1 * (N + M) <= K * N < (k1 + 1) * (N + M))%nat /\
    k2 = (K - k1)%nat /\ (k1 + k2 = K)%nat.
Proof.
  intros Hpos. eexists _, _. split; [by apply split_neighbours_run|].
  assert (Hk : (K * N / (M + N) <= K)%nat).
  { apply Nat.Div0.div_le_upper_bound. nia. }
  split; [|lia].
  pose proof (Nat.div_mod_eq (K * N) (M + N)) as Hdm.
  pose proof (Nat.mod_upper_bound (K * N) (M + N) ltac:(lia)) as Hmod.
  nia.
Qed.

Lemma split_neighbours_floor_witness :
  exists k1 k2 : nat,
    split_neighbours 5 3 1 (Heap [] []) = Ok (k1, k2) (Heap [] []) /\
    (k1 * (3 + 1) <= 5 * 3 < (k1 + 1) * (3 + 1))%nat /\
    k2 = (5 - k1)%nat /\ (k1 + k2 = 5)%nat.
Proof. apply (split_neighbours_floor 5 3 1 (Heap [] [])). lia. Defined.

(** ** Selection by sorting *)

Section argsort.
Variable key : nat -> R.

Lemma insert_index_perm i l : insert_index key i l ≡ₚ i :: l.
Proof.
  induction l as [|j t IH]; simpl; [done|].
  destruct (Rle_dec (key i) (key j)); [done|].
  rewrite IH. apply perm_swap.
Qed.


End argsort.

Lemma argsort_row_perm r : argsort_row r ≡ₚ seq 0 (length r).
Proof.
  unfold argsort_row. induction (seq 0 (length r)) as [|i l IH]; simpl; [done|].
  by rewrite insert_index_perm, IH.
Qed.



Lemma argsort_row_length r : length (argsort_row r) = length r.
Proof. by rewrite (Permutation_length (argsort_row_perm r)), length_seq. Qed.

Lemma argsort_row_NoDup r : NoDup (argsort_row r).
Proof. rewrite argsort_row_perm. apply NoDup_seq. Qed.

Lemma argsort_row_elem r j : j ∈ argsort_row r <-> (j < length r)%nat.
Proof. rewrite argsort_row_perm, elem_of_seq. lia. Qed.

(** ** [getS] *)

Lemma get_lookup (A : matrix) i j r : A !! i = Some r -> get A i j = nth j r 0.
Proof. intros Hr. unfold get. by rewrite (nth_lookup_Some _ _ _ _ Hr). Qed.

Lemma zip_concat {X Y} (As : list (list X)) (Bs : list (list Y)) :
  Forall2 (fun a b => length a = length b) As Bs ->
  zip (concat As) (concat Bs) = concat (zip_with zip As Bs).
Proof.
  induction 1 as [|a b As Bs Hab _ IH]; [done|].
  cbn [concat zip_with]. by rewrite zip_with_app, IH.
Qed.

Lemma zip_replicate_l {X} (K i : nat) (l : list X) :
  (length l <= K)%nat -> zip (replicate K i) l = map (fun x => (i, x)) l.
Proof.
  revert K. induction l as [|x l IH]; intros K HK; simpl.
  - by destruct K.
  - destruct K as [|K]; simpl in *; [lia|]. f_equal. apply IH. lia.
Qed.

Lemma zip_with_replicate_l {X Y} (g : nat -> X -> Y) (K i : nat) (l : list X) :
  (length l <= K)%nat -> zip_with g (replicate K i) l = map (g i) l.
Proof.
  revert K. induction l as [|x l IH]; intros K HK; simpl.
  - by destruct K.
  - destruct K as [|K]; simpl in *; [lia|]. f_equal. apply IH. lia.
Qed.

Lemma zip_map_map {X Y Z} (f : X -> Y) (g : X -> Z) (l : list X) :
  zip (map f l) (map g l) = map (fun x => (f x, g x)) l.
Proof. induction l as [|x l IH]; simpl; [done|]. by f_equal. Qed.

Section getS_rows.
Variables (W : matrix) (n K : nat).
Hypothesis HW : is_matrix n n W.
Hypothesis HK : (K <= n)%nat.

Lemma row_length i r : W !! i = Some r -> length r = n.
Proof.
  intros Hr. destruct HW as [_ HF].
  by apply (Forall_lookup_1 _ _ _ _ HF Hr).
Qed.

Lemma J_row_length i r : W !! i = Some r -> length (J_row r K) = K.
Proof.
  intros Hr. unfold J_row.
  rewrite length_take, argsort_row_length, length_map, (row_length i r Hr).
  lia.
Qed.

Lemma J_row_NoDup r : NoDup (J_row r K).
Proof.
  unfold J_row. pose proof (argsort_row_NoDup (map Ropp r)) as Hn.
  rewrite <- (take_drop K (argsort_row (map Ropp r))) in Hn.
  by apply NoDup_app in Hn as [? _].
Qed.

Lemma J_row_bound i r j : W !! i = Some r -> j ∈ J_row r K -> (j < n)%nat.
Proof.
  intros Hr Hj. unfold J_row in Hj.
  apply elem_of_take in Hj as (p & Hp & _).
  apply list_elem_of_lookup_2, argsort_row_elem in Hp.
  by rewrite length_map, (row_length i r Hr) in Hp.
Qed.


Lemma lookup_I_of i r : W !! i = Some r -> I_of W K !! i = Some (replicate K i).
Proof.
  intros Hr. unfold I_of, nrows.
  change (map ?f ?l) with (f <$> l). rewrite list_lookup_fmap.
  rewrite lookup_seq_lt by (by eapply lookup_lt_Some). done.
Qed.

Lemma lookup_J_of i r : W !! i = Some r -> J_of W K !! i = Some (J_row r K).
Proof.
  intros Hr. unfold J_of, mneg.
  change (map ?f ?l) with (f <$> l). rewrite !list_lookup_fmap, Hr. done.
Qed.

Lemma lookup_V_of i r : W !! i = Some r -> V_of W K !! i = Some (V_row r K).
Proof.
  intros Hr. unfold V_of.
  rewrite lookup_zip_with, (lookup_I_of i r Hr), (lookup_J_of i r Hr). simpl.
  rewrite zip_with_replicate_l by (rewrite (J_row_length i r Hr); lia).
  f_equal. unfold V_row. apply map_ext. intros j. by apply get_lookup.
Qed.

Lemma lookup_SNorm_of i r : W !! i = Some r -> SNorm_of W K !! i = Some (s_row r K).
Proof.
  intros Hr. unfold SNorm_of, zero_to_one, np_sum1.
  change (map ?f ?l) with (f <$> l).
  by rewrite !list_lookup_fmap, (lookup_V_of i r Hr).
Qed.

Lemma length_I_of : length (I_of W K) = length W.
Proof. unfold I_of, nrows. by rewrite length_map, length_seq. Qed.

Lemma length_J_of : length (J_of W K) = length W.
Proof. unfold J_of, mneg. by rewrite !length_map. Qed.

Lemma length_V_of : length (V_of W K) = length W.
Proof.
  unfold V_of. rewrite length_zip_with, length_I_of, length_J_of. lia.
Qed.

Lemma length_SNorm_of : length (SNorm_of W K) = length W.
Proof.
  unfold SNorm_of, zero_to_one, np_sum1. by rewrite !length_map, length_V_of.
Qed.

Lemma T_of_blocks : T_of W K = concat (imap (fun i r => T_row i r K) W).
Proof.
  unfold T_of.
  rewrite zip_concat.
  2:{ apply Forall2_same_length_lookup_2.
      - by rewrite length_I_of, length_J_of.
      - intros i x y Hx Hy.
        destruct (W !! i) as [r|] eqn:Hr.
        + rewrite (lookup_I_of i r Hr) in Hx. rewrite (lookup_J_of i r Hr) in Hy.
          simplify_eq. by rewrite length_replicate, (J_row_length i r Hr).
        + apply lookup_ge_None in Hr. apply lookup_lt_Some in Hx.
          rewrite length_I_of in Hx. lia. }
  rewrite zip_concat.
  2:{ apply Forall2_same_length_lookup_2.
      - unfold div_rows.
        rewrite !length_zip_with, length_I_of, length_J_of, length_V_of,
          length_SNorm_of. lia.
      - intros i x y Hx Hy.
        destruct (W !! i) as [r|] eqn:Hr.
        + rewrite lookup_zip_with, (lookup_I_of i r Hr), (lookup_J_of i r Hr)
            in Hx. simpl in Hx.
          rewrite (lookup_div_rows _ _ _ _ _ (lookup_V_of i r Hr)
                     (lookup_SNorm_of i r Hr)) in Hy.
          simplify_eq. unfold V_row.
          rewrite length_zip_with.
          rewrite !length_map.
          rewrite length_replicate, (J_row_length i r Hr). lia.
        + apply lookup_ge_None in Hr. apply lookup_lt_Some in Hy.
          unfold div_rows in Hy.
          rewrite length_zip_with, length_V_of in Hy. lia. }
  f_equal. apply list_eq. intros i.
  rewrite list_lookup_imap, !lookup_zip_with.
  destruct (W !! i) as [r|] eqn:Hr; simpl.
  - rewrite (lookup_I_of i r Hr), (lookup_J_of i r Hr). simpl.
    rewrite (lookup_div_rows _ _ _ _ _ (lookup_V_of i r Hr)
               (lookup_SNorm_of i r Hr)). simpl.
    f_equal. unfold T_row, V_row.
    rewrite zip_replicate_l by (rewrite (J_row_length i r Hr); lia).
    rewrite map_map. apply zip_map_map.
  - apply lookup_ge_None in Hr.
    assert (HI : I_of W K !! i = None).
    { apply lookup_ge_None. by rewrite length_I_of. }
    by rewrite HI.
Qed.

End getS_rows.

(** *** Entries of the sparse matrix *)

Lemma Rsum_map_plus {X} (a b : X -> R) l :
  Rsum (map (fun x => a x + b x) l) = Rsum (map a l) + Rsum (map b l).
Proof. induction l as [|x l IH]; simpl; [lra|]. rewrite IH. lra. Qed.

Lemma Rsum_map_zero {X} (g : X -> R) l :
  (forall x, x ∈ l -> g x = 0) -> Rsum (map g l) = 0.
Proof.
  induction l as [|x l IH]; simpl; intros Hz; [done|].
  rewrite (Hz x), IH; [lra| |]; [intros y Hy; apply Hz|]; set_solver.
Qed.

Lemma Rsum_single l i x :
  l !! i = Some x ->
  (forall k y, k <> i -> l !! k = Some y -> y = 0) ->
  Rsum l = x.
Proof.
  revert i. induction l as [|y l IH]; intros [|i] Hi Hz; simplify_eq/=.
  - rewrite (Rsum_zeros l); [lra|].
    apply Forall_lookup. intros k z Hk. by apply (Hz (S k) z).
  - rewrite (IH i Hi).
    + rewrite (Hz 0%nat y); [lra|lia|done].
    + intros k z Hk Hl. by apply (Hz (S k) z); [lia|].
Qed.

Lemma Rsum_indicator (j0 : nat) (v : R) s n :
  Rsum (map (fun j => if (j0 =? j)%nat then v else 0) (seq s n)) =
  if decide (s <= j0 < s + n)%nat then v else 0.
Proof.
  revert s. induction n as [|n IH]; intros s; simpl.
  - case_decide; [lia|done].
  - rewrite IH. destruct (Nat.eqb_spec j0 s); repeat case_decide; try lia; lra.
Qed.

Lemma coo_entry_cons t T i j :
  coo_entry (t :: T) i j =
  (if ((t.1.1 =? i) && (t.1.2 =? j))%nat then t.2 else 0) + coo_entry T i j.
Proof. done. Qed.

Lemma coo_entry_app T1 T2 i j :
  coo_entry (T1 ++ T2) i j = coo_entry T1 i j + coo_entry T2 i j.
Proof. unfold coo_entry. by rewrite map_app, Rsum_app. Qed.

Lemma coo_entry_concat Ts i j :
  coo_entry (concat Ts) i j = Rsum (map (fun T => coo_entry T i j) Ts).
Proof.
  induction Ts as [|T Ts IH]; simpl; [done|].
  by rewrite coo_entry_app, IH.
Qed.

Lemma coo_entry_T_row_other i' r K i j :
  i' <> i -> coo_entry (T_row i' r K) i j = 0.
Proof.
  intros Hne. unfold coo_entry, T_row. rewrite map_map.
  apply Rsum_map_zero. intros j' _. simpl.
  by destruct (Nat.eqb_spec i' i).
Qed.

Lemma coo_entry_row (f : nat -> R) i J j :
  NoDup J ->
  coo_entry (map (fun j' => (i, j', f j')) J) i j =
  if decide (j ∈ J) then f j else 0.
Proof.
  induction 1 as [|j' J Hnin Hnd IH]; cbn [map].
  - by rewrite decide_False by apply not_elem_of_nil.
  - rewrite coo_entry_cons, IH. cbn [fst snd]. rewrite Nat.eqb_refl.
    cbn [andb].
    destruct (Nat.eqb_spec j' j) as [->|Hne];
      destruct (decide (j ∈ J)) as [Hin|Hin];
      match goal with
      | |- context [decide (?a ∈ ?b :: ?l)] =>
          destruct (decide (a ∈ b :: l)) as [Hin'|Hin']
      end;
      try lra; exfalso; rewrite elem_of_cons in Hin'; intuition congruence.
Qed.


Lemma lookup_mkmat n m f i :
  (i < n)%nat -> mkmat n m f !! i = Some (map (f i) (seq 0 m)).
Proof.
  intros Hi. unfold mkmat. change (map ?g (seq 0 n)) with (g <$> seq 0 n).
  rewrite list_lookup_fmap, lookup_seq_lt by done. done.
Qed.


Section getS_entries.
Variables (W : matrix) (n K : nat).
Hypothesis HW : is_matrix n n W.
Hypothesis HK : (K <= n)%nat.

Lemma coo_entry_T_of i r j :
  W !! i = Some r ->
  coo_entry (T_of W K) i j =
  if decide (j ∈ J_row r K) then nth j r 0 / s_row r K else 0.
Proof.
  intros Hr. rewrite (T_of_blocks W n K HW HK), coo_entry_concat.
  rewrite (Rsum_single _ i (coo_entry (T_row i r K) i j)).
  - unfold T_row. apply (coo_entry_row (fun j => nth j r 0 / s_row r K)).
    apply J_row_NoDup.
  - change (map ?g ?l) with (g <$> l).
    by rewrite list_lookup_fmap, list_lookup_imap, Hr.
  - intros k y Hk. change (map ?g ?l) with (g <$> l).
    rewrite list_lookup_fmap, list_lookup_imap.
    destruct (W !! k) as [r'|]; simpl; [|done].
    intros [= <-]. by apply coo_entry_T_row_other.
Qed.

Lemma T_of_in_range :
  forallb (fun t => (t.1.1 <? nrows W) && (t.1.2 <? nrows W))%nat (T_of W K)
  = true.
Proof.
  rewrite (T_of_blocks W n K HW HK). apply forallb_forall.
  intros [[i j] v] Hin.
  apply in_concat in Hin as (T & HT & Hin).
  apply list_elem_of_In, list_elem_of_lookup in HT as [k HT].
  rewrite list_lookup_imap in HT.
  destruct (W !! k) as [r|] eqn:Hr; simplify_eq/=.
  unfold T_row in Hin. apply in_map_iff in Hin as (j' & Heq & Hj').
  simplify_eq. apply list_elem_of_In in Hj'.
  pose proof (J_row_bound W n K HW _ r _ Hr Hj').
  apply lookup_lt_Some in Hr. unfold nrows.
  destruct HW as [Hl _]. rewrite Hl in *.
  apply andb_true_iff. split; by apply Nat.ltb_lt.
Qed.

Lemma lookup_S_of i r :
  W !! i = Some r ->
  S_of W K !! i = Some (S_row r n K).
Proof.
  intros Hr. unfold S_of, coo_matrix, nrows.
  destruct HW as [Hl HF]. rewrite Hl.
  rewrite lookup_mkmat by (rewrite <- Hl; by eapply lookup_lt_Some).
  f_equal. apply map_ext. intros j. apply coo_entry_T_of. done.
Qed.



Lemma is_matrix_S_of : is_matrix n n (S_of W K).
Proof.
  unfold S_of, coo_matrix, nrows. destruct HW as [-> _]. apply is_matrix_mkmat.
Qed.

End getS_entries.

Lemma getS_run h W Wv K :
  arrays h !! W = Some Wv ->
  getS W K h =
  if (K <? ncols (mneg Wv))%nat then
    if forallb (fun t => (t.1.1 <? nrows Wv) && (t.1.2 <? nrows Wv))%nat
         (T_of Wv K)
    then Ok (length (arrays h)) (add_array h (S_of Wv K))
    else Raise ValueError h
  else Raise ValueError h.
Proof.
  intros HW. unfold getS. rewrite bind_run, (read_run _ _ _ HW).
  rewrite bind_run. unfold np_argpartition.
  destruct (K <? ncols (mneg Wv))%nat; [|done].
  unfold mret, Py_ret. fold (J_of Wv K). fold (I_of Wv K). fold (V_of Wv K).
  fold (SNorm_of Wv K). fold (T_of Wv K). fold (S_of Wv K).
  by destruct (forallb _ _).
Qed.

Lemma getS_run_ok h W Wv K n :
  arrays h !! W = Some Wv -> is_matrix n n Wv -> (K < n)%nat ->
  getS W K h = Ok (length (arrays h)) (add_array h (S_of Wv K)).
Proof.
  intros HW Hm HK. rewrite (getS_run _ _ _ _ HW).
  unfold mneg. rewrite ncols_map_rows, (is_matrix_ncols n n) by (done || lia).
  destruct (Nat.ltb_spec K n); [|lia].
  by rewrite (T_of_in_range Wv n K Hm) by lia.
Qed.

Lemma nth_nonneg r j : Forall (fun x => 0 <= x) r -> 0 <= nth j r 0.
Proof.
  intros Hr. destruct (r !! j) as [x|] eqn:Hj.
  - rewrite (nth_lookup_Some _ _ _ _ Hj). by eapply Forall_lookup_1.
  - rewrite nth_overflow; [lra|]. by apply lookup_ge_None.
Qed.




Lemma s_row_nonzero r K : s_row r K <> 0.
Proof. unfold s_row. destruct (Req_dec_T (Rsum (V_row r K)) 0); lra. Qed.





(** On that matrix: the first row keeps [1] and [1/2] over their sum, the
    last row keeps [1] and [-1] over 1. *)
Lemma getS_rows_example :
  exists S h',
    getS 0%nat 2 (Heap [W_kept_ex] []) = Ok S h' /\
    arrays h' !! S = Some [[2/3; 1/3; 0]; [0; 0; 0]; [1; -1; 0]].
Proof.
  assert (Hm : is_matrix 3 3 W_kept_ex)
    by (split; [done|by repeat constructor]).
  eexists _, _.
  split; [by apply (getS_run_ok _ _ W_kept_ex _ 3); [|done|lia]|].
  rewrite lookup_add_array_new. f_equal.
  unfold S_of, coo_matrix, T_of, SNorm_of, V_of, I_of, J_of, zero_to_one,
    np_sum1, div_rows, mneg, argsort_row, coo_entry, mkmat, W_kept_ex, nrows,
    get.
  eval_R. list_eq_R.
Qed.

(** ** List comprehensions *)

Lemma arrays_at_app h ext ls vs :
  arrays_at h ls vs -> arrays_at (Heap (arrays h ++ ext) (pylists h)) ls vs.
Proof.
  intros H. eapply Forall2_impl; [done|]. simpl. intros l v Hl.
  by apply lookup_app_l_Some.
Qed.

Lemma arrays_at_length h ls vs : arrays_at h ls vs -> length ls = length vs.
Proof. apply Forall2_length. Qed.

Lemma arrays_at_bound h ls vs :
  arrays_at h ls vs -> Forall (fun l => (l < length (arrays h))%nat) ls.
Proof.
  induction 1 as [|l v ls vs Hl _ IH]; constructor; [|done].
  by eapply lookup_lt_Some.
Qed.

Lemma arrays_at_lookup h ls vs i l :
  arrays_at h ls vs -> ls !! i = Some l -> arrays h !! l = Some (nth i vs []).
Proof.
  intros H Hl. destruct (Forall2_lookup_l _ _ _ _ _ H Hl) as (v & Hv & Hlv).
  by rewrite (nth_lookup_Some _ _ _ _ Hv).
Qed.

Lemma map_each_allocates f g P :
  allocates f g P ->
  forall ls vs h,
    arrays_at h ls vs -> Forall P vs ->
    exists ext ls',
      map_each ls f h = Ok ls' (Heap (arrays h ++ ext) (pylists h)) /\
      arrays_at (Heap (arrays h ++ ext) (pylists h)) ls' (map g vs) /\
      Forall (fun l => (length (arrays h) <= l)%nat) ls' /\
      NoDup ls'.
Proof.
  intros Hf ls vs h Hat. revert h Hat.
  induction vs as [|v vs IH] in ls |- *; intros h Hat HP.
  - apply Forall2_nil_inv_r in Hat as ->. exists [], []. simpl.
    rewrite app_nil_r. destruct h. repeat split; constructor.
  - apply Forall2_cons_inv_r in Hat as (l & ls0 & Hl & Hat & ->).
    apply Forall_cons in HP as [Hv HP].
    destruct (Hf h l v Hl Hv) as [e1 Hrun].
    set (h1 := Heap (arrays h ++ e1 ++ [g v]) (pylists h)) in *.
    destruct (IH ls0 h1) as (e2 & ls2 & Hrun2 & Hat2 & Hge2 & Hnd2); [|done|].
    { unfold h1. by apply arrays_at_app. }
    exists ((e1 ++ [g v]) ++ e2), ((length (arrays h) + length e1)%nat :: ls2).
    cbn [map_each]. rewrite bind_run, Hrun, bind_run, Hrun2.
    unfold h1 in *. simpl in *. rewrite <- !(assoc_L (++)) in *. simpl.
    split; [done|]. split; [|split].
    + constructor; [|done]. simpl.
      rewrite (assoc_L (++)), lookup_app_r by (rewrite length_app; lia).
      rewrite length_app. by replace (_ - _)%nat with 0%nat by lia.
    + constructor; [lia|]. eapply Forall_impl; [done|]. simpl.
      intros x. rewrite !length_app. lia.
    + constructor; [|done]. intros Hin.
      rewrite Forall_forall in Hge2. apply Hge2 in Hin.
      rewrite !length_app in Hin. simpl in Hin. lia.
Qed.

Lemma list_comp_allocates f g P h L ls vs :
  allocates f g P ->
  pylists h !! L = Some ls -> arrays_at h ls vs -> Forall P vs ->
  exists ext ls',
    list_comp f L h =
      Ok (length (pylists h)) (Heap (arrays h ++ ext) (pylists h ++ [ls'])) /\
    arrays_at (Heap (arrays h ++ ext) (pylists h ++ [ls'])) ls' (map g vs) /\
    Forall (fun l => (length (arrays h) <= l)%nat) ls' /\
    NoDup ls'.
Proof.
  intros Hf HL Hat HP.
  destruct (map_each_allocates f g P Hf ls vs h Hat HP)
    as (ext & ls' & Hrun & Hat' & Hge & Hnd).
  exists ext, ls'. unfold list_comp.
  rewrite bind_run, (list_items_run _ _ _ HL), bind_run, Hrun.
  split; [done|]. split; [|done]. done.
Qed.

Lemma getP_allocates : allocates (fun W => getP W false) P_of (fun _ => True).
Proof.
  intros h l v Hl _. exists []. rewrite (getP_run _ _ _ Hl).
  simpl. by rewrite Nat.add_0_r.
Qed.

Lemma getS_allocates n K :
  (K < n)%nat ->
  allocates (fun W => getS W K) (fun W => S_of W K) (is_matrix n n).
Proof.
  intros HK h l v Hl Hm. exists []. rewrite (getS_run_ok _ _ _ _ n Hl Hm HK).
  simpl. by rewrite Nat.add_0_r.
Qed.

Lemma getW_allocates n K Mu :
  (K + 1 < n)%nat ->
  allocates (fun D => getW D K Mu) (fun D => W_of D K Mu) (is_matrix n n).
Proof.
  intros HK h l v Hl Hm. exists [DSym_of v].
  rewrite (getW_run_ok _ _ _ _ _ n Hl Hm HK). simpl.
  unfold add_array. simpl. rewrite <- (assoc_L (++)). simpl.
  f_equal. lia.
Qed.

Lemma copy_allocates :
  allocates (fun P => Pv ← read P; new_array Pv) (fun v => v) (fun _ => True).
Proof.
  intros h l v Hl _. exists []. rewrite bind_run, (read_run _ _ _ Hl).
  simpl. by rewrite Nat.add_0_r.
Qed.

Lemma zeros_allocates :
  allocates
    (fun P => Pv ← read P; new_array (np_zeros (nrows Pv) (ncols Pv)))
    zeros_like (fun _ => True).
Proof.
  intros h l v Hl _. exists []. rewrite bind_run, (read_run _ _ _ Hl).
  simpl. by rewrite Nat.add_0_r.
Qed.

(** ** The cross-diffusion loop *)

Lemma set_array_set_array h l v w :
  set_array (set_array h l v) l w = set_array h l w.
Proof. unfold set_array. simpl. by rewrite list_insert_insert_eq. Qed.

Lemma set_array_id h l v : arrays h !! l = Some v -> set_array h l v = h.
Proof.
  intros Hl. destruct h as [a p]. unfold set_array. simpl in *.
  by rewrite list_insert_id.
Qed.

Lemma NoDup_insert_fresh {X} (l : list X) i x :
  NoDup l -> x ∉ l -> NoDup (<[i := x]> l).
Proof.
  intros Hnd. revert i. induction Hnd as [|y l Hy Hnd IH]; intros i Hx.
  - constructor.
  - apply not_elem_of_cons in Hx as [Hxy Hx]. destruct i as [|i]; simpl.
    + by constructor.
    + constructor; [|by apply IH].
      intros Hin. apply list_elem_of_lookup in Hin as [k Hk].
      destruct (decide (i = k)) as [->|Hne].
      * rewrite list_lookup_insert_eq in Hk
          by (apply lookup_lt_Some in Hk; by rewrite length_insert in Hk).
        congruence.
      * rewrite list_lookup_insert_ne in Hk by done.
        apply Hy. by eapply list_elem_of_lookup_2.
Qed.

(** The loop over [k], lines 139-142: it adds to the array [x] of
    [nextPts[i]] the arrays that [Pts] names at the other positions. *)
Lemma cross_loop_run Pts nextPts lsC lsN i x (cur : list matrix) ks :
  forall h acc,
    pylists h !! nextPts = Some lsN -> lsN !! i = Some x ->
    pylists h !! Pts = Some lsC ->
    arrays h !! x = Some acc ->
    (forall k, k ∈ ks -> k <> i ->
       exists y, lsC !! k = Some y /\ y <> x /\
                 arrays h !! y = Some (nth k cur [])) ->
    for_each ks
      (fun k => if (i =? k)%nat then mret tt
                else x ← list_getitem nextPts i; y ← list_getitem Pts k;
                     iadd x y) h =
    Ok tt (set_array h x
             (fold_left
                (fun acc k =>
                   if (i =? k)%nat then acc else madd acc (nth k cur []))
                ks acc)).
Proof.
  induction ks as [|k ks IH]; intros h acc HN Hx HC Hacc Hk.
  - simpl. by rewrite (set_array_id _ _ _ Hacc).
  - cbn [for_each fold_left]. rewrite bind_run.
    destruct (Nat.eqb_spec i k) as [<-|Hne].
    + unfold mret at 1, Py_ret at 1. apply IH; try done.
      intros k' Hk' Hne. apply Hk; [|done]. apply elem_of_cons. by right.
    + destruct (Hk k) as (y & Hy & Hyx & Hyv);
        [apply elem_of_cons; by left|done|].
      rewrite bind_run, (list_getitem_run _ _ _ _ _ HN Hx).
      rewrite bind_run, (list_getitem_run _ _ _ _ _ HC Hy).
      rewrite (iadd_run _ _ _ _ _ Hacc Hyv).
      rewrite (IH (set_array h x (madd acc (nth k cur [])))
                 (madd acc (nth k cur []))); try done.
      * by rewrite set_array_set_array.
      * by eapply lookup_set_array_eq.
      * intros k' Hk' Hne'.
        destruct (Hk k') as (y' & Hy' & Hyx' & Hyv');
          [apply elem_of_cons; by right|done|].
        exists y'. split; [done|]. split; [done|].
        by apply lookup_set_array_ne.
Qed.

(** What the store of [after_pass] holds. *)
Section after_pass.
Variables (h : heap) (x : loc) (C Av Y : matrix) (nextPts : loc)
  (lsN lsN' : list loc) (V old : matrix).
Hypothesis Hx : arrays h !! x = Some old.
Hypothesis HN : pylists h !! nextPts = Some lsN.

Lemma after_pass_old l v :
  arrays h !! l = Some v -> l <> x -> arrays (after_pass h x C Av Y nextPts lsN' V) !! l = Some v.
Proof.
  intros Hl Hne. unfold after_pass.
  pose proof (lookup_lt_Some _ _ _ Hl) as Hlt.
  apply lookup_set_array_ne; [|lia].
  simpl. apply lookup_app_l_Some, lookup_app_l_Some.
  by rewrite list_lookup_insert_ne.
Qed.

Lemma after_pass_new : arrays (after_pass h x C Av Y nextPts lsN' V) !! S (length (arrays h)) = Some V.
Proof.
  unfold after_pass. eapply lookup_set_array_eq. simpl.
  rewrite lookup_app_r; rewrite !length_app, length_insert; simpl; [|lia].
  by replace (_ - _)%nat with 0%nat by lia.
Qed.

Lemma after_pass_list : pylists (after_pass h x C Av Y nextPts lsN' V) !! nextPts = Some lsN'.
Proof.
  unfold after_pass. simpl. apply list_lookup_insert_eq.
  by eapply lookup_lt_Some.
Qed.

Lemma after_pass_list_other L ls :
  pylists h !! L = Some ls -> L <> nextPts -> pylists (after_pass h x C Av Y nextPts lsN' V) !! L = Some ls.
Proof.
  intros HL Hne. unfold after_pass. simpl.
  by rewrite list_lookup_insert_ne.
Qed.

Lemma after_pass_ext h0 :
  heap_ext h0 h -> (length (arrays h0) <= x)%nat ->
  (length (pylists h0) <= nextPts)%nat -> heap_ext h0 (after_pass h x C Av Y nextPts lsN' V).
Proof.
  intros Hext Hxb HNb. unfold after_pass.
  apply heap_ext_set_array.
  - apply heap_ext_set_list; [|done].
    by apply heap_ext_add_array, heap_ext_add_array, heap_ext_set_array.
  - destruct Hext as [Ha _]. apply prefix_length in Ha. lia.
Qed.

End after_pass.

Lemma arrays_at_preserved h h' ls vs (Q : loc -> Prop) :
  arrays_at h ls vs -> Forall Q ls ->
  (forall l v, arrays h !! l = Some v -> Q l -> arrays h' !! l = Some v) ->
  arrays_at h' ls vs.
Proof.
  intros Hat HQ Hpre. induction Hat as [|l v ls vs Hl _ IH]; [constructor|].
  apply Forall_cons in HQ as [Hq HQ]. constructor; [by apply Hpre|by apply IH].
Qed.

Lemma diffuse_one_run h0 h Ss Pts nextPts aliased Svs cur nxt N reg i :
  fusion_state h0 h Ss Pts nextPts aliased Svs cur nxt ->
  length Svs = N -> length cur = N -> length nxt = N -> (i < N)%nat ->
  exists h',
    diffuse_one Ss Pts nextPts N reg i h = Ok tt h' /\
    fusion_state h0 h' Ss Pts nextPts aliased Svs
      (if aliased then pass_of aliased Svs cur nxt reg i N else cur)
      (pass_of aliased Svs cur nxt reg i N).
Proof.
  intros (b & lsS & lsC & lsN & Hext & Hb & HNb & HSs & HPts & HNx & HSN &
          HatS & HatC & HatN & HltS & HgeN & Hnd & Hal) HlS Hlc Hln Hi.
  pose proof (arrays_at_length _ _ _ HatS) as HlenS.
  pose proof (arrays_at_length _ _ _ HatC) as HlenC.
  pose proof (arrays_at_length _ _ _ HatN) as HlenN.
  destruct (lookup_lt_is_Some_2 lsN i) as [x Hx]; [lia|].
  destruct (lookup_lt_is_Some_2 lsS i) as [s Hs]; [lia|].
  pose proof (arrays_at_lookup _ _ _ _ _ HatN Hx) as Hxv.
  pose proof (arrays_at_lookup _ _ _ _ _ HatS Hs) as Hsv.
  assert (Hxb : (b <= x)%nat) by (by eapply Forall_lookup_1 in HgeN).
  assert (Hsb : (s < b)%nat) by (by eapply Forall_lookup_1 in HltS).
  assert (Hxlt : (x < length (arrays h))%nat) by (by eapply lookup_lt_Some).
  set (old := nth i nxt []) in *.
  set (curv := if aliased then nxt else cur).
  assert (HC : forall k, k ∈ seq 0 N -> k <> i ->
             exists y, lsC !! k = Some y /\ y <> x /\
                       arrays h !! y = Some (nth k curv [])).
  { intros k Hk Hne. apply elem_of_seq in Hk.
    destruct (lookup_lt_is_Some_2 lsC k) as [y Hy]; [lia|].
    exists y. split; [done|]. unfold curv. destruct aliased.
    - subst Pts. assert (lsC = lsN) by congruence. subst lsC.
      split.
      + intros ->. apply Hne. by eapply NoDup_lookup.
      + by eapply arrays_at_lookup.
    - destruct Hal as [_ HltC]. split.
      + eapply Forall_lookup_1 in HltC; [|done]. simpl in HltC. lia.
      + by eapply arrays_at_lookup. }
  set (C := cross_of old curv i N).
  set (Sv := nth i Svs []) in *.
  set (Av := mdot Sv (transpose C)).
  set (Y := mdot Sv (transpose Av)).
  set (V := diffuse_of Sv C reg).
  set (lsN' := <[i := S (length (arrays h))]> lsN).
  exists (after_pass h x C Av Y nextPts lsN' V).
  split.
  - unfold diffuse_one.
    rewrite bind_run, (list_getitem_run _ _ _ _ _ HNx Hx).
    rewrite bind_run, (imul_run _ _ _ _ Hxv).
    rewrite bind_run.
    rewrite (cross_loop_run Pts nextPts lsC lsN i x curv (seq 0 N)
               (set_array h x (mscale 0 old)) (mscale 0 old));
      [|done|done|done|by eapply lookup_set_array_eq|].
    2:{ intros k Hk Hne. destruct (HC k Hk Hne) as (y & Hy & Hyx & Hyv).
        exists y. split; [done|]. split; [done|].
        by apply lookup_set_array_ne. }
    rewrite set_array_set_array.
    rewrite bind_run, (list_getitem_run _ _ lsN _ x) by done.
    rewrite bind_run, (idivc_run _ _ _ _ (lookup_set_array_eq _ _ _ _ Hxv)).
    rewrite set_array_set_array. fold (cross_of old curv i N). fold C.
    assert (HxC : arrays (set_array h x C) !! x = Some C)
      by (by eapply lookup_set_array_eq).
    assert (HsC : arrays (set_array h x C) !! s = Some Sv)
      by (apply lookup_set_array_ne; [done|lia]).
    rewrite bind_run, (list_getitem_run _ _ lsS _ s) by done.
    rewrite bind_run, (read_run _ _ _ HsC).
    rewrite bind_run, (list_getitem_run _ _ lsN _ x) by done.
    rewrite bind_run, (read_run _ _ _ HxC).
    rewrite bind_run. unfold new_array at 1. fold Av.
    rewrite bind_run, (list_getitem_run _ _ lsS _ s) by done.
    rewrite bind_run, (read_run _ _ Sv) by (by apply lookup_add_array_old).
    rewrite bind_run, (read_run _ _ Av) by apply lookup_add_array_new.
    fold Y. rewrite bind_run. unfold new_array at 1.
    rewrite bind_run, (list_setitem_run _ _ lsN) by (done || lia).
    rewrite length_add_array, length_set_array. fold lsN'.
    assert (HY : arrays (set_list (add_array (add_array (set_array h x C) Av) Y)
                           nextPts lsN') !! S (length (arrays h)) = Some Y).
    { simpl. rewrite lookup_app_r; rewrite length_app, length_insert; simpl;
        [|lia]. by replace (_ - _)%nat with 0%nat by lia. }
    unfold V, diffuse_of. fold Av. fold Y.
    destruct (Rlt_dec 0 reg).
    + rewrite bind_run, (list_getitem_run _ _ lsN' _ (S (length (arrays h)))).
      2:{ simpl. apply list_lookup_insert_eq. by eapply lookup_lt_Some. }
      2:{ apply list_lookup_insert_eq. lia. }
      rewrite bind_run, (read_run _ _ _ HY).
      by rewrite (write_run _ _ _ _ HY).
    + unfold mret, Py_ret, after_pass. by rewrite (set_array_id _ _ _ HY).
  - exists b, lsS, (if aliased then lsN' else lsC), lsN'.
    assert (Hold : forall l v, arrays h !! l = Some v -> l <> x ->
              arrays (after_pass h x C Av Y nextPts lsN' V) !! l = Some v).
    { intros l v. by apply after_pass_old. }
    assert (HatN' : arrays_at (after_pass h x C Av Y nextPts lsN' V) lsN'
                      (pass_of aliased Svs cur nxt reg i N)).
    { apply Forall2_same_length_lookup_2.
      - unfold lsN', pass_of. by rewrite !length_insert.
      - intros k a v Ha Hv. unfold lsN', pass_of in Ha, Hv.
        destruct (decide (i = k)) as [<-|Hne].
        + rewrite list_lookup_insert_eq in Ha by lia.
          rewrite list_lookup_insert_eq in Hv by lia. simplify_eq.
          apply after_pass_new.
        + rewrite list_lookup_insert_ne in Ha by done.
          rewrite list_lookup_insert_ne in Hv by done.
          apply Hold.
          * destruct (Forall2_lookup_l _ _ _ _ _ HatN Ha) as (v' & Hv' & Hl).
            congruence.
          * intros ->. apply Hne. by eapply NoDup_lookup. }
    split; [apply after_pass_ext; [done|lia|done]|].
    split; [done|]. split; [done|].
    split; [by apply after_pass_list_other|].
    split.
    { destruct aliased.
      - subst Pts. by eapply after_pass_list.
      - destruct Hal as [Hne _].
        by apply after_pass_list_other. }
    split; [by eapply after_pass_list|].
    split; [done|].
    split.
    { apply (arrays_at_preserved h _ lsS Svs (fun l => l <> x)); [done| |].
      - eapply Forall_impl; [done|]. simpl. intros l Hl. lia.
      - intros l v Hl Hne. by apply Hold. }
    split.
    { destruct aliased; [done|]. destruct Hal as [_ HltC].
      apply (arrays_at_preserved h _ lsC cur (fun l => l <> x)); [done| |].
      - eapply Forall_impl; [done|]. simpl. intros l Hl. lia.
      - intros l v Hl Hne. by apply Hold. }
    split; [done|]. split; [done|].
    split; [apply Forall_insert; [done|lia]|].
    split.
    { apply NoDup_insert_fresh; [done|]. intros Hin.
      pose proof (arrays_at_bound _ _ _ HatN) as Hbd.
      rewrite Forall_forall in Hbd. apply Hbd in Hin. lia. }
    by destruct aliased.
Qed.

Lemma length_pass_of aliased Svs cur nxt reg i N :
  length (pass_of aliased Svs cur nxt reg i N) = length nxt.
Proof. unfold pass_of. apply length_insert. Qed.

(** One sweep, lines 136-158: the passes in the order of [ks]. *)
Lemma sweep_run h0 Ss Pts nextPts aliased Svs N reg ks :
  (forall i, i ∈ ks -> (i < N)%nat) ->
  forall h cur nxt,
    fusion_state h0 h Ss Pts nextPts aliased Svs cur nxt ->
    length Svs = N -> length cur = N -> length nxt = N ->
    exists h',
      for_each ks (diffuse_one Ss Pts nextPts N reg) h = Ok tt h' /\
      fusion_state h0 h' Ss Pts nextPts aliased Svs
        (if aliased
         then fold_left (fun nx i => pass_of aliased Svs cur nx reg i N) ks nxt
         else cur)
        (fold_left (fun nx i => pass_of aliased Svs cur nx reg i N) ks nxt) /\
      length (fold_left (fun nx i => pass_of aliased Svs cur nx reg i N) ks nxt)
      = N.
Proof.
  induction ks as [|i ks IH]; intros Hks h cur nxt Hst HlS Hlc Hln.
  - exists h. split; [done|]. simpl. split; [|done].
    destruct aliased; [|done].
    destruct Hst as (b & lsS & lsC & lsN & ? & ? & ? & ? & HPts & HNx & ? &
                     ? & ? & ? & ? & ? & ? & Hal).
    subst Pts. assert (lsC = lsN) by congruence. subst lsC.
    exists b, lsS, lsN, lsN. repeat (split; [done|]). done.
  - destruct (diffuse_one_run h0 h Ss Pts nextPts aliased Svs cur nxt N reg i
                Hst HlS Hlc Hln) as (h1 & Hrun1 & Hst1).
    { apply Hks. apply elem_of_cons. by left. }
    destruct (IH (fun k Hk => Hks k ltac:(apply elem_of_cons; by right)) h1
                (if aliased then pass_of aliased Svs cur nxt reg i N else cur)
                (pass_of aliased Svs cur nxt reg i N) Hst1 HlS)
      as (h2 & Hrun2 & Hst2 & Hlen2).
    { destruct aliased; [|done]. by rewrite length_pass_of. }
    { by rewrite length_pass_of. }
    exists h2. cbn [for_each fold_left]. rewrite bind_run, Hrun1.
    split; [done|]. by destruct aliased.
Qed.

Lemma fusion_state_rebind h0 h Ss Pts nextPts aliased Svs cur nxt :
  fusion_state h0 h Ss Pts nextPts aliased Svs cur nxt ->
  fusion_state h0 h Ss nextPts nextPts true Svs nxt nxt.
Proof.
  intros (b & lsS & lsC & lsN & ? & ? & ? & ? & HPts & HNx & ? &
          ? & ? & ? & ? & ? & ? & Hal).
  exists b, lsS, lsN, lsN. repeat (split; [done|]). done.
Qed.

(** The loop over [it], lines 122-160. *)
Lemma sweeps_run h0 Ss nextPts Svs N reg n :
  forall h Pts aliased cur nxt,
    fusion_state h0 h Ss Pts nextPts aliased Svs cur nxt ->
    length Svs = N -> length cur = N -> length nxt = N ->
    exists h' Pts' aliased' nxt',
      repeat_on n
        (fun Pts => for_each (seq 0 N) (diffuse_one Ss Pts nextPts N reg);;
                    mret nextPts) Pts h = Ok Pts' h' /\
      fusion_state h0 h' Ss Pts' nextPts aliased' Svs
        (sweeps_of n aliased Svs cur nxt reg) nxt' /\
      length (sweeps_of n aliased Svs cur nxt reg) = N.
Proof.
  induction n as [|n IH]; intros h Pts aliased cur nxt Hst HlS Hlc Hln.
  - exists h, Pts, aliased, nxt. done.
  - destruct (sweep_run h0 Ss Pts nextPts aliased Svs N reg (seq 0 N)
                (fun i Hi => proj2 (proj1 (elem_of_seq _ _ _) Hi))
                h cur nxt Hst HlS Hlc Hln) as (h1 & Hrun1 & Hst1 & Hlen1).
    apply fusion_state_rebind in Hst1.
    destruct (IH h1 nextPts true _ _ Hst1 HlS Hlen1 Hlen1)
      as (h2 & Pts2 & al2 & nxt2 & Hrun2 & Hst2 & Hlen2).
    exists h2, Pts2, al2, nxt2. cbn [repeat_on sweeps_of].
    rewrite bind_run, bind_run, Hrun1. unfold mret at 1, Py_ret at 1.
    unfold sweep_of. rewrite Hlc. done.
Qed.

(** The loop of lines 164-165. *)
Lemma sum_loop_run f vs :
  forall ls h acc,
    arrays h !! f = Some acc -> arrays_at h ls vs ->
    Forall (fun l => l <> f) ls ->
    for_each ls (fun Pt => iadd f Pt) h =
    Ok tt (set_array h f (fold_left madd vs acc)).
Proof.
  induction vs as [|v vs IH]; intros ls h acc Hf Hat Hne.
  - apply Forall2_nil_inv_r in Hat as ->. simpl.
    by rewrite (set_array_id _ _ _ Hf).
  - apply Forall2_cons_inv_r in Hat as (l & ls0 & Hl & Hat & ->).
    apply Forall_cons in Hne as [Hlf Hne].
    cbn [for_each fold_left]. rewrite bind_run, (iadd_run _ _ _ _ _ Hf Hl).
    rewrite (IH ls0 (set_array h f (madd acc v)) (madd acc v)).
    + by rewrite set_array_set_array.
    + by eapply lookup_set_array_eq.
    + apply (arrays_at_preserved h _ ls0 vs (fun l => l <> f)); [done|done|].
      intros l' v' Hl' Hne'. apply lookup_set_array_ne; [done|congruence].
    + done.
Qed.

Lemma arrays_at_prefix h h' ls vs :
  arrays h `prefix_of` arrays h' -> arrays_at h ls vs -> arrays_at h' ls vs.
Proof.
  intros Hp Hat. eapply Forall2_impl; [done|]. simpl. intros l v Hl.
  by eapply prefix_lookup_Some.
Qed.

(** Lines 163-166, from the state that the loop leaves. *)
Lemma fused_run h0 h Ss Pts nextPts aliased Svs cur nxt N :
  fusion_state h0 h Ss Pts nextPts aliased Svs cur nxt ->
  length cur = N -> (0 < N)%nat ->
  exists F h',
    (P0 ← list_getitem Pts 0; P0v ← read P0;
     FusedScores ← new_array (np_zeros (nrows P0v) (ncols P0v));
     Pt_s ← list_items Pts;
     for_each Pt_s (fun Pt => iadd FusedScores Pt);;
     Fv ← read FusedScores;
     new_array (mdivc Fv (INR N))) h = Ok F h' /\
    arrays h' !! F = Some (fused_of cur) /\ heap_ext h0 h'.
Proof.
  intros (b & lsS & lsC & lsN & Hext & Hb & HNb & HSs & HPts & HNx & HSN &
          HatS & HatC & HatN & HltS & HgeN & Hnd & Hal) Hlc HN.
  pose proof (arrays_at_length _ _ _ HatC) as HlenC.
  destruct (lookup_lt_is_Some_2 lsC 0) as [p0 Hp0]; [lia|].
  pose proof (arrays_at_lookup _ _ _ _ _ HatC Hp0) as Hp0v.
  set (Z := np_zeros (nrows (nth 0 cur [])) (ncols (nth 0 cur []))).
  set (f := length (arrays h)).
  eexists _, _. split.
  - rewrite bind_run, (list_getitem_run _ _ _ _ _ HPts Hp0).
    rewrite bind_run, (read_run _ _ _ Hp0v).
    rewrite bind_run. unfold new_array at 1. fold Z. fold f.
    rewrite bind_run, (list_items_run _ _ lsC) by done.
    rewrite bind_run.
    rewrite (sum_loop_run f cur lsC (add_array h Z) Z).
    + rewrite bind_run, (read_run _ _ (fold_left madd cur Z)).
      * reflexivity.
      * eapply lookup_set_array_eq. apply lookup_add_array_new.
    + apply lookup_add_array_new.
    + eapply arrays_at_prefix; [|done]. simpl. by apply prefix_app_r.
    + pose proof (arrays_at_bound _ _ _ HatC) as Hbd.
      eapply Forall_impl; [done|]. simpl. unfold f. intros l Hl. lia.
  - split.
    + unfold fused_of. fold Z. rewrite Hlc. apply lookup_add_array_new.
    + apply heap_ext_add_array, heap_ext_set_array;
        [by apply heap_ext_add_array|].
      destruct Hext as [Ha _]. apply prefix_length in Ha. unfold f. lia.
Qed.

(** ** [doSimilarityFusionWs] and [doSimilarityFusion] *)

(** Lines 163-166 on an empty list of measurements: [Pts[0]] raises. *)
Lemma fused_run_empty h0 h Ss Pts nextPts aliased Svs cur nxt N :
  fusion_state h0 h Ss Pts nextPts aliased Svs cur nxt ->
  length cur = 0%nat ->
  (P0 ← list_getitem Pts 0; P0v ← read P0;
   FusedScores ← new_array (np_zeros (nrows P0v) (ncols P0v));
   Pt_s ← list_items Pts;
   for_each Pt_s (fun Pt => iadd FusedScores Pt);;
   Fv ← read FusedScores;
   new_array (mdivc Fv (INR N))) h = Raise IndexError h /\ heap_ext h0 h.
Proof.
  intros (b & lsS & lsC & lsN & Hext & Hb & HNb & HSs & HPts & HNx & HSN &
          HatS & HatC & HatN & HltS & HgeN & Hnd & Hal) Hlc.
  pose proof (arrays_at_length _ _ _ HatC) as HlenC.
  destruct lsC; [|simpl in *; lia].
  split; [|done]. rewrite bind_run. unfold list_getitem.
  by rewrite bind_run, (list_items_run _ _ _ HPts).
Qed.

(** Lines 115-166, once [Ps] and [Ss] are built: with at least one
    measurement the call returns a fresh array that holds the fused
    values. *)
Lemma fusion_from_Ss h0 h Ps Ss lsP lsS Pvs Svs NIters reg :
  heap_ext h0 h ->
  pylists h !! Ps = Some lsP -> pylists h !! Ss = Some lsS ->
  arrays_at h lsP Pvs -> arrays_at h lsS Svs ->
  length Svs = length Pvs ->
  let rest :=
    (Pts ← list_comp (fun P => Pv ← read P; new_array Pv) Ps;
     nextPts ← list_comp
                 (fun P => Pv ← read P;
                           new_array (np_zeros (nrows Pv) (ncols Pv)))
                 Pts;
     N ← len Pts;
     Pts ← repeat_on NIters
             (fun Pts =>
                for_each (seq 0 N) (diffuse_one Ss Pts nextPts N reg);;
                mret nextPts)
             Pts;
     P0 ← list_getitem Pts 0; P0v ← read P0;
     FusedScores ← new_array (np_zeros (nrows P0v) (ncols P0v));
     Pt_s ← list_items Pts;
     for_each Pt_s (fun Pt => iadd FusedScores Pt);;
     Fv ← read FusedScores;
     new_array (mdivc Fv (INR N))) in
  heap_ext h0 (final_heap (rest h)) /\
  ((0 < length Pvs)%nat ->
   exists F h',
     rest h = Ok F h' /\
     arrays h' !! F =
       Some (fused_of (sweeps_of NIters false Svs Pvs (map zeros_like Pvs) reg))).
Proof.
  intros Hext HPs HSs HatP HatS HlS rest. unfold rest. clear rest.
  (* Pts *)
  destruct (list_comp_allocates _ _ _ h Ps lsP Pvs copy_allocates HPs HatP)
    as (e3 & lsC & Hrun3 & HatC & _ & _); [by apply Forall_true|].
  set (h3 := Heap (arrays h ++ e3) (pylists h ++ [lsC])) in *.
  rewrite bind_run, Hrun3. rewrite map_id in HatC.
  (* nextPts *)
  destruct (list_comp_allocates _ _ _ h3 (length (pylists h)) lsC
              Pvs zeros_allocates)
    as (e4 & lsN & Hrun4 & HatN & HgeN & HndN); [| |by apply Forall_true|].
  { simpl. apply lookup_snoc. }
  { done. }
  set (h4 := Heap (arrays h3 ++ e4) (pylists h3 ++ [lsN])) in *.
  rewrite bind_run, Hrun4.
  (* N = len(Pts) *)
  assert (HlC : pylists h4 !! length (pylists h) = Some lsC).
  { simpl. apply lookup_app_l_Some. apply lookup_snoc. }
  rewrite bind_run, (len_run _ _ _ HlC).
  pose proof (arrays_at_length _ _ _ HatC) as HlenC. rewrite HlenC.
  destruct Hext as [Hea Hel].
  pose proof (prefix_length _ _ Hea) as Hla.
  pose proof (prefix_length _ _ Hel) as Hll.
  pose proof (lookup_lt_Some _ _ _ HSs) as HSslt.
  (* the state before the first sweep *)
  assert (Hst : fusion_state h0 h4 Ss (length (pylists h))
                  (length (pylists h3)) false Svs Pvs (map zeros_like Pvs)).
  { exists (length (arrays h3)), lsS, lsC, lsN.
    split.
    { split; simpl; by do 2 apply prefix_app_r. }
    split; [simpl; rewrite !length_app; lia|].
    split; [simpl; rewrite !length_app; simpl; lia|].
    split; [simpl; by do 2 apply lookup_app_l_Some|].
    split; [done|].
    split; [apply lookup_snoc|].
    split; [simpl; rewrite !length_app; simpl; lia|].
    split.
    { eapply arrays_at_prefix; [|done]. simpl. by do 2 apply prefix_app_r. }
    split.
    { eapply arrays_at_prefix; [|done]. simpl. by apply prefix_app_r. }
    split; [done|].
    split.
    { pose proof (arrays_at_bound _ _ _ HatS) as Hbd.
      eapply Forall_impl; [done|]. simpl. intros l Hl.
      rewrite !length_app in *. lia. }
    split; [done|]. split; [done|].
    split; [simpl; rewrite !length_app; simpl; lia|].
    apply (arrays_at_bound _ _ _ HatC). }
  destruct (sweeps_run h0 Ss (length (pylists h3)) Svs (length Pvs) reg NIters
              h4 (length (pylists h)) false Pvs (map zeros_like Pvs) Hst)
    as (h5 & Pts5 & al5 & nxt5 & Hrun5 & Hst5 & Hlen5);
    [done|done|by rewrite length_map|].
  rewrite bind_run, Hrun5.
  destruct (Nat.eq_dec (length Pvs) 0) as [Hz|Hnz].
  - destruct (fused_run_empty h0 h5 _ _ _ _ _ _ _ (length Pvs) Hst5)
      as [Hrun6 Hext6]; [lia|].
    rewrite Hrun6. split; [done|lia].
  - destruct (fused_run h0 h5 _ _ _ _ _ _ _ (length Pvs) Hst5 Hlen5)
      as (F & h6 & Hrun6 & HF & Hext6); [lia|].
    rewrite Hrun6. split; [done|]. intros _. by exists F, h6.
Qed.

(** A call on a list of at least one N x N affinity matrix with [K < N]
    returns a fresh array that holds [fusion_of], and every array and list
    of the caller is as it was. *)
Lemma doSimilarityFusionWs_run h Ws lsW Wvs n K NIters reg :
  pylists h !! Ws = Some lsW -> arrays_at h lsW Wvs ->
  (0 < length Wvs)%nat ->
  Forall (is_matrix n n) Wvs -> (K < n)%nat ->
  exists F h',
    doSimilarityFusionWs Ws K NIters reg h = Ok F h' /\
    arrays h' !! F = Some (fusion_of Wvs K NIters reg) /\ heap_ext h h'.
Proof.
  intros HWs Hat Hm Hsq HK. unfold doSimilarityFusionWs.
  (* Ps *)
  destruct (list_comp_allocates _ _ _ h Ws lsW Wvs getP_allocates HWs Hat)
    as (e1 & lsP & Hrun1 & HatP & _ & _); [by apply Forall_true|].
  set (h1 := Heap (arrays h ++ e1) (pylists h ++ [lsP])) in *.
  rewrite bind_run, Hrun1.
  (* Ss *)
  destruct (list_comp_allocates _ _ _ h1 Ws lsW Wvs (getS_allocates n K HK))
    as (e2 & lsS & Hrun2 & HatS & _ & _); [| |done|].
  { simpl. by apply lookup_app_l_Some. }
  { eapply arrays_at_prefix; [|done]. simpl. by apply prefix_app_r. }
  set (h2 := Heap (arrays h1 ++ e2) (pylists h1 ++ [lsS])) in *.
  rewrite bind_run, Hrun2.
  destruct (fusion_from_Ss h h2 (length (pylists h)) (length (pylists h1))
              lsP lsS (map P_of Wvs) (map (fun W => S_of W K) Wvs) NIters reg)
    as [Hext Hok].
  { split; simpl; by do 2 apply prefix_app_r. }
  { simpl. apply lookup_app_l_Some, lookup_snoc. }
  { apply lookup_snoc. }
  { eapply arrays_at_prefix; [|done]. simpl. by apply prefix_app_r. }
  { done. }
  { by rewrite !length_map. }
  destruct Hok as (F & h' & Hrun & HF); [by rewrite length_map|].
  exists F, h'. split; [exact Hrun|]. split; [done|].
  cbv zeta in Hext. by rewrite Hrun in Hext.
Qed.

(** ** The caller's store *)

Lemma heap_eta h : Heap (arrays h ++ []) (pylists h) = h.
Proof. destruct h. simpl. by rewrite app_nil_r. Qed.

Lemma map_each_frame f :
  fresh_or_raises f ->
  forall ls h,
    (exists ext ls' vs,
       map_each ls f h = Ok ls' (Heap (arrays h ++ ext) (pylists h)) /\
       arrays_at (Heap (arrays h ++ ext) (pylists h)) ls' vs /\
       length ls' = length ls) \/
    (exists e ext,
       map_each ls f h = Raise e (Heap (arrays h ++ ext) (pylists h))).
Proof.
  intros Hf. induction ls as [|l ls IH]; intros h.
  - left. exists [], [], []. rewrite heap_eta. repeat split. constructor.
  - cbn [map_each]. rewrite bind_run.
    destruct (Hf h l) as [(e1 & v & Hrun)|(e & e1 & Hrun)]; rewrite Hrun.
    2:{ right. by exists e, e1. }
    set (h1 := Heap (arrays h ++ e1 ++ [v]) (pylists h)).
    rewrite bind_run.
    destruct (IH h1) as [(e2 & ls2 & vs2 & Hrun2 & Hat2 & Hlen2)|
                         (e & e2 & Hrun2)]; rewrite Hrun2.
    2:{ right. exists e, ((e1 ++ [v]) ++ e2). unfold h1. simpl.
        by rewrite <- !(assoc_L (++)). }
    left. exists ((e1 ++ [v]) ++ e2),
            ((length (arrays h) + length e1)%nat :: ls2), (v :: vs2).
    unfold h1 in *. simpl in *. rewrite <- !(assoc_L (++)) in *. simpl in *.
    split; [done|]. split; [|by rewrite Hlen2].
    constructor; [|done]. simpl.
    rewrite (assoc_L (++)), lookup_app_r by (rewrite length_app; lia).
    rewrite length_app. by replace (_ - _)%nat with 0%nat by lia.
Qed.

Lemma list_comp_frame f L h :
  fresh_or_raises f ->
  (exists ext ls ls' vs,
     pylists h !! L = Some ls /\
     list_comp f L h =
       Ok (length (pylists h)) (Heap (arrays h ++ ext) (pylists h ++ [ls'])) /\
     arrays_at (Heap (arrays h ++ ext) (pylists h ++ [ls'])) ls' vs /\
     length ls' = length ls) \/
  (exists e ext,
     list_comp f L h = Raise e (Heap (arrays h ++ ext) (pylists h))).
Proof.
  intros Hf. unfold list_comp. rewrite bind_run. unfold list_items.
  destruct (pylists h !! L) as [ls|] eqn:HL.
  2:{ right. exists SystemError, []. by rewrite heap_eta. }
  rewrite bind_run.
  destruct (map_each_frame f Hf ls h)
    as [(ext & ls' & vs & Hrun & Hat & Hlen)|(e & ext & Hrun)]; rewrite Hrun.
  - left. by exists ext, ls, ls', vs.
  - right. by exists e, ext.
Qed.

Lemma getP_fresh_or_raises b : fresh_or_raises (fun W => getP W b).
Proof.
  intros h l. destruct (arrays h !! l) as [v|] eqn:Hl.
  - left. destruct b.
    + exists [fill_diagonal v 0], (P_reg_of v).
      rewrite (getP_reg_run _ _ _ Hl). unfold add_array. simpl.
      rewrite <- (assoc_L (++)). simpl. f_equal. lia.
    + exists [], (P_of v). rewrite (getP_run _ _ _ Hl). simpl.
      by rewrite Nat.add_0_r.
  - right. exists SystemError, []. rewrite heap_eta.
    unfold getP. rewrite bind_run. unfold read. by rewrite Hl.
Qed.

Lemma getS_fresh_or_raises K : fresh_or_raises (fun W => getS W K).
Proof.
  intros h l. destruct (arrays h !! l) as [v|] eqn:Hl.
  - rewrite (getS_run _ _ _ _ Hl).
    destruct (K <? ncols (mneg v))%nat;
      [destruct (forallb _ _)|].
    + left. exists [], (S_of v K). simpl. by rewrite Nat.add_0_r.
    + right. exists ValueError, []. by rewrite heap_eta.
    + right. exists ValueError, []. by rewrite heap_eta.
  - right. exists SystemError, []. rewrite heap_eta.
    unfold getS. rewrite bind_run. unfold read. by rewrite Hl.
Qed.

Lemma getW_fresh_or_raises K Mu : fresh_or_raises (fun D => getW D K Mu).
Proof.
  intros h l. destruct (arrays h !! l) as [v|] eqn:Hl.
  - rewrite (getW_run _ _ _ _ _ Hl).
    destruct (K + 1 <? ncols (DSym_of v))%nat.
    + left. exists [DSym_of v], (W_of v K Mu). unfold add_array. simpl.
      rewrite <- (assoc_L (++)). simpl. f_equal. lia.
    + right. by exists ValueError, [DSym_of v].
  - right. exists SystemError, []. rewrite heap_eta.
    unfold getW. rewrite bind_run. unfold read. by rewrite Hl.
Qed.

Lemma heap_ext_app h ext : heap_ext h (Heap (arrays h ++ ext) (pylists h)).
Proof. split; simpl; [by apply prefix_app_r|done]. Qed.

Lemma getW_frame h D K Mu : heap_ext h (final_heap (getW D K Mu h)).
Proof.
  destruct (getW_fresh_or_raises K Mu h D) as [(ext & v & ->)|(e & ext & ->)];
    simpl.
  - apply (heap_ext_app h (ext ++ [v])).
  - apply heap_ext_app.
Qed.

Lemma doSimilarityFusionWs_frame h Ws K NIters reg :
  heap_ext h (final_heap (doSimilarityFusionWs Ws K NIters reg h)).
Proof.
  unfold doSimilarityFusionWs. rewrite bind_run.
  destruct (list_comp_frame (fun W => getP W false) Ws h
              (getP_fresh_or_raises false))
    as [(e1 & lsW & lsP & Pvs & HWs & -> & HatP & HlenP)|(e & e1 & ->)].
  2:{ apply heap_ext_app. }
  set (h1 := Heap (arrays h ++ e1) (pylists h ++ [lsP])) in *.
  rewrite bind_run.
  destruct (list_comp_frame (fun W => getS W K) Ws h1 (getS_fresh_or_raises K))
    as [(e2 & lsW' & lsS & Svs & HWs' & -> & HatS & HlenS)|(e & e2 & ->)].
  2:{ split; simpl; [by do 2 apply prefix_app_r|by apply prefix_app_r]. }
  assert (lsW' = lsW) as ->.
  { simpl in HWs'. rewrite (lookup_app_l_Some _ _ _ _ HWs) in HWs'. congruence. }
  set (h2 := Heap (arrays h1 ++ e2) (pylists h1 ++ [lsS])) in *.
  apply (fusion_from_Ss h h2 (length (pylists h)) (length (pylists h1))
           lsP lsS Pvs Svs NIters reg).
  - split; simpl; by do 2 apply prefix_app_r.
  - simpl. apply lookup_app_l_Some, lookup_snoc.
  - apply lookup_snoc.
  - eapply arrays_at_prefix; [|done]. simpl. by apply prefix_app_r.
  - done.
  - rewrite <- (arrays_at_length _ _ _ HatP), <- (arrays_at_length _ _ _ HatS).
    lia.
Qed.

Lemma doSimilarityFusion_frame h Scores K NIters reg :
  heap_ext h (final_heap (doSimilarityFusion Scores K NIters reg h)).
Proof.
  unfold doSimilarityFusion. rewrite bind_run.
  destruct (list_comp_frame (fun D => getW D K (1/2)) Scores h
              (getW_fresh_or_raises K (1/2)))
    as [(e1 & lsD & lsW & Wvs & HD & -> & HatW & HlenW)|(e & e1 & ->)].
  2:{ apply heap_ext_app. }
  eapply heap_ext_trans; [|apply doSimilarityFusionWs_frame].
  split; simpl; by apply prefix_app_r.
Qed.

Lemma doSimilarityFusion_run h Scores lsD Dvs n K NIters reg :
  pylists h !! Scores = Some lsD -> arrays_at h lsD Dvs ->
  (0 < length Dvs)%nat ->
  Forall (is_matrix n n) Dvs -> (K + 1 < n)%nat ->
  exists F h',
    doSimilarityFusion Scores K NIters reg h = Ok F h' /\
    arrays h' !! F =
      Some (fusion_of (map (fun D => W_of D K (1/2)) Dvs) K NIters reg) /\
    heap_ext h h'.
Proof.
  intros HS Hat Hm Hsq HK. unfold doSimilarityFusion.
  destruct (list_comp_allocates _ _ _ h Scores lsD Dvs
              (getW_allocates n K (1/2) HK) HS Hat Hsq)
    as (e1 & lsW & Hrun1 & HatW & _ & _).
  set (h1 := Heap (arrays h ++ e1) (pylists h ++ [lsW])) in *.
  rewrite bind_run, Hrun1.
  destruct (doSimilarityFusionWs_run h1 (length (pylists h)) lsW
              (map (fun D => W_of D K (1/2)) Dvs) n K NIters reg)
    as (F & h' & Hrun & HF & Hext).
  - apply lookup_snoc.
  - done.
  - by rewrite length_map.
  - apply Forall_map. eapply Forall_impl; [done|]. simpl.
    intros D HD. by apply is_matrix_W_of.
  - lia.
  - exists F, h'. split; [done|]. split; [done|].
    eapply heap_ext_trans; [|done]. split; simpl; by apply prefix_app_r.
Qed.

(** ** Entries of the fused matrix *)

Lemma is_matrix_P_of n m W : is_matrix n m W -> is_matrix n m (P_of W).
Proof.
  intros [Hl HF]. unfold P_of, div_rows, RowSum_of, zero_to_one, np_sum1. split.
  - rewrite length_zip_with, !length_map. lia.
  - apply Forall_lookup. intros i p Hp.
    apply lookup_zip_with_Some in Hp as (r & s & -> & Hr & Hs).
    rewrite length_map. by eapply Forall_lookup_1 in HF.
Qed.

Lemma is_matrix_madd n m A B : is_matrix n m A -> is_matrix n m (madd A B).
Proof.
  intros HA. unfold madd. rewrite (is_matrix_nrows _ _ _ HA).
  destruct n as [|n].
  - split; [apply length_mkmat|constructor].
  - rewrite (is_matrix_ncols _ _ _ HA) by lia. apply is_matrix_mkmat.
Qed.

Lemma get_madd n m A B i j :
  is_matrix n m A -> (i < n)%nat -> (j < m)%nat ->
  get (madd A B) i j = get A i j + get B i j.
Proof.
  intros HA Hi Hj. unfold madd.
  rewrite (is_matrix_nrows _ _ _ HA), (is_matrix_ncols _ _ _ HA) by lia.
  by rewrite get_mkmat.
Qed.

Lemma get_fold_madd n m Xs :
  forall A i j,
    is_matrix n m A -> (i < n)%nat -> (j < m)%nat ->
    get (fold_left madd Xs A) i j =
    get A i j + Rsum (map (fun X => get X i j) Xs).
Proof.
  induction Xs as [|X Xs IH]; intros A i j HA Hi Hj; simpl; [lra|].
  rewrite IH by (done || by apply is_matrix_madd).
  rewrite (get_madd n m) by done. lra.
Qed.

Lemma is_matrix_fold_madd n m Xs :
  forall A, is_matrix n m A -> is_matrix n m (fold_left madd Xs A).
Proof.
  induction Xs as [|X Xs IH]; intros A HA; simpl; [done|].
  by apply IH, is_matrix_madd.
Qed.

Lemma fused_of_entries n Xs :
  Forall (is_matrix n n) Xs -> (0 < length Xs)%nat ->
  is_matrix n n (fused_of Xs) /\
  forall i j, (i < n)%nat -> (j < n)%nat ->
    get (fused_of Xs) i j =
    Rsum (map (fun X => get X i j) Xs) / INR (length Xs).
Proof.
  intros HX Hlen. unfold fused_of.
  assert (H0 : is_matrix n n (nth 0 Xs [])).
  { destruct Xs as [|X Xs]; simpl in *; [lia|]. by inversion HX. }
  assert (HZ : is_matrix n n
                 (np_zeros (nrows (nth 0 Xs [])) (ncols (nth 0 Xs [])))).
  { unfold np_zeros. rewrite (is_matrix_nrows _ _ _ H0). destruct n as [|n].
    - split; [apply length_mkmat|constructor].
    - rewrite (is_matrix_ncols _ _ _ H0) by lia. apply is_matrix_mkmat. }
  split.
  - apply is_matrix_map_rows. by apply is_matrix_fold_madd.
  - intros i j Hi Hj. rewrite get_mdivc, (get_fold_madd n n) by done.
    unfold np_zeros at 1.
    rewrite (is_matrix_nrows _ _ _ H0), (is_matrix_ncols _ _ _ H0) by lia.
    rewrite get_mkmat by done. f_equal. lra.
Qed.

(** C4: for [m >= 2] affinity matrices of one size N x N and [K < N], a
    call with [NIters = 0] returns the N x N array whose entry [(i, j)] is
    the sum of the entries [(i, j)] of the matrices [getP(W_k, False)]
    over [m]; no sweep has run.  [P_of W] is the value that
    [getP(W, False)] returns. *)
Theorem fusion_zero_iterations (h : heap) (Ws : loc) (lsW : list loc)
    (Wvs : list matrix) (n K : nat) (reg : R) :
  pylists h !! Ws = Some lsW ->
  arrays_at h lsW Wvs ->
  (2 <= length Wvs)%nat ->
  Forall (is_matrix n n) Wvs ->
  (K < n)%nat ->
  (forall h0 l W, arrays h0 !! l = Some W ->
     exists P h1, getP l false h0 = Ok P h1 /\ arrays h1 !! P = Some (P_of W)) /\
  exists F h' Fv,
    doSimilarityFusionWs Ws K 0 reg h = Ok F h' /\
    arrays h' !! F = Some Fv /\
    is_matrix n n Fv /\
    forall i j, (i < n)%nat -> (j < n)%nat ->
      get Fv i j =
      Rsum (map (fun W => get (P_of W) i j) Wvs) / INR (length Wvs).
Proof.
  intros HWs Hat Hm Hsq HK. split.
  { intros h0 l W Hl. eexists _, _. split; [by apply getP_run|].
    apply lookup_add_array_new. }
  destruct (doSimilarityFusionWs_run h Ws lsW Wvs n K 0 reg HWs Hat)
    as (F & h' & Hrun & HF & _); [lia|done|done|].
  exists F, h', (fusion_of Wvs K 0 reg). split; [done|]. split; [done|].
  unfold fusion_of. simpl sweeps_of.
  destruct (fused_of_entries n (map P_of Wvs)) as [Hmat Hent].
  { apply Forall_map. eapply Forall_impl; [done|]. simpl.
    intros W. apply is_matrix_P_of. }
  { rewrite length_map. lia. }
  split; [done|]. intros i j Hi Hj.
  rewrite Hent by done. by rewrite map_map, length_map.
Qed.

Lemma is_matrix_W1_ex : is_matrix 2 2 W1_ex.
Proof. split; [done|]. by repeat constructor. Qed.

Lemma is_matrix_W2_ex : is_matrix 2 2 W2_ex.
Proof. split; [done|]. by repeat constructor. Qed.

Lemma fusion_zero_iterations_witness :
  (forall h0 l W, arrays h0 !! l = Some W ->
     exists P h1, getP l false h0 = Ok P h1 /\ arrays h1 !! P = Some (P_of W)) /\
  exists F h' Fv,
    doSimilarityFusionWs 0%nat 1 0 1 heap_ex12 = Ok F h' /\
    arrays h' !! F = Some Fv /\
    is_matrix 2 2 Fv /\
    forall i j, (i < 2)%nat -> (j < 2)%nat ->
      get Fv i j =
      Rsum (map (fun W => get (P_of W) i j) [W1_ex; W2_ex]) / INR 2.
Proof.
  apply (fusion_zero_iterations heap_ex12 0%nat [0%nat; 1%nat]
           [W1_ex; W2_ex] 2 1 1).
  - reflexivity.
  - repeat constructor.
  - simpl. lia.
  - repeat constructor; (apply is_matrix_W1_ex || apply is_matrix_W2_ex).
  - lia.
Defined.

(** C9: whatever the arguments and however the call ends, [getW],
    [doSimilarityFusionWs] and [doSimilarityFusion] leave every array and
    every list that the store held before the call at its reference with
    its contents: all their writes go to arrays and lists that the call
    itself has allocated. *)
Theorem caller_store_unchanged (h : heap) (D Ws Scores : loc)
    (K NIters : nat) (Mu reg : R) :
  let h1 := final_heap (getW D K Mu h) in
  let h2 := final_heap (doSimilarityFusionWs Ws K NIters reg h) in
  let h3 := final_heap (doSimilarityFusion Scores K NIters reg h) in
  (heap_ext h h1 /\ heap_ext h h2 /\ heap_ext h h3) /\
  (forall l v, arrays h !! l = Some v ->
     arrays h1 !! l = Some v /\ arrays h2 !! l = Some v /\
     arrays h3 !! l = Some v) /\
  (forall L ls, pylists h !! L = Some ls ->
     pylists h1 !! L = Some ls /\ pylists h2 !! L = Some ls /\
     pylists h3 !! L = Some ls).
Proof.
  intros h1 h2 h3.
  pose proof (getW_frame h D K Mu) as H1.
  pose proof (doSimilarityFusionWs_frame h Ws K NIters reg) as H2.
  pose proof (doSimilarityFusion_frame h Scores K NIters reg) as H3.
  split; [done|]. split.
  - intros l v Hl. repeat split; by eapply heap_ext_lookup_array.
  - intros L ls HL. repeat split; by eapply heap_ext_lookup_list.
Qed.

(** ** The example of two measurements *)

Lemma P_of_W1_ex : P_of W1_ex = [[2/3; 1/3]; [1/3; 2/3]].
Proof.
  unfold P_of, RowSum_of, zero_to_one, np_sum1, div_rows, W1_ex.
  eval_R. list_eq_R.
Qed.

Lemma P_of_W2_ex : P_of W2_ex = [[4/5; 1/5]; [1/5; 4/5]].
Proof.
  unfold P_of, RowSum_of, zero_to_one, np_sum1, div_rows, W2_ex.
  eval_R. list_eq_R.
Qed.

Lemma S_of_W1_ex : S_of W1_ex 1 = [[1; 0]; [0; 1]].
Proof.
  unfold S_of, coo_matrix, T_of, SNorm_of, V_of, I_of, J_of, zero_to_one,
    np_sum1, div_rows, mneg, argsort_row, coo_entry, mkmat, W1_ex, nrows, get.
  eval_R. list_eq_R.
Qed.

Lemma S_of_W2_ex : S_of W2_ex 1 = [[1; 0]; [0; 1]].
Proof.
  unfold S_of, coo_matrix, T_of, SNorm_of, V_of, I_of, J_of, zero_to_one,
    np_sum1, div_rows, mneg, argsort_row, coo_entry, mkmat, W2_ex, nrows, get.
  eval_R. list_eq_R.
Qed.

Ltac eval_matrices :=
  cbv [sweep_of pass_of cross_of diffuse_of fused_of zeros_like
       sync_fusion sync_sweeps sync_sweep sync_next msum others
       np_zeros np_eye mdot madd mscale mdivc transpose mkmat get nrows ncols
       Rsum fold_left fold_right map seq nth length hd Nat.eqb Nat.sub
       take drop app insert list_insert INR];
  repeat match goal with
  | |- context [Rlt_dec ?a ?b] =>
      let H := fresh in destruct (Rlt_dec a b) as [H|H];
      [clear H|exfalso; lra]
  end;
  list_eq_R.

(** The first sweep reads the states of its start. *)
Lemma sweep_ex_first (P1 P2 : matrix) a b c d :
  P1 = [[a; b]; [b; a]] -> P2 = [[c; d]; [d; c]] ->
  sweep_of false [[[1; 0]; [0; 1]]; [[1; 0]; [0; 1]]] [P1; P2]
    [zeros_like P1; zeros_like P2] 1 =
  [[[c + 1; d]; [d; c + 1]]; [[a + 1; b]; [b; a + 1]]].
Proof. intros -> ->. eval_matrices. Qed.

(** A later sweep, on one list: the second pass reads what the first one
    has stored. *)
Lemma sweep_ex_later (X1 X2 : matrix) a b c d :
  X1 = [[a; b]; [b; a]] -> X2 = [[c; d]; [d; c]] ->
  sweep_of true [[[1; 0]; [0; 1]]; [[1; 0]; [0; 1]]] [X1; X2] [X1; X2] 1 =
  [[[c + 1; d]; [d; c + 1]]; [[c + 2; d]; [d; c + 2]]].
Proof. intros -> ->. eval_matrices. Qed.

Lemma fused_of_ex a b c d :
  fused_of [[[a; b]; [b; a]]; [[c; d]; [d; c]]] =
  [[(a + c) / 2; (b + d) / 2]; [(b + d) / 2; (a + c) / 2]].
Proof. eval_matrices. Qed.

Lemma fusion_of_ex12 :
  fusion_of [W1_ex; W2_ex] 1 2 1 = [[19/6; 1/3]; [1/3; 19/6]].
Proof.
  unfold fusion_of. cbn [map sweeps_of].
  rewrite P_of_W1_ex, P_of_W2_ex, S_of_W1_ex, S_of_W2_ex.
  rewrite (sweep_ex_first _ _ (2/3) (1/3) (4/5) (1/5)) by done.
  rewrite (sweep_ex_later _ _ (4/5 + 1) (1/5) (2/3 + 1) (1/3)) by done.
  rewrite fused_of_ex. list_eq_R.
Qed.

Lemma fusion_of_ex21 :
  fusion_of [W2_ex; W1_ex] 1 2 1 = [[33/10; 1/5]; [1/5; 33/10]].
Proof.
  unfold fusion_of. cbn [map sweeps_of].
  rewrite P_of_W1_ex, P_of_W2_ex, S_of_W1_ex, S_of_W2_ex.
  rewrite (sweep_ex_first _ _ (4/5) (1/5) (2/3) (1/3)) by done.
  rewrite (sweep_ex_later _ _ (2/3 + 1) (1/3) (4/5 + 1) (1/5)) by done.
  rewrite fused_of_ex. list_eq_R.
Qed.

(** In the synchronous iteration every sweep reads the states of its
    start. *)
Lemma sync_sweep_ex a b c d :
  sync_sweep 2 [[[1; 0]; [0; 1]]; [[1; 0]; [0; 1]]]
    [[[a; b]; [b; a]]; [[c; d]; [d; c]]] 1 =
  [[[c + 1; d]; [d; c + 1]]; [[a + 1; b]; [b; a + 1]]].
Proof. eval_matrices. Qed.

Lemma sync_fusion_ex12 :
  sync_fusion 2 [W1_ex; W2_ex] 1 2 1 = [[41/15; 4/15]; [4/15; 41/15]].
Proof.
  unfold sync_fusion. cbn [map sync_sweeps].
  rewrite P_of_W1_ex, P_of_W2_ex, S_of_W1_ex, S_of_W2_ex.
  rewrite !sync_sweep_ex. eval_matrices.
Qed.

Lemma doSimilarityFusionWs_ex12 :
  exists F h',
    doSimilarityFusionWs 0%nat 1 2 1 heap_ex12 = Ok F h' /\
    arrays h' !! F = Some [[19/6; 1/3]; [1/3; 19/6]].
Proof.
  destruct (doSimilarityFusionWs_run heap_ex12 0%nat [0%nat; 1%nat]
              [W1_ex; W2_ex] 2 1 2 1) as (F & h' & Hrun & HF & _).
  - reflexivity.
  - repeat constructor.
  - simpl. lia.
  - repeat constructor; (apply is_matrix_W1_ex || apply is_matrix_W2_ex).
  - lia.
  - exists F, h'. split; [done|]. by rewrite <- fusion_of_ex12.
Qed.

Lemma doSimilarityFusionWs_ex21 :
  exists F h',
    doSimilarityFusionWs 0%nat 1 2 1 heap_ex21 = Ok F h' /\
    arrays h' !! F = Some [[33/10; 1/5]; [1/5; 33/10]].
Proof.
  destruct (doSimilarityFusionWs_run heap_ex21 0%nat [1%nat; 0%nat]
              [W2_ex; W1_ex] 2 1 2 1) as (F & h' & Hrun & HF & _).
  - reflexivity.
  - repeat constructor.
  - simpl. lia.
  - repeat constructor; (apply is_matrix_W1_ex || apply is_matrix_W2_ex).
  - lia.
  - exists F, h'. split; [done|]. by rewrite <- fusion_of_ex21.
Qed.

(** C1 on the code: with [Ws = [W1_ex, W2_ex]], [K = 1], [NIters = 2] and
    [reg = 1] the call returns the matrix with rows [19/6, 1/3] and
    [1/3, 19/6], and the synchronous iteration of the design gives the
    rows [41/15, 4/15] and [4/15, 41/15]: in the second sweep the pass for
    the second measurement has read the state that the pass for the first
    one had just stored. *)
Theorem second_sweep_reads_updated_state :
  exists F h' Fv,
    doSimilarityFusionWs 0%nat 1 2 1 heap_ex12 = Ok F h' /\
    arrays h' !! F = Some Fv /\
    Fv = [[19/6; 1/3]; [1/3; 19/6]] /\
    sync_fusion 2 [W1_ex; W2_ex] 1 2 1 = [[41/15; 4/15]; [4/15; 41/15]] /\
    Fv <> sync_fusion 2 [W1_ex; W2_ex] 1 2 1.
Proof.
  destruct doSimilarityFusionWs_ex12 as (F & h' & Hrun & HF).
  exists F, h', [[19/6; 1/3]; [1/3; 19/6]].
  split; [done|]. split; [done|]. split; [done|].
  split; [apply sync_fusion_ex12|].
  rewrite sync_fusion_ex12. intros Heq.
  apply (f_equal (fun A => get A 0 0)) in Heq. unfold get in Heq.
  simpl in Heq. lra.
Qed.

(** C7 on the code: with [K = 1], [NIters = 2] and [reg = 1] the list
    [[W1_ex, W2_ex]] and the list [[W2_ex, W1_ex]] give different fused
    matrices. *)
Theorem fusion_depends_on_order :
  exists F h1 Fv G h2 Gv,
    doSimilarityFusionWs 0%nat 1 2 1 heap_ex12 = Ok F h1 /\
    arrays h1 !! F = Some Fv /\
    doSimilarityFusionWs 0%nat 1 2 1 heap_ex21 = Ok G h2 /\
    arrays h2 !! G = Some Gv /\
    Fv = [[19/6; 1/3]; [1/3; 19/6]] /\
    Gv = [[33/10; 1/5]; [1/5; 33/10]] /\
    Fv <> Gv.
Proof.
  destruct doSimilarityFusionWs_ex12 as (F & h1 & Hrun1 & HF).
  destruct doSimilarityFusionWs_ex21 as (G & h2 & Hrun2 & HG).
  exists F, h1, [[19/6; 1/3]; [1/3; 19/6]], G, h2, [[33/10; 1/5]; [1/5; 33/10]].
  repeat (split; [done|]). intros Heq.
  apply (f_equal (fun A => get A 0 0)) in Heq. unfold get in Heq.
  simpl in Heq. lra.
Qed.

(** ** A single measurement *)

Lemma fusion_of_single W K reg n :
  is_matrix n n W ->
  forall i j, (i < n)%nat -> (j < n)%nat ->
    get (fusion_of [W] K 0 reg) i j = get (P_of W) i j.
Proof.
  intros HW i j Hi Hj. unfold fusion_of. cbn [map sweeps_of].
  destruct (fused_of_entries n [P_of W]) as [_ Hent].
  { constructor; [by apply is_matrix_P_of|constructor]. }
  { simpl. lia. }
  rewrite Hent by done. simpl. lra.
Qed.

(** C3, as stated, fails: the call [doSimilarityFusion([D_ex], 1, 0, 1)]
    on a list of exactly one distance matrix raises nothing and returns an
    array. *)
Lemma single_measurement_not_rejected :
  pylists heap_ex_single !! 0%nat = Some [0%nat] /\
  exists F h' Fv,
    doSimilarityFusion 0%nat 1 0 1 heap_ex_single = Ok F h' /\
    arrays h' !! F = Some Fv /\
    forall e h'', doSimilarityFusion 0%nat 1 0 1 heap_ex_single <> Raise e h''.
Proof.
  split; [done|].
  destruct (doSimilarityFusion_run heap_ex_single 0%nat [0%nat] [D_ex] 3 1 0 1)
    as (F & h' & Hrun & HF & _).
  - reflexivity.
  - repeat constructor.
  - simpl. lia.
  - constructor; [apply is_matrix_D_ex|constructor].
  - lia.
  - exists F, h', (fusion_of (map (fun D => W_of D 1 (1/2)) [D_ex]) 1 0 1).
    split; [done|]. split; [done|]. intros e h''. by rewrite Hrun.
Qed.

(** C3, amended: a call with a list of exactly one N x N matrix and
    [K < N-1] raises nothing, whatever [NIters] and [reg]:
    [doSimilarityFusion] and [doSimilarityFusionWs] return an array, and
    with [NIters = 0] the array that [doSimilarityFusionWs] returns holds
    [getP(W, False)] of that matrix. *)
Theorem single_measurement_returns (h : heap) (L l : loc) (Wv : matrix)
    (n K NIters : nat) (reg : R) :
  pylists h !! L = Some [l] ->
  arrays h !! l = Some Wv ->
  is_matrix n n Wv ->
  (K + 1 < n)%nat ->
  (exists F h', doSimilarityFusion L K NIters reg h = Ok F h') /\
  (exists F h', doSimilarityFusionWs L K NIters reg h = Ok F h') /\
  (exists F h' Fv,
     doSimilarityFusionWs L K 0 reg h = Ok F h' /\
     arrays h' !! F = Some Fv /\
     forall i j, (i < n)%nat -> (j < n)%nat ->
       get Fv i j = get (P_of Wv) i j).
Proof.
  intros HL Hl Hm HK.
  assert (Hat : arrays_at h [l] [Wv]) by (by repeat constructor).
  assert (Hsq : Forall (is_matrix n n) [Wv]) by (constructor; [done|constructor]).
  split; [|split].
  - destruct (doSimilarityFusion_run h L [l] [Wv] n K NIters reg HL Hat)
      as (F & h' & Hrun & _); [simpl; lia|done|done|].
    by exists F, h'.
  - destruct (doSimilarityFusionWs_run h L [l] [Wv] n K NIters reg HL Hat)
      as (F & h' & Hrun & _); [simpl; lia|done|lia|].
    by exists F, h'.
  - destruct (doSimilarityFusionWs_run h L [l] [Wv] n K 0 reg HL Hat)
      as (F & h' & Hrun & HF & _); [simpl; lia|done|lia|].
    exists F, h', (fusion_of [Wv] K 0 reg). split; [done|]. split; [done|].
    by apply fusion_of_single.
Qed.

Lemma single_measurement_returns_witness :
  (exists F h', doSimilarityFusion 0%nat 1 20 1 heap_ex_single = Ok F h') /\
  (exists F h', doSimilarityFusionWs 0%nat 1 20 1 heap_ex_single = Ok F h') /\
  (exists F h' Fv,
     doSimilarityFusionWs 0%nat 1 0 1 heap_ex_single = Ok F h' /\
     arrays h' !! F = Some Fv /\
     forall i j, (i < 3)%nat -> (j < 3)%nat ->
       get Fv i j = get (P_of D_ex) i j).
Proof.
  apply (single_measurement_returns heap_ex_single 0%nat 0%nat D_ex 3 1 20 1).
  - reflexivity.
  - reflexivity.
  - apply is_matrix_D_ex.
  - lia.
Defined.

(** * Further properties of the code *)

(** ** Errors of the entry points *)

Lemma map_each_raises {A B} (f : A -> Py B) x xs h e h' :
  f x h = Raise e h' -> map_each (x :: xs) f h = Raise e h'.
Proof. intros Hf. cbn [map_each]. by rewrite bind_run, Hf. Qed.

Lemma getW_run_raise h D Dv K Mu n :
  arrays h !! D = Some Dv -> is_matrix n n Dv -> (n <= K + 1)%nat ->
  getW D K Mu h = Raise ValueError (add_array h (DSym_of Dv)).
Proof.
  intros HD Hm HK. rewrite (getW_run _ _ _ _ _ HD).
  assert (Hc : (ncols (DSym_of Dv) <= n)%nat).
  { destruct n as [|n].
    - pose proof (is_matrix_DSym_of 0 Dv Hm) as [Hl _].
      unfold ncols. by destruct (DSym_of Dv).
    - rewrite (is_matrix_ncols (S n) (S n)); [lia|by apply is_matrix_DSym_of|lia]. }
  by destruct (Nat.ltb_spec (K + 1) (ncols (DSym_of Dv))); [lia|].
Qed.

Lemma getS_run_raise h W Wv K n :
  arrays h !! W = Some Wv -> is_matrix n n Wv -> (n <= K)%nat ->
  getS W K h = Raise ValueError h.
Proof.
  intros HW Hm HK. rewrite (getS_run _ _ _ _ HW).
  assert (Hc : (ncols (mneg Wv) <= n)%nat).
  { unfold mneg. rewrite ncols_map_rows. destruct n as [|n].
    - destruct Hm as [Hl _]. unfold ncols. by destruct Wv.
    - rewrite (is_matrix_ncols (S n) (S n)); [lia|done|lia]. }
  by destruct (Nat.ltb_spec K (ncols (mneg Wv))); [lia|].
Qed.

(** X1: on an N x N distance matrix [getW] returns exactly when
    [K < N-1]; for any larger [K] the partial selection of line 25 raises
    a [ValueError], after [DSym] has been built and with the caller's
    arrays as they were. *)
Theorem getW_returns_iff (h : heap) (D : loc) (Dv : matrix) (n K : nat)
    (Mu : R) :
  arrays h !! D = Some Dv ->
  is_matrix n n Dv ->
  ((K + 1 < n)%nat ->
   exists W h', getW D K Mu h = Ok W h' /\ arrays h' !! W = Some (W_of Dv K Mu)) /\
  ((n <= K + 1)%nat ->
   exists h', getW D K Mu h = Raise ValueError h' /\ heap_ext h h').
Proof.
  intros HD Hm. split; intros HK.
  - eexists _, _. split; [by eapply getW_run_ok|apply lookup_add_array_new2].
  - eexists. split; [by eapply getW_run_raise|].
    apply heap_ext_add_array, heap_ext_refl.
Qed.

Lemma getW_returns_iff_witness :
  ((1 + 1 < 3)%nat ->
   exists W h', getW 0%nat 1 (1/2) (Heap [D_ex] []) = Ok W h' /\
                arrays h' !! W = Some (W_of D_ex 1 (1/2))) /\
  ((3 <= 1 + 1)%nat ->
   exists h', getW 0%nat 1 (1/2) (Heap [D_ex] []) = Raise ValueError h' /\
              heap_ext (Heap [D_ex] []) h').
Proof.
  apply (getW_returns_iff (Heap [D_ex] []) 0%nat D_ex 3 1 (1/2)).
  - reflexivity.
  - apply is_matrix_D_ex.
Defined.

(** X2: on an N x N affinity matrix [getS] returns exactly when [K < N];
    otherwise [np.argpartition] raises a [ValueError] and nothing has been
    allocated. *)
Theorem getS_returns_iff (h : heap) (W : loc) (Wv : matrix) (n K : nat) :
  arrays h !! W = Some Wv ->
  is_matrix n n Wv ->
  ((K < n)%nat ->
   exists S h', getS W K h = Ok S h' /\ arrays h' !! S = Some (S_of Wv K)) /\
  ((n <= K)%nat -> getS W K h = Raise ValueError h).
Proof.
  intros HW Hm. split; intros HK.
  - eexists _, _. split; [by eapply getS_run_ok|apply lookup_add_array_new].
  - by eapply getS_run_raise.
Qed.

Lemma getS_returns_iff_witness :
  ((1 < 2)%nat ->
   exists S h', getS 0%nat 1 (Heap [W_zero] []) = Ok S h' /\
                arrays h' !! S = Some (S_of W_zero 1)) /\
  ((2 <= 1)%nat -> getS 0%nat 1 (Heap [W_zero] []) = Raise ValueError (Heap [W_zero] [])).
Proof.
  apply (getS_returns_iff (Heap [W_zero] []) 0%nat W_zero 2 1).
  - reflexivity.
  - split; [reflexivity|]. repeat constructor.
Defined.

(** X3: [doSimilarityFusionWs] on a nonempty list of N x N matrices with
    [K >= N] raises the [ValueError] of [getS], whatever [NIters] and
    [reg]; [doSimilarityFusion] on a nonempty list of N x N distances
    with [K >= N-1] raises the [ValueError] of [getW]. *)
Theorem fusion_rejects_large_K (h : heap) (L l : loc) (ls : list loc)
    (v : matrix) (vs : list matrix) (n K NIters : nat) (reg : R) :
  pylists h !! L = Some (l :: ls) ->
  arrays_at h (l :: ls) (v :: vs) ->
  is_matrix n n v ->
  ((n <= K)%nat ->
   exists h', doSimilarityFusionWs L K NIters reg h = Raise ValueError h') /\
  ((n <= K + 1)%nat ->
   exists h', doSimilarityFusion L K NIters reg h = Raise ValueError h').
Proof.
  intros HL Hat Hm. split; intros HK.
  - unfold doSimilarityFusionWs.
    destruct (list_comp_allocates _ _ _ h L (l :: ls) (v :: vs)
                getP_allocates HL Hat) as (e1 & lsP & Hrun1 & _);
      [by apply Forall_true|].
    rewrite bind_run, Hrun1, bind_run. unfold list_comp.
    set (h1 := Heap (arrays h ++ e1) (pylists h ++ [lsP])).
    assert (HL1 : pylists h1 !! L = Some (l :: ls)).
    { simpl. by apply lookup_app_l_Some. }
    rewrite bind_run, (list_items_run _ _ _ HL1), bind_run.
    erewrite map_each_raises; [by eexists|].
    apply (getS_run_raise h1 l v K n); [|done|done].
    simpl. apply lookup_app_l_Some. by inversion Hat.
  - unfold doSimilarityFusion, list_comp.
    rewrite bind_run, bind_run, (list_items_run _ _ _ HL), bind_run.
    erewrite map_each_raises; [by eexists|].
    apply (getW_run_raise h l v K (1/2) n); [|done|done]. by inversion Hat.
Qed.

Lemma fusion_rejects_large_K_witness :
  ((3 <= 3)%nat ->
   exists h', doSimilarityFusionWs 0%nat 3 20 1 heap_ex_single
              = Raise ValueError h') /\
  ((3 <= 3 + 1)%nat ->
   exists h', doSimilarityFusion 0%nat 3 20 1 heap_ex_single
              = Raise ValueError h').
Proof.
  apply (fusion_rejects_large_K heap_ex_single 0%nat 0%nat [] D_ex [] 3 3 20 1).
  - reflexivity.
  - repeat constructor.
  - apply is_matrix_D_ex.
Defined.

(** ** An empty list of measurements *)

Lemma list_comp_nil f L h :
  pylists h !! L = Some [] ->
  list_comp f L h = Ok (length (pylists h)) (add_list h []).
Proof.
  intros HL. unfold list_comp.
  by rewrite bind_run, (list_items_run _ _ _ HL).
Qed.

Lemma repeat_on_no_pass (body : loc -> nat -> Py unit) (nextPts : loc) n :
  forall Pts h,
    repeat_on n (fun Pts => for_each (seq 0 0) (body Pts);; mret nextPts)
      Pts h =
    Ok (match n with O => Pts | S _ => nextPts end) h.
Proof.
  induction n as [|n IH]; intros Pts h; [done|].
  cbn [repeat_on]. rewrite bind_run. cbn [seq for_each].
  rewrite bind_run. unfold mret at 1 2, Py_ret at 1 2.
  rewrite IH. by destruct n.
Qed.

(** X4: on an empty list and with [NIters = 0], [doSimilarityFusionWs]
    raises an [IndexError] (no sweep runs, and line 163 reads [Pts[0]]),
    whatever [K] and [reg], and the caller's store stays as it was. *)
Theorem fusion_empty_list (h : heap) (Ws : loc) (K : nat) (reg : R) :
  pylists h !! Ws = Some [] ->
  exists h',
    doSimilarityFusionWs Ws K 0 reg h = Raise IndexError h' /\
    heap_ext h h'.
Proof.
  intros HWs. unfold doSimilarityFusionWs.
  rewrite bind_run, (list_comp_nil _ _ _ HWs).
  rewrite bind_run, (list_comp_nil _ Ws) by (by apply lookup_add_list_old).
  rewrite bind_run, (list_comp_nil _ (length (pylists h))).
  2:{ apply lookup_add_list_old, lookup_add_list_new. }
  rewrite bind_run, (list_comp_nil _ (length (pylists (add_list (add_list h []) [])))).
  2:{ apply lookup_add_list_new. }
  rewrite bind_run, (len_run _ _ []).
  2:{ apply lookup_add_list_old, lookup_add_list_new. }
  cbn [length]. rewrite bind_run.
  rewrite (repeat_on_no_pass (fun Pts => diffuse_one _ Pts _ 0 reg)).
  eexists. split.
  - rewrite bind_run. unfold list_getitem. rewrite bind_run.
    rewrite (list_items_run _ _ []); [done|].
    apply lookup_add_list_old, lookup_add_list_new.
  - by do 4 apply heap_ext_add_list.
Qed.

Lemma fusion_empty_list_witness :
  exists h',
    doSimilarityFusionWs 0%nat 5 0 1 (Heap [] [[]]) = Raise IndexError h' /\
    heap_ext (Heap [] [[]]) h'.
Proof. apply (fusion_empty_list (Heap [] [[]]) 0%nat 5 1). reflexivity. Defined.

(** ** More on array values *)

Lemma matrix_ext n m (A B : matrix) :
  is_matrix n m A -> is_matrix n m B ->
  (forall i j, (i < n)%nat -> (j < m)%nat -> get A i j = get B i j) ->
  A = B.
Proof.
  intros [HlA HFA] [HlB HFB] Hget.
  apply (nth_ext _ _ [] []); [lia|]. intros i Hi.
  assert (HrA : length (nth i A []) = m).
  { rewrite Forall_forall in HFA. apply HFA, list_elem_of_In, nth_In. lia. }
  assert (HrB : length (nth i B []) = m).
  { rewrite Forall_forall in HFB. apply HFB, list_elem_of_In, nth_In. lia. }
  apply (nth_ext _ _ 0 0); [lia|]. intros j Hj. apply Hget; lia.
Qed.

Lemma mkmat_ext n m f g :
  (forall i j, (i < n)%nat -> (j < m)%nat -> f i j = g i j) ->
  mkmat n m f = mkmat n m g.
Proof.
  intros Hfg. apply (matrix_ext n m); try apply is_matrix_mkmat.
  intros i j Hi Hj. rewrite !get_mkmat by done. by apply Hfg.
Qed.

Lemma map_nth_seq (r : list R) :
  map (fun j => nth j r 0) (seq 0 (length r)) = r.
Proof.
  induction r as [|x r IH]; simpl; [done|]. f_equal.
  rewrite <- seq_shift, map_map. exact IH.
Qed.

Lemma map_get_row (A : matrix) i r m :
  A !! i = Some r -> length r = m -> map (get A i) (seq 0 m) = r.
Proof.
  intros Hr <-. rewrite <- (map_nth_seq r) at 2. apply map_ext.
  intros j. by apply get_lookup.
Qed.

Lemma is_matrix_lookup n m (A : matrix) i :
  is_matrix n m A -> (i < n)%nat -> exists r, A !! i = Some r /\ length r = m.
Proof.
  intros [Hl HF] Hi. destruct (lookup_lt_is_Some_2 A i) as [r Hr]; [lia|].
  exists r. split; [done|]. by eapply Forall_lookup_1 in HF.
Qed.

Lemma Rsum_map_mult {X} c (f : X -> R) l :
  Rsum (map (fun x => c * f x) l) = c * Rsum (map f l).
Proof. induction l as [|x l IH]; simpl; [lra|]. rewrite IH. lra. Qed.

Lemma Rsum_map_ext {X} (f g : X -> R) l :
  (forall x, x ∈ l -> f x = g x) -> Rsum (map f l) = Rsum (map g l).
Proof.
  intros Hfg. f_equal. apply map_ext_in. intros x Hx.
  by apply Hfg, list_elem_of_In.
Qed.

Lemma Rsum_exchange {X Y} (f : X -> Y -> R) l1 l2 :
  Rsum (map (fun x => Rsum (map (fun y => f x y) l2)) l1) =
  Rsum (map (fun y => Rsum (map (fun x => f x y) l1)) l2).
Proof.
  induction l1 as [|x l1 IH]; simpl.
  - symmetry. by apply Rsum_map_zero.
  - rewrite IH. by rewrite <- Rsum_map_plus.
Qed.

Lemma Rsum_perm l1 l2 : l1 ≡ₚ l2 -> Rsum l1 = Rsum l2.
Proof. induction 1; simpl; lra. Qed.

Lemma Rsum_map_nonneg {X} (f : X -> R) l :
  (forall x, x ∈ l -> 0 <= f x) -> 0 <= Rsum (map f l).
Proof.
  intros Hf. apply Rsum_nonneg, Forall_map, Forall_forall. exact Hf.
Qed.

Lemma elem_le_Rsum r x :
  Forall (fun y => 0 <= y) r -> x ∈ r -> x <= Rsum r.
Proof.
  induction 1 as [|y r Hy Hr IH]; intros Hx; [by apply elem_of_nil in Hx|].
  pose proof (Rsum_nonneg r Hr). simpl.
  apply elem_of_cons in Hx as [->|Hx]; [lra|]. specialize (IH Hx). lra.
Qed.

Lemma is_matrix_transpose n m (A : matrix) :
  is_matrix n m A -> (0 < n)%nat -> is_matrix m n (transpose A).
Proof.
  intros HA Hn. unfold transpose.
  rewrite (is_matrix_nrows _ _ _ HA), (is_matrix_ncols _ _ _ HA) by done.
  apply is_matrix_mkmat.
Qed.

Lemma get_transpose n m (A : matrix) i j :
  is_matrix n m A -> (i < m)%nat -> (j < n)%nat ->
  get (transpose A) i j = get A j i.
Proof.
  intros HA Hi Hj. unfold transpose.
  rewrite (is_matrix_nrows _ _ _ HA), (is_matrix_ncols _ _ _ HA) by lia.
  by rewrite get_mkmat.
Qed.

Lemma is_matrix_mdot n m p (S X : matrix) :
  is_matrix n m S -> is_matrix m p X -> (0 < m)%nat ->
  is_matrix n p (mdot S X).
Proof.
  intros HS HX Hm. unfold mdot.
  rewrite (is_matrix_nrows _ _ _ HS), (is_matrix_ncols _ _ _ HX) by done.
  apply is_matrix_mkmat.
Qed.

Lemma get_mdot n m p (S X : matrix) i j :
  is_matrix n m S -> is_matrix m p X -> (i < n)%nat -> (j < p)%nat ->
  (0 < m)%nat ->
  get (mdot S X) i j =
  Rsum (map (fun k => get S i k * get X k j) (seq 0 m)).
Proof.
  intros HS HX Hi Hj Hm. unfold mdot.
  rewrite (is_matrix_nrows _ _ _ HS), (is_matrix_ncols _ _ _ HX) by done.
  rewrite get_mkmat by done.
  by rewrite (is_matrix_ncols _ _ _ HS) by lia.
Qed.

Lemma get_np_eye n i j :
  (i < n)%nat -> (j < n)%nat ->
  get (np_eye n) i j = if (i =? j)%nat then 1 else 0.
Proof. intros Hi Hj. unfold np_eye. by rewrite get_mkmat. Qed.

Lemma get_nonneg (A : matrix) i j : nonneg A -> 0 <= get A i j.
Proof.
  intros HA. unfold get. apply nth_nonneg.
  destruct (A !! i) as [r|] eqn:Hr.
  - rewrite (nth_lookup_Some _ _ _ _ Hr). by eapply Forall_lookup_1 in HA.
  - rewrite nth_overflow by (by apply lookup_ge_None). constructor.
Qed.

Lemma nonneg_mkmat n m f :
  (forall i j, (i < n)%nat -> (j < m)%nat -> 0 <= f i j) ->
  nonneg (mkmat n m f).
Proof.
  intros Hf. unfold nonneg, mkmat. apply Forall_map, Forall_forall.
  intros i Hi. simpl. apply Forall_map, Forall_forall. intros j Hj. simpl.
  apply elem_of_seq in Hi, Hj. apply Hf; lia.
Qed.

(** ** [getP] *)

Lemma nth_map_div (r : list R) s j :
  nth j (map (fun x => x / s) r) 0 = nth j r 0 / s.
Proof.
  replace 0 with (0 / s) at 1 by (unfold Rdiv; lra).
  apply (map_nth (fun x => x / s)).
Qed.

Lemma get_div_rows (A : matrix) v i j r s :
  A !! i = Some r -> v !! i = Some s ->
  get (div_rows A v) i j = get A i j / s.
Proof.
  intros Hr Hs.
  rewrite (get_lookup _ _ _ _ (lookup_div_rows _ _ _ _ _ Hr Hs)).
  by rewrite nth_map_div, (get_lookup _ _ _ _ Hr).
Qed.

Lemma P_of_rows W :
  P_of W = map (fun r => map (fun x => x / row_divisor r) r) W.
Proof.
  unfold P_of, div_rows, RowSum_of, zero_to_one, np_sum1, row_divisor,
    divisor_of.
  induction W as [|r W IH]; simpl; [done|]. by rewrite IH.
Qed.

Lemma divisor_of_nonzero s : divisor_of s <> 0.
Proof. unfold divisor_of. destruct (Req_dec_T s 0); lra. Qed.

(** X5: [getP(W, True)] on an N x N matrix leaves [W] as it is and
    returns an N x N array with 1/2 on the diagonal and, off the diagonal,
    half the entry of [W] over the sum of the off-diagonal entries of its
    row (over 1 when that sum is zero); a row sums to 1, or to 1/2 when
    the off-diagonal entries of the row of [W] sum to zero. *)
Theorem getP_regularized (h : heap) (W : loc) (Wv : matrix) (n : nat) :
  arrays h !! W = Some Wv ->
  is_matrix n n Wv ->
  exists P h' Pv,
    getP W true h = Ok P h' /\ arrays h' !! P = Some Pv /\
    arrays h' !! W = Some Wv /\
    is_matrix n n Pv /\
    forall i, (i < n)%nat ->
      get Pv i i = 1/2 /\
      (forall j, (j < n)%nat -> j <> i ->
         get Pv i j = 1/2 * get Wv i j / divisor_of (offdiag_sum Wv n i)) /\
      Rsum (nth i Pv []) =
        if Req_dec_T (offdiag_sum Wv n i) 0 then 1/2 else 1.
Proof.
  intros HW Hm.
  eexists _, _, (P_reg_of Wv). split; [by apply getP_reg_run|].
  split; [apply lookup_add_array_new2|].
  split; [by do 2 apply lookup_add_array_old|].
  assert (Hnr : nrows Wv = n) by (by apply (is_matrix_nrows n n)).
  set (A := mscale (1/2) (np_eye (nrows Wv))).
  set (WND := fill_diagonal Wv 0).
  set (B := div_rows (mscale (1/2) WND) (RowSum_of WND)).
  assert (HA : is_matrix n n A).
  { unfold A, mscale. apply is_matrix_map_rows. rewrite Hnr.
    apply is_matrix_mkmat. }
  assert (HP : is_matrix n n (P_reg_of Wv)) by (by apply is_matrix_madd).
  split; [done|]. intros i Hi.
  assert (Hnc : ncols Wv = n) by (apply (is_matrix_ncols n n); [done|lia]).
  assert (HgA : forall j, (j < n)%nat ->
            get A i j = if (i =? j)%nat then 1/2 else 0).
  { intros j Hj. unfold A. rewrite get_mscale, Hnr, get_np_eye by done.
    destruct (i =? j)%nat; lra. }
  assert (Hw : WND !! i =
            Some (map (fun j => if (i =? j)%nat then 0 else get Wv i j)
                    (seq 0 n))).
  { unfold WND, fill_diagonal. rewrite Hnr, Hnc. by apply lookup_mkmat. }
  assert (Hw2 : mscale (1/2) WND !! i =
            Some (map (Rmult (1/2))
                    (map (fun j => if (i =? j)%nat then 0 else get Wv i j)
                       (seq 0 n)))).
  { unfold mscale. change (map ?f ?l) with (f <$> l) at 1.
    by rewrite list_lookup_fmap, Hw. }
  assert (Hs : RowSum_of WND !! i = Some (divisor_of (offdiag_sum Wv n i))).
  { by rewrite (lookup_RowSum_of _ _ _ Hw). }
  assert (HgB : forall j, (j < n)%nat ->
            get B i j =
            1/2 * (if (i =? j)%nat then 0 else get Wv i j) /
            divisor_of (offdiag_sum Wv n i)).
  { intros j Hj. unfold B. rewrite (get_div_rows _ _ _ _ _ _ Hw2 Hs).
    rewrite get_mscale. unfold WND, fill_diagonal.
    by rewrite Hnr, Hnc, get_mkmat. }
  assert (HgP : forall j, (j < n)%nat ->
            get (P_reg_of Wv) i j = get A i j + get B i j).
  { intros j Hj. by apply (get_madd n n). }
  split; [|split].
  - rewrite HgP, HgA, HgB, Nat.eqb_refl by done. unfold Rdiv. lra.
  - intros j Hj Hne. rewrite HgP, HgA, HgB by done.
    destruct (Nat.eqb_spec i j); [congruence|]. lra.
  - destruct (is_matrix_lookup n n _ i HP Hi) as (p & Hp & Hlen).
    rewrite (nth_lookup_Some _ _ _ _ Hp).
    rewrite <- (map_get_row _ _ _ _ Hp Hlen).
    rewrite (Rsum_map_ext _ (fun j => (if (i =? j)%nat then 1/2 else 0) +
               1/2 * (if (i =? j)%nat then 0 else get Wv i j) /
               divisor_of (offdiag_sum Wv n i))).
    2:{ intros j Hj. apply elem_of_seq in Hj.
        rewrite HgP, HgA, HgB by lia. done. }
    rewrite Rsum_map_plus, Rsum_indicator, decide_True by lia.
    rewrite (Rsum_map_ext _ (fun j => (1/2 / divisor_of (offdiag_sum Wv n i)) *
               (if (i =? j)%nat then 0 else get Wv i j))).
    2:{ intros j _. unfold Rdiv. lra. }
    rewrite Rsum_map_mult. fold (offdiag_sum Wv n i).
    unfold divisor_of. destruct (Req_dec_T (offdiag_sum Wv n i) 0) as [->|Hne].
    + unfold Rdiv. lra.
    + by field.
Qed.

Lemma getP_regularized_witness :
  exists P h' Pv,
    getP 0%nat true (Heap [W1_ex] []) = Ok P h' /\ arrays h' !! P = Some Pv /\
    arrays h' !! 0%nat = Some W1_ex /\
    is_matrix 2 2 Pv /\
    forall i, (i < 2)%nat ->
      get Pv i i = 1/2 /\
      (forall j, (j < 2)%nat -> j <> i ->
         get Pv i j = 1/2 * get W1_ex i j / divisor_of (offdiag_sum W1_ex 2 i)) /\
      Rsum (nth i Pv []) =
        if Req_dec_T (offdiag_sum W1_ex 2 i) 0 then 1/2 else 1.
Proof.
  apply (getP_regularized (Heap [W1_ex] []) 0%nat W1_ex 2).
  - reflexivity.
  - apply is_matrix_W1_ex.
Defined.

(** X6: for a nonnegative [W], every entry of [getP(W, False)] lies in
    [0, 1]. *)
Theorem getP_entries_in_unit_interval (h : heap) (W : loc) (Wv : matrix) :
  arrays h !! W = Some Wv ->
  nonneg Wv ->
  exists P h' Pv,
    getP W false h = Ok P h' /\ arrays h' !! P = Some Pv /\
    Forall (Forall (fun x => 0 <= x <= 1)) Pv.
Proof.
  intros HW Hnn. eexists _, _, (P_of Wv). split; [by apply getP_run|].
  split; [apply lookup_add_array_new|].
  rewrite P_of_rows. apply Forall_map. eapply Forall_impl; [exact Hnn|].
  simpl. intros r Hr. apply Forall_map, Forall_forall. intros x Hx. simpl.
  pose proof (Rsum_nonneg r Hr) as Hs.
  pose proof (elem_le_Rsum r x Hr Hx) as Hle.
  rewrite Forall_forall in Hr. specialize (Hr x Hx). simpl in Hr.
  unfold row_divisor, divisor_of. destruct (Req_dec_T (Rsum r) 0) as [Hz|Hnz].
  - unfold Rdiv. rewrite Rinv_1. lra.
  - assert (Hpos : 0 < Rsum r) by lra. split.
    + apply Rle_mult_inv_pos; lra.
    + apply (Rmult_le_reg_r (Rsum r)); [done|]. field_simplify; lra.
Qed.

Lemma getP_entries_in_unit_interval_witness :
  exists P h' Pv,
    getP 0%nat false (Heap [W1_ex] []) = Ok P h' /\
    arrays h' !! P = Some Pv /\
    Forall (Forall (fun x => 0 <= x <= 1)) Pv.
Proof.
  apply (getP_entries_in_unit_interval (Heap [W1_ex] []) 0%nat W1_ex).
  - reflexivity.
  - repeat constructor; lra.
Defined.

Lemma Rsum_row_divided r :
  Rsum (map (fun x => x / row_divisor r) r) = 0 \/
  Rsum (map (fun x => x / row_divisor r) r) = 1.
Proof.
  rewrite Rsum_map_div. unfold row_divisor, divisor_of.
  destruct (Req_dec_T (Rsum r) 0) as [->|Hnz].
  - left. unfold Rdiv. lra.
  - right. by field.
Qed.

Lemma P_of_idempotent W : P_of (P_of W) = P_of W.
Proof.
  rewrite !P_of_rows, map_map. apply map_ext. intros r.
  rewrite map_map. apply map_ext. intros x.
  assert (Hd : row_divisor (map (fun x => x / row_divisor r) r) = 1).
  { unfold row_divisor at 1. unfold divisor_of.
    destruct (Rsum_row_divided r) as [-> | ->];
      destruct (Req_dec_T _ 0); lra. }
  rewrite Hd. unfold Rdiv at 1. rewrite Rinv_1. lra.
Qed.

(** X7: [getP(W, False)] is idempotent: applied to the array it has
    returned, it returns an array with the same entries. *)
Theorem getP_idempotent (h : heap) (W : loc) (Wv : matrix) :
  arrays h !! W = Some Wv ->
  exists P1 h1 P2 h2 Pv,
    getP W false h = Ok P1 h1 /\ arrays h1 !! P1 = Some Pv /\
    getP P1 false h1 = Ok P2 h2 /\ arrays h2 !! P2 = Some Pv.
Proof.
  intros HW. eexists _, _, _, _, (P_of Wv).
  split; [by apply getP_run|]. split; [apply lookup_add_array_new|].
  split; [apply getP_run, lookup_add_array_new|].
  rewrite P_of_idempotent. apply lookup_add_array_new.
Qed.

Lemma getP_idempotent_witness :
  exists P1 h1 P2 h2 Pv,
    getP 0%nat false (Heap [W1_ex] []) = Ok P1 h1 /\
    arrays h1 !! P1 = Some Pv /\
    getP P1 false h1 = Ok P2 h2 /\ arrays h2 !! P2 = Some Pv.
Proof. apply (getP_idempotent (Heap [W1_ex] []) 0%nat W1_ex). reflexivity. Defined.

Lemma P_of_mscale c W :
  c <> 0 -> nonneg W -> P_of (mscale c W) = P_of W.
Proof.
  intros Hc Hnn. rewrite !P_of_rows. unfold mscale. rewrite map_map.
  apply map_ext_in. intros r Hr. apply list_elem_of_In in Hr.
  unfold nonneg in Hnn. rewrite Forall_forall in Hnn. specialize (Hnn r Hr). simpl in Hnn.
  rewrite map_map.
  assert (Hs : Rsum (map (Rmult c) r) = c * Rsum r).
  { rewrite <- (map_id r) at 2. apply (Rsum_map_mult c (fun x => x)). }
  unfold row_divisor, divisor_of. rewrite Hs.
  destruct (Req_dec_T (Rsum r) 0) as [Hz|Hnz].
  - destruct (Req_dec_T (c * Rsum r) 0) as [_|Hne]; [|rewrite Hz in Hne; lra].
    apply map_ext_in. intros x Hx. apply list_elem_of_In in Hx.
    pose proof (Rsum_nonneg_zero r Hnn Hz) as Hzero.
    rewrite Forall_forall in Hzero. rewrite (Hzero x Hx). lra.
  - destruct (Req_dec_T (c * Rsum r) 0) as [He|_]; [nra|].
    apply map_ext. intros x. by field.
Qed.

(** X8: [getP(W, False)] does not see the scale of a nonnegative [W]: an
    array that holds [c * W], [c] nonzero, gives the same entries. *)
Theorem getP_scale_invariant (h : heap) (W W' : loc) (Wv : matrix) (c : R) :
  arrays h !! W = Some Wv ->
  arrays h !! W' = Some (mscale c Wv) ->
  nonneg Wv ->
  c <> 0 ->
  exists P h1 P' h2 Pv,
    getP W false h = Ok P h1 /\ arrays h1 !! P = Some Pv /\
    getP W' false h = Ok P' h2 /\ arrays h2 !! P' = Some Pv.
Proof.
  intros HW HW' Hnn Hc. eexists _, _, _, _, (P_of Wv).
  split; [by apply getP_run|]. split; [apply lookup_add_array_new|].
  split; [by apply getP_run|].
  rewrite P_of_mscale by done. apply lookup_add_array_new.
Qed.

Lemma getP_scale_invariant_witness :
  exists P h1 P' h2 Pv,
    getP 0%nat false (Heap [W1_ex; mscale 3 W1_ex] []) = Ok P h1 /\
    arrays h1 !! P = Some Pv /\
    getP 1%nat false (Heap [W1_ex; mscale 3 W1_ex] []) = Ok P' h2 /\
    arrays h2 !! P' = Some Pv.
Proof.
  apply (getP_scale_invariant (Heap [W1_ex; mscale 3 W1_ex] []) 0%nat 1%nat
           W1_ex 3).
  - reflexivity.
  - reflexivity.
  - repeat constructor; lra.
  - lra.
Defined.

(** ** [getS] *)

Lemma S_row_in_unit_interval r n K :
  Forall (fun x => 0 <= x) r ->
  Forall (fun x => 0 <= x <= 1) (S_row r n K).
Proof.
  intros Hr. unfold S_row. apply Forall_map, Forall_forall. intros j _. simpl.
  destruct (decide (j ∈ J_row r K)) as [Hj|_]; [|lra].
  assert (HV : Forall (fun x => 0 <= x) (V_row r K)).
  { unfold V_row. apply Forall_map, Forall_forall. intros k _.
    by apply nth_nonneg. }
  assert (Hin : nth j r 0 ∈ V_row r K).
  { unfold V_row. apply list_elem_of_In, in_map_iff. exists j.
    split; [done|]. by apply list_elem_of_In. }
  pose proof (elem_le_Rsum _ _ HV Hin) as Hle.
  pose proof (nth_nonneg r j Hr) as H0.
  unfold s_row. destruct (Req_dec_T (Rsum (V_row r K)) 0) as [Hz|Hnz].
  - unfold Rdiv. rewrite Rinv_1. lra.
  - assert (Hpos : 0 < Rsum (V_row r K)) by lra. split.
    + apply Rle_mult_inv_pos; lra.
    + apply (Rmult_le_reg_r (Rsum (V_row r K))); [done|].
      field_simplify; lra.
Qed.

(** X9: for a nonnegative N x N matrix and [K < N], every entry of
    [getS(W, K)] lies in [0, 1]. *)
Theorem getS_entries_in_unit_interval (h : heap) (W : loc) (Wv : matrix)
    (n K : nat) :
  arrays h !! W = Some Wv ->
  is_matrix n n Wv ->
  nonneg Wv ->
  (K < n)%nat ->
  exists S h' Sv,
    getS W K h = Ok S h' /\ arrays h' !! S = Some Sv /\
    Forall (Forall (fun x => 0 <= x <= 1)) Sv.
Proof.
  intros HW Hm Hnn HK. eexists _, _, (S_of Wv K).
  split; [by eapply getS_run_ok|]. split; [apply lookup_add_array_new|].
  apply Forall_lookup. intros i p Hp.
  pose proof (is_matrix_S_of Wv n K Hm) as [HlS _].
  pose proof (lookup_lt_Some _ _ _ Hp) as Hi. rewrite HlS in Hi.
  destruct (is_matrix_lookup n n Wv i Hm Hi) as (r & Hr & _).
  rewrite (lookup_S_of Wv n K Hm ltac:(lia) i r Hr) in Hp. simplify_eq.
  apply S_row_in_unit_interval. by eapply Forall_lookup_1 in Hnn.
Qed.

Lemma getS_entries_in_unit_interval_witness :
  exists S h' Sv,
    getS 0%nat 1 (Heap [W1_ex] []) = Ok S h' /\ arrays h' !! S = Some Sv /\
    Forall (Forall (fun x => 0 <= x <= 1)) Sv.
Proof.
  apply (getS_entries_in_unit_interval (Heap [W1_ex] []) 0%nat W1_ex 2 1).
  - reflexivity.
  - apply is_matrix_W1_ex.
  - repeat constructor; lra.
  - lia.
Defined.

(** *** Rescaling *)

Lemma insert_index_ext key key' i l :
  (forall a b, key a <= key b <-> key' a <= key' b) ->
  insert_index key i l = insert_index key' i l.
Proof.
  intros Hk. induction l as [|j l IH]; simpl; [done|].
  destruct (Rle_dec (key i) (key j)) as [H1|H1];
    destruct (Rle_dec (key' i) (key' j)) as [H2|H2];
    try done; try (by rewrite IH); exfalso; apply Hk in H1 || apply Hk in H2;
    done.
Qed.

Lemma nth_map_mult c (r : list R) j : nth j (map (Rmult c) r) 0 = c * nth j r 0.
Proof.
  replace 0 with (c * 0) at 1 by lra. apply (map_nth (Rmult c)).
Qed.

Lemma nth_map_opp (r : list R) j : nth j (map Ropp r) 0 = - nth j r 0.
Proof. rewrite <- Ropp_0 at 1. apply map_nth. Qed.

Lemma argsort_row_scale c r :
  0 < c ->
  argsort_row (map Ropp (map (Rmult c) r)) = argsort_row (map Ropp r).
Proof.
  intros Hc. unfold argsort_row. rewrite !length_map.
  induction (seq 0 (length r)) as [|i l IH]; simpl; [done|].
  rewrite IH. apply insert_index_ext. intros a b.
  rewrite !nth_map_opp, !nth_map_mult. split; intros; nra.
Qed.

Lemma S_row_scale c r n K :
  0 < c -> Forall (fun x => 0 <= x) r ->
  S_row (map (Rmult c) r) n K = S_row r n K.
Proof.
  intros Hc Hr.
  assert (HJ : J_row (map (Rmult c) r) K = J_row r K).
  { unfold J_row. by rewrite argsort_row_scale. }
  assert (HV : Rsum (V_row (map (Rmult c) r) K) = c * Rsum (V_row r K)).
  { unfold V_row. rewrite HJ, <- Rsum_map_mult. f_equal. apply map_ext.
    intros j. apply nth_map_mult. }
  assert (HVn : Forall (fun x => 0 <= x) (V_row r K)).
  { unfold V_row. apply Forall_map, Forall_forall. intros k _.
    by apply nth_nonneg. }
  unfold S_row. apply map_ext. intros j. rewrite HJ.
  destruct (decide (j ∈ J_row r K)) as [Hj|_]; [|done].
  rewrite nth_map_mult. unfold s_row. rewrite HV.
  destruct (Req_dec_T (Rsum (V_row r K)) 0) as [Hz|Hnz].
  - destruct (Req_dec_T (c * Rsum (V_row r K)) 0) as [_|Hne];
      [|rewrite Hz in Hne; lra].
    pose proof (Rsum_nonneg_zero _ HVn Hz) as Hzero.
    unfold V_row in Hzero. rewrite Forall_map, Forall_forall in Hzero.
    rewrite (Hzero j Hj). lra.
  - destruct (Req_dec_T (c * Rsum (V_row r K)) 0) as [He|_]; [nra|].
    field. split; lra.
Qed.

Lemma S_of_mscale c W n K :
  0 < c -> is_matrix n n W -> nonneg W -> (K <= n)%nat ->
  S_of (mscale c W) K = S_of W K.
Proof.
  intros Hc Hm Hnn HK.
  assert (Hm' : is_matrix n n (mscale c W)) by (by apply is_matrix_map_rows).
  apply list_eq. intros i.
  destruct (W !! i) as [r|] eqn:Hr.
  - rewrite (lookup_S_of W n K Hm HK i r Hr).
    assert (Hr' : mscale c W !! i = Some (map (Rmult c) r)).
    { unfold mscale. change (map ?f ?l) with (f <$> l) at 1.
      by rewrite list_lookup_fmap, Hr. }
    rewrite (lookup_S_of _ n K Hm' HK i _ Hr'). f_equal.
    apply S_row_scale; [done|]. by eapply Forall_lookup_1 in Hnn.
  - pose proof (is_matrix_S_of W n K Hm) as [Hl1 _].
    pose proof (is_matrix_S_of _ n K Hm') as [Hl2 _].
    apply lookup_ge_None in Hr. destruct Hm as [Hl _].
    rewrite !(proj2 (lookup_ge_None _ _)); [done|lia|lia].
Qed.

(** X10: [doSimilarityFusionWs] does not see the scale of its affinity
    matrices: for nonnegative N x N matrices and [K < N], a list whose
    matrices are those of another list, each rescaled by a positive
    constant of its own, gives the same fused matrix. *)
Theorem fusion_scale_invariant (h : heap) (L L' : loc) (ls ls' : list loc)
    (Wvs Wvs' : list matrix) (n K NIters : nat) (reg : R) :
  pylists h !! L = Some ls -> arrays_at h ls Wvs ->
  pylists h !! L' = Some ls' -> arrays_at h ls' Wvs' ->
  (0 < length Wvs)%nat ->
  Forall (is_matrix n n) Wvs -> Forall nonneg Wvs ->
  (K < n)%nat ->
  Forall2 rescaled Wvs Wvs' ->
  exists F h1 F' h2 Fv,
    doSimilarityFusionWs L K NIters reg h = Ok F h1 /\
    arrays h1 !! F = Some Fv /\
    doSimilarityFusionWs L' K NIters reg h = Ok F' h2 /\
    arrays h2 !! F' = Some Fv.
Proof.
  intros HL Hat HL' Hat' Hlen Hsq Hnn HK Hsc.
  assert (Hsq' : Forall (is_matrix n n) Wvs').
  { clear -Hsq Hsc. induction Hsc as [|W W' Ws Ws' (c & _ & ->) _ IH];
      [constructor|].
    apply Forall_cons in Hsq as [HW Hsq].
    constructor; [by apply is_matrix_map_rows|by apply IH]. }
  assert (HP : map P_of Wvs' = map P_of Wvs).
  { clear -Hnn Hsc. induction Hsc as [|W W' Ws Ws' (c & Hc & ->) _ IH];
      [done|].
    apply Forall_cons in Hnn as [HW Hnn]. simpl.
    rewrite P_of_mscale by (lra || done). by rewrite IH. }
  assert (HS : map (fun W => S_of W K) Wvs' = map (fun W => S_of W K) Wvs).
  { clear -Hnn Hsq Hsc HK.
    induction Hsc as [|W W' Ws Ws' (c & Hc & ->) _ IH]; [done|].
    apply Forall_cons in Hnn as [HW Hnn].
    apply Forall_cons in Hsq as [HmW Hsq]. simpl.
    rewrite (S_of_mscale c W n K) by (done || lia). by rewrite IH. }
  destruct (doSimilarityFusionWs_run h L ls Wvs n K NIters reg HL Hat Hlen
              Hsq HK) as (F & h1 & Hrun & HF & _).
  destruct (doSimilarityFusionWs_run h L' ls' Wvs' n K NIters reg HL' Hat')
    as (F' & h2 & Hrun' & HF' & _); [|done|done|].
  { by rewrite <- (Forall2_length _ _ _ Hsc). }
  exists F, h1, F', h2, (fusion_of Wvs K NIters reg).
  repeat (split; [done|]).
  rewrite HF'. unfold fusion_of. by rewrite HP, HS.
Qed.

Lemma fusion_scale_invariant_witness :
  exists F h1 F' h2 Fv,
    doSimilarityFusionWs 0%nat 1 20 1 heap_ex_scaled = Ok F h1 /\
    arrays h1 !! F = Some Fv /\
    doSimilarityFusionWs 1%nat 1 20 1 heap_ex_scaled = Ok F' h2 /\
    arrays h2 !! F' = Some Fv.
Proof.
  apply (fusion_scale_invariant heap_ex_scaled 0%nat 1%nat [0%nat; 1%nat]
           [2%nat; 3%nat] [W1_ex; W2_ex] [mscale 2 W1_ex; mscale 3 W2_ex]
           2 1 20 1).
  - reflexivity.
  - repeat constructor.
  - reflexivity.
  - repeat constructor.
  - simpl. lia.
  - constructor; [apply is_matrix_W1_ex|].
    constructor; [apply is_matrix_W2_ex|constructor].
  - repeat constructor; lra.
  - lia.
  - constructor; [exists 2; split; [lra|done]|].
    constructor; [exists 3; split; [lra|done]|constructor].
Defined.

(** ** [getW] and the distances it reads *)

Lemma W_of_DSym D D' K Mu : DSym_of D = DSym_of D' -> W_of D K Mu = W_of D' K Mu.
Proof.
  intros HD. unfold W_of, Eps_of, MeanDist_of. by rewrite HD.
Qed.

Lemma DSym_of_offdiag n D D' :
  is_matrix n n D -> is_matrix n n D' ->
  (forall i j, (i < n)%nat -> (j < n)%nat -> i <> j ->
     get D i j + get D j i = get D' i j + get D' j i) ->
  DSym_of D = DSym_of D'.
Proof.
  intros HD HD' Hoff. apply (matrix_ext n n); try by apply is_matrix_DSym_of.
  intros i j Hi Hj. rewrite !(get_DSym_of n) by done.
  destruct (Nat.eqb_spec i j) as [|Hne]; [done|].
  by rewrite (Hoff i j Hi Hj Hne).
Qed.

(** X11: [getW] reads its argument only through the sums
    [D[i,j] + D[j,i]] off the diagonal: two N x N distance matrices that
    agree on them (a matrix and its transpose, or two matrices that differ
    on the diagonal) give the same affinity matrix. *)
Theorem getW_reads_symmetrized (h : heap) (D D' : loc) (Dv Dv' : matrix)
    (n K : nat) (Mu : R) :
  arrays h !! D = Some Dv -> arrays h !! D' = Some Dv' ->
  is_matrix n n Dv -> is_matrix n n Dv' ->
  (K + 1 < n)%nat ->
  (forall i j, (i < n)%nat -> (j < n)%nat -> i <> j ->
     get Dv i j + get Dv j i = get Dv' i j + get Dv' j i) ->
  exists W h1 W' h2 Wv,
    getW D K Mu h = Ok W h1 /\ arrays h1 !! W = Some Wv /\
    getW D' K Mu h = Ok W' h2 /\ arrays h2 !! W' = Some Wv.
Proof.
  intros HD HD' Hm Hm' HK Hoff. eexists _, _, _, _, (W_of Dv K Mu).
  split; [by eapply getW_run_ok|]. split; [apply lookup_add_array_new2|].
  split; [by eapply getW_run_ok|].
  rewrite (W_of_DSym Dv Dv' K Mu) by (by apply (DSym_of_offdiag n)).
  apply lookup_add_array_new2.
Qed.

Lemma is_matrix_D_ex_asym : is_matrix 3 3 D_ex_asym.
Proof. split; [done|]. by repeat constructor. Qed.

Lemma getW_reads_symmetrized_witness :
  exists W h1 W' h2 Wv,
    getW 0%nat 1 (1/2) (Heap [D_ex; D_ex_asym] []) = Ok W h1 /\
    arrays h1 !! W = Some Wv /\
    getW 1%nat 1 (1/2) (Heap [D_ex; D_ex_asym] []) = Ok W' h2 /\
    arrays h2 !! W' = Some Wv.
Proof.
  apply (getW_reads_symmetrized (Heap [D_ex; D_ex_asym] []) 0%nat 1%nat
           D_ex D_ex_asym 3 1 (1/2)).
  - reflexivity.
  - reflexivity.
  - apply is_matrix_D_ex.
  - apply is_matrix_D_ex_asym.
  - lia.
  - intros i j Hi Hj Hne.
    destruct i as [|[|[|i]]]; [| | |lia];
      (destruct j as [|[|[|j]]]; [| | |lia]);
      try congruence; unfold get, D_ex, D_ex_asym; simpl; lra.
Defined.

(** *** Rescaled distances *)

Lemma insert_sorted_scale c x l :
  0 < c ->
  insert_sorted (c * x) (map (Rmult c) l) = map (Rmult c) (insert_sorted x l).
Proof.
  intros Hc. induction l as [|y l IH]; simpl; [done|].
  destruct (Rle_dec (c * x) (c * y)) as [H1|H1];
    destruct (Rle_dec x y) as [H2|H2]; simpl; try done;
    try (by rewrite IH); exfalso; nra.
Qed.

Lemma sort_row_scale c r :
  0 < c -> sort_row (map (Rmult c) r) = map (Rmult c) (sort_row r).
Proof.
  intros Hc. unfold sort_row. induction r as [|x r IH]; simpl; [done|].
  by rewrite IH, insert_sorted_scale.
Qed.

Lemma DSym_of_mscale n c D :
  is_matrix n n D -> DSym_of (mscale c D) = mscale c (DSym_of D).
Proof.
  intros HD.
  assert (HD' : is_matrix n n (mscale c D)) by (by apply is_matrix_map_rows).
  apply (matrix_ext n n).
  - by apply is_matrix_DSym_of.
  - by apply is_matrix_map_rows, is_matrix_DSym_of.
  - intros i j Hi Hj. rewrite get_mscale, !(get_DSym_of n), !get_mscale by done.
    destruct (i =? j)%nat; lra.
Qed.

Lemma MeanDist_of_mscale n c D K :
  0 < c -> is_matrix n n D ->
  MeanDist_of (mscale c D) K = map (Rmult c) (MeanDist_of D K).
Proof.
  intros Hc HD. unfold MeanDist_of. rewrite (DSym_of_mscale n) by done.
  unfold mscale, np_mean1. rewrite !map_map. apply map_ext. intros r.
  rewrite sort_row_scale by done.
  change (take (K + 1) (map (Rmult c) (sort_row r)))
    with (take (K + 1) (Rmult c <$> sort_row r)).
  rewrite <- fmap_take. change (?f <$> ?l) with (map f l).
  rewrite length_map.
  rewrite <- (map_id (take (K + 1) (sort_row r))) at 3.
  rewrite (Rsum_map_mult c (fun x => x)), map_id.
  unfold Rdiv. lra.
Qed.

Lemma kernel_scale Mu c d e :
  c <> 0 -> Mu * e <> 0 -> kernel Mu (c * d) (c * e) = kernel Mu d e.
Proof. intros Hc He. unfold kernel. f_equal. field. split; nra. Qed.

Lemma W_of_mscale n c D K Mu :
  0 < c -> is_matrix n n D -> Mu <> 0 ->
  (forall i j, (i < n)%nat -> (j < n)%nat -> get (Eps_of D K) i j <> 0) ->
  W_of (mscale c D) K Mu = W_of D K Mu.
Proof.
  intros Hc HD HMu HEps.
  assert (HD' : is_matrix n n (mscale c D)) by (by apply is_matrix_map_rows).
  apply (matrix_ext n n); try by apply is_matrix_W_of.
  intros i j Hi Hj. rewrite !(get_W_of n) by done.
  assert (HE : get (Eps_of (mscale c D) K) i j = c * get (Eps_of D K) i j).
  { rewrite !(get_Eps_of n) by done.
    rewrite (MeanDist_of_mscale n), !nth_map_mult by done.
    rewrite (DSym_of_mscale n), get_mscale by done. lra. }
  rewrite HE, (DSym_of_mscale n), get_mscale by done.
  apply kernel_scale; [lra|]. specialize (HEps i j Hi Hj). nra.
Qed.

(** X12: the kernel of [getW] is scaled locally, so the unit of the
    distances does not matter: for an N x N matrix with nonzero
    bandwidths, [1 <= K < N-1] and a nonzero [Mu], an array that holds
    [c * D], [c] positive, gives the same affinity matrix as [D]. *)
Theorem getW_scale_invariant (h : heap) (D D' : loc) (Dv : matrix)
    (n K : nat) (Mu c : R) :
  arrays h !! D = Some Dv ->
  arrays h !! D' = Some (mscale c Dv) ->
  is_matrix n n Dv ->
  (1 <= K)%nat -> (K + 1 < n)%nat ->
  Mu <> 0 ->
  0 < c ->
  (forall i j, (i < n)%nat -> (j < n)%nat -> get (Eps_of Dv K) i j <> 0) ->
  exists W h1 W' h2 Wv,
    getW D K Mu h = Ok W h1 /\ arrays h1 !! W = Some Wv /\
    getW D' K Mu h = Ok W' h2 /\ arrays h2 !! W' = Some Wv.
Proof.
  intros HD HD' Hm _ HK HMu Hc HEps. eexists _, _, _, _, (W_of Dv K Mu).
  split; [by eapply getW_run_ok|]. split; [apply lookup_add_array_new2|].
  split; [eapply getW_run_ok; [done|by apply is_matrix_map_rows|done]|].
  rewrite (W_of_mscale n) by done. apply lookup_add_array_new2.
Qed.

Lemma getW_scale_invariant_witness :
  exists W h1 W' h2 Wv,
    getW 0%nat 1 (1/2) (Heap [D_ex; mscale 10 D_ex] []) = Ok W h1 /\
    arrays h1 !! W = Some Wv /\
    getW 1%nat 1 (1/2) (Heap [D_ex; mscale 10 D_ex] []) = Ok W' h2 /\
    arrays h2 !! W' = Some Wv.
Proof.
  apply (getW_scale_invariant (Heap [D_ex; mscale 10 D_ex] []) 0%nat 1%nat
           D_ex 3 1 (1/2) 10).
  - reflexivity.
  - reflexivity.
  - apply is_matrix_D_ex.
  - lia.
  - lia.
  - lra.
  - lra.
  - apply Eps_of_D_ex_nonzero.
Defined.

(** ** The first sweep of the diffusion

    In the first sweep [Pts] and [nextPts] still name two lists, so every
    pass reads the states of the sweep's start. *)

Lemma fold_insert_lookup {X} (g : nat -> X -> X) (d : X) k :
  forall s (l : list X) i,
    (s + k <= length l)%nat ->
    fold_left (fun nx j => <[j := g j (nth j nx d)]> nx) (seq s k) l !! i =
    if decide (s <= i < s + k)%nat then Some (g i (nth i l d)) else l !! i.
Proof.
  induction k as [|k IH]; intros s l i Hk; simpl.
  - destruct (decide _); [lia|done].
  - rewrite IH by (rewrite length_insert; lia).
    destruct (decide (i = s)) as [->|Hne].
    + destruct (decide (S s <= s < S s + k)%nat); [lia|].
      destruct (decide (s <= s < s + S k)%nat); [|lia].
      apply list_lookup_insert_eq. lia.
    + rewrite list_lookup_insert_ne by done.
      rewrite (nth_lookup (<[_:=_]> _)), list_lookup_insert_ne, <- nth_lookup
        by done.
      destruct (decide (S s <= i < S s + k)%nat),
               (decide (s <= i < s + S k)%nat); try lia; done.
Qed.

Lemma sweep_of_first Ss cur nxt reg :
  length nxt = length cur ->
  sweep_of false Ss cur nxt reg =
  map (fun i => diffuse_of (nth i Ss [])
                  (cross_of (nth i nxt []) cur i (length cur)) reg)
    (seq 0 (length cur)).
Proof.
  intros Hl. unfold sweep_of, pass_of. apply list_eq. intros i.
  etrans.
  { apply (fold_insert_lookup
             (fun j x => diffuse_of (nth j Ss [])
                           (cross_of x cur j (length cur)) reg) []). lia. }
  change (map ?f ?l) with (f <$> l). rewrite list_lookup_fmap.
  destruct (decide (0 <= i < 0 + length cur)%nat).
  - rewrite lookup_seq_lt by lia. done.
  - rewrite lookup_seq_ge by lia. simpl. apply lookup_ge_None. lia.
Qed.

Lemma fold_skip_entries n m (cur : list matrix) i a b ks :
  forall A, is_matrix n m A -> (a < n)%nat -> (b < m)%nat ->
    is_matrix n m
      (fold_left
         (fun acc k => if (i =? k)%nat then acc else madd acc (nth k cur []))
         ks A) /\
    get (fold_left
           (fun acc k => if (i =? k)%nat then acc else madd acc (nth k cur []))
           ks A) a b =
    get A a b +
    Rsum (map (fun k => if (i =? k)%nat then 0 else get (nth k cur []) a b) ks).
Proof.
  induction ks as [|k ks IH]; intros A HA Ha Hb; simpl.
  - split; [done|lra].
  - destruct (i =? k)%nat.
    + destruct (IH A HA Ha Hb) as [H1 H2]. split; [done|]. rewrite H2. lra.
    + destruct (IH (madd A (nth k cur [])) (is_matrix_madd _ _ _ _ HA) Ha Hb)
        as [H1 H2].
      split; [done|]. rewrite H2, (get_madd n m) by done. lra.
Qed.

Lemma map_nth_seq_gen {X Y} (f : X -> Y) (d : X) (l : list X) :
  map (fun k => f (nth k l d)) (seq 0 (length l)) = map f l.
Proof.
  induction l as [|x l IH]; simpl; [done|].
  f_equal. rewrite <- seq_shift, map_map. exact IH.
Qed.

Lemma Rsum_skip_others {X} (f : X -> R) (d : X) (l : list X) :
  forall i, (i < length l)%nat ->
    Rsum (map (fun k => if (i =? k)%nat then 0 else f (nth k l d))
            (seq 0 (length l))) =
    Rsum (map f (others i l)).
Proof.
  induction l as [|x l IH]; intros i Hi; simpl in *; [lia|].
  rewrite <- seq_shift, map_map. destruct i as [|i]; simpl.
  - unfold others. simpl. rewrite drop_0, (map_nth_seq_gen f d l). lra.
  - rewrite (IH i) by lia. unfold others. simpl. done.
Qed.

Lemma Rsum_map_others {X} (f : X -> R) (d : X) (l : list X) :
  forall i, (i < length l)%nat ->
    Rsum (map f (others i l)) = Rsum (map f l) - f (nth i l d).
Proof.
  induction l as [|x l IH]; intros i Hi; simpl in *; [lia|].
  destruct i as [|i]; unfold others; simpl.
  - rewrite drop_0. lra.
  - change (take i l ++ drop (S i) l) with (others i l).
    rewrite (IH i) by lia. lra.
Qed.

Lemma length_others {X} (l : list X) i :
  (i < length l)%nat -> length (others i l) = (length l - 1)%nat.
Proof.
  intros Hi. unfold others. rewrite length_app, length_take, length_drop. lia.
Qed.

Lemma get_msum n m Xs i j :
  (i < n)%nat -> (j < m)%nat ->
  get (msum n m Xs) i j = Rsum (map (fun X => get X i j) Xs).
Proof. intros Hi Hj. unfold msum. by rewrite get_mkmat. Qed.

Lemma is_matrix_msum n m Xs : is_matrix n m (msum n m Xs).
Proof. apply is_matrix_mkmat. Qed.

(** The consensus of pass [i] in the first sweep: the sum of the other
    states over [N - 1]. *)
Lemma cross_of_others n old cur i :
  is_matrix n n old -> (i < length cur)%nat ->
  cross_of old cur i (length cur) =
  mdivc (msum n n (others i cur)) (INR (length cur - 1)).
Proof.
  intros Hold Hi. unfold cross_of.
  assert (H0 : is_matrix n n (mscale 0 old)) by by apply is_matrix_map_rows.
  apply (matrix_ext n n).
  - apply is_matrix_map_rows.
    destruct n as [|n].
    + clear -H0. revert H0. generalize (mscale 0 old). intros A HA.
      induction (seq 0 (length cur)) as [|k ks IH] in A, HA |- *; simpl;
        [done|].
      destruct (i =? k)%nat; apply IH; [done|]. by apply is_matrix_madd.
    + by apply (fold_skip_entries (S n) (S n) cur i 0 0 _ _ H0); lia.
  - apply is_matrix_map_rows, is_matrix_msum.
  - intros a b Ha Hb. rewrite !get_mdivc, get_msum by done. f_equal.
    destruct (fold_skip_entries n n cur i a b (seq 0 (length cur)) _ H0 Ha Hb)
      as [_ ->].
    rewrite get_mscale.
    rewrite (Rsum_skip_others (fun X => get X a b) [] cur i Hi). lra.
Qed.

(** The two products of a pass are [S X S^T]. *)
Lemma mdot_transpose_twice n (S X : matrix) :
  is_matrix n n S -> is_matrix n n X -> (0 < n)%nat ->
  mdot S (transpose (mdot S (transpose X))) = mdot (mdot S X) (transpose S).
Proof.
  intros HS HX Hn.
  pose proof (is_matrix_transpose n n X HX Hn) as HXt.
  pose proof (is_matrix_transpose n n S HS Hn) as HSt.
  pose proof (is_matrix_mdot n n n S _ HS HXt Hn) as HA.
  pose proof (is_matrix_transpose n n _ HA Hn) as HAt.
  pose proof (is_matrix_mdot n n n S X HS HX Hn) as HSX.
  apply (matrix_ext n n).
  - by apply (is_matrix_mdot n n n).
  - by apply (is_matrix_mdot n n n).
  - intros a b Ha Hb.
    rewrite (get_mdot n n n S _ a b HS HAt Ha Hb Hn).
    rewrite (get_mdot n n n _ _ a b HSX HSt Ha Hb Hn).
    trans (Rsum (map (fun k => Rsum (map (fun l =>
             get S a k * get X k l * get S b l) (seq 0 n))) (seq 0 n))).
    { apply Rsum_map_ext. intros k Hk. apply elem_of_seq in Hk.
      rewrite (get_transpose n n _ k b HA) by lia.
      rewrite (get_mdot n n n S _ b k HS HXt) by lia.
      rewrite <- Rsum_map_mult. apply Rsum_map_ext. intros l Hl.
      apply elem_of_seq in Hl.
      rewrite (get_transpose n n X l k HX) by lia. lra. }
    rewrite Rsum_exchange. apply Rsum_map_ext. intros l Hl.
    apply elem_of_seq in Hl.
    rewrite (get_transpose n n S l b HS) by lia.
    rewrite (get_mdot n n n S X a l HS HX) by lia.
    rewrite Rmult_comm, <- Rsum_map_mult. apply Rsum_map_ext. intros k Hk.
    lra.
Qed.

Lemma diffuse_of_products n (S X : matrix) reg :
  is_matrix n n S -> is_matrix n n X -> (0 < n)%nat ->
  diffuse_of S X reg =
  madd (mdot (mdot S X) (transpose S)) (mscale (Rmax 0 reg) (np_eye n)).
Proof.
  intros HS HX Hn. unfold diffuse_of.
  rewrite (mdot_transpose_twice n S X HS HX Hn).
  pose proof (is_matrix_transpose n n S HS Hn) as HSt.
  pose proof (is_matrix_mdot n n n S X HS HX Hn) as HSX.
  pose proof (is_matrix_mdot n n n _ _ HSX HSt Hn) as HY.
  rewrite (is_matrix_nrows n n _ HY).
  destruct (Rlt_dec 0 reg) as [Hr|Hr].
  - rewrite Rmax_right by lra. done.
  - rewrite Rmax_left by lra. apply (matrix_ext n n); [done| |].
    + by apply is_matrix_madd.
    + intros a b Ha Hb. rewrite (get_madd n n), get_mscale by done. lra.
Qed.

Lemma is_matrix_sync_next n S Ps i reg :
  is_matrix n n S -> (0 < n)%nat -> is_matrix n n (sync_next n S Ps i reg).
Proof.
  intros HS Hn. unfold sync_next. apply is_matrix_madd.
  apply (is_matrix_mdot n n n); [|by apply is_matrix_transpose|done].
  apply (is_matrix_mdot n n n); [done| |done].
  apply is_matrix_map_rows, is_matrix_msum.
Qed.

Lemma Forall_nth_matrix n m (Xs : list matrix) i :
  Forall (is_matrix n m) Xs -> (i < length Xs)%nat ->
  is_matrix n m (nth i Xs []).
Proof.
  intros HF Hi. destruct (lookup_lt_is_Some_2 Xs i Hi) as [X HX].
  rewrite (nth_lookup_Some _ _ _ _ HX). by eapply Forall_lookup_1 in HF.
Qed.

Lemma sweep_of_first_sync n Ss Ps Zs reg :
  Forall (is_matrix n n) Ss -> Forall (is_matrix n n) Ps ->
  Forall (is_matrix n n) Zs ->
  length Ss = length Ps -> length Zs = length Ps -> (0 < n)%nat ->
  sweep_of false Ss Ps Zs reg = sync_sweep n Ss Ps (Rmax 0 reg).
Proof.
  intros HSs HPs HZs HlS HlZ Hn. rewrite sweep_of_first by done.
  unfold sync_sweep. apply map_ext_in. intros i Hi.
  apply in_seq in Hi.
  rewrite (cross_of_others n) by (try apply Forall_nth_matrix; done || lia).
  rewrite (diffuse_of_products n); [done| | |done].
  - apply Forall_nth_matrix; [done|lia].
  - apply is_matrix_map_rows, is_matrix_msum.
Qed.

Lemma fused_of_msum n Xs :
  Forall (is_matrix n n) Xs -> (0 < length Xs)%nat ->
  fused_of Xs = mdivc (msum n n Xs) (INR (length Xs)).
Proof.
  intros HXs Hl. destruct (fused_of_entries n Xs HXs Hl) as [Hm He].
  apply (matrix_ext n n); [done| |].
  - apply is_matrix_map_rows, is_matrix_msum.
  - intros a b Ha Hb. by rewrite He, get_mdivc, get_msum.
Qed.

Lemma Forall_S_of n Wvs K :
  Forall (is_matrix n n) Wvs ->
  Forall (is_matrix n n) (map (fun W => S_of W K) Wvs).
Proof.
  intros H. apply Forall_map. eapply Forall_impl; [exact H|].
  intros W HW. by apply is_matrix_S_of.
Qed.

Lemma Forall_P_of n Wvs :
  Forall (is_matrix n n) Wvs -> Forall (is_matrix n n) (map P_of Wvs).
Proof.
  intros H. apply Forall_map. eapply Forall_impl; [exact H|].
  intros W HW. by apply is_matrix_P_of.
Qed.

Lemma Forall_zeros_like n Xs :
  Forall (is_matrix n n) Xs -> (0 < n)%nat ->
  Forall (is_matrix n n) (map zeros_like Xs).
Proof.
  intros H Hn. apply Forall_map. eapply Forall_impl; [exact H|].
  intros X HX. unfold zeros_like, np_zeros.
  rewrite (is_matrix_nrows n n X HX), (is_matrix_ncols n n X HX Hn).
  apply is_matrix_mkmat.
Qed.

(** With at most one sweep the value of the code is the value of the
    synchronous iteration (a negative [reg] counts as none). *)
Lemma fusion_of_first_sync n Wvs K NIters reg :
  Forall (is_matrix n n) Wvs -> (0 < length Wvs)%nat -> (0 < n)%nat ->
  (NIters <= 1)%nat ->
  fusion_of Wvs K NIters reg = sync_fusion n Wvs K NIters (Rmax 0 reg).
Proof.
  intros HW Hl Hn HN. unfold fusion_of, sync_fusion.
  pose proof (Forall_S_of n Wvs K HW) as HSs.
  pose proof (Forall_P_of n Wvs HW) as HPs.
  destruct NIters as [|[|?]]; [| |lia]; simpl.
  - rewrite (fused_of_msum n) by (rewrite ?length_map; done).
    by rewrite length_map.
  - rewrite (sweep_of_first_sync n)
      by (rewrite ?length_map; try apply Forall_zeros_like; done).
    rewrite (fused_of_msum n).
    + unfold sync_sweep. by rewrite !length_map, length_seq.
    + unfold sync_sweep. apply Forall_map, Forall_forall. intros i Hi.
      apply elem_of_seq in Hi. rewrite length_map in Hi.
      apply is_matrix_sync_next; [|done].
      apply Forall_nth_matrix; [done|]. rewrite length_map. lia.
    + unfold sync_sweep. rewrite !length_map, length_seq. done.
Qed.

(** X13: the two products of a pass, [A = S.dot(X.T)] and [S.dot(A.T)], give
    [S X S^T] for square [S] and [X] of one size; the pass stores
    [S X S^T + reg I] when [reg] is positive and [S X S^T] otherwise. *)
Theorem diffusion_products (n : nat) (S X : matrix) (reg : R) :
  is_matrix n n S -> is_matrix n n X -> (0 < n)%nat ->
  diffuse_of S X reg =
  if Rlt_dec 0 reg
  then madd (mdot (mdot S X) (transpose S)) (mscale reg (np_eye n))
  else mdot (mdot S X) (transpose S).
Proof.
  intros HS HX Hn. unfold diffuse_of.
  rewrite (mdot_transpose_twice n S X HS HX Hn).
  destruct (Rlt_dec 0 reg); [|done].
  pose proof (is_matrix_transpose n n S HS Hn) as HSt.
  pose proof (is_matrix_mdot n n n S X HS HX Hn) as HSX.
  by rewrite (is_matrix_nrows n n _ (is_matrix_mdot n n n _ _ HSX HSt Hn)).
Qed.

Lemma diffusion_products_witness :
  diffuse_of W1_ex W2_ex 1 =
  if Rlt_dec 0 1
  then madd (mdot (mdot W1_ex W2_ex) (transpose W1_ex)) (mscale 1 (np_eye 2))
  else mdot (mdot W1_ex W2_ex) (transpose W1_ex).
Proof.
  apply (diffusion_products 2 W1_ex W2_ex 1).
  - apply is_matrix_W1_ex.
  - apply is_matrix_W2_ex.
  - lia.
Defined.

(** X14: with at most one sweep ([NIters <= 1]), at least two N x N
    matrices, [K < N] and [reg >= 0], [doSimilarityFusionWs] returns the
    result of the synchronous iteration: every new state is
    [S_i C_i S_i^T + reg I] with [C_i] the sum of the other start states
    over [m - 1], and the result is the average of the new states. *)
Theorem first_sweep_synchronous (h : heap) (Ws : loc) (lsW : list loc)
    (Wvs : list matrix) (n K NIters : nat) (reg : R) :
  pylists h !! Ws = Some lsW -> arrays_at h lsW Wvs ->
  (2 <= length Wvs)%nat ->
  Forall (is_matrix n n) Wvs -> (K < n)%nat ->
  0 <= reg -> (NIters <= 1)%nat ->
  exists F h',
    doSimilarityFusionWs Ws K NIters reg h = Ok F h' /\
    arrays h' !! F = Some (sync_fusion n Wvs K NIters reg).
Proof.
  intros HWs Hat Hl HW HK Hreg HN.
  destruct (doSimilarityFusionWs_run h Ws lsW Wvs n K NIters reg)
    as (F & h' & Hrun & HF & _); [done|done|lia|done|done|].
  exists F, h'. split; [done|].
  rewrite HF, (fusion_of_first_sync n) by (done || lia).
  by rewrite Rmax_right.
Qed.

Lemma first_sweep_synchronous_witness :
  exists F h',
    doSimilarityFusionWs 0%nat 1 1 1 heap_ex12 = Ok F h' /\
    arrays h' !! F = Some (sync_fusion 2 [W1_ex; W2_ex] 1 1 1).
Proof.
  apply (first_sweep_synchronous heap_ex12 0%nat [0%nat; 1%nat]
           [W1_ex; W2_ex] 2 1 1 1).
  - reflexivity.
  - repeat constructor.
  - simpl. lia.
  - constructor; [apply is_matrix_W1_ex|constructor; [apply is_matrix_W2_ex|]].
    constructor.
  - lia.
  - lra.
  - lia.
Defined.

(** ** The order of the matrices, up to the first sweep *)

Lemma msum_perm n m (Xs Ys : list matrix) :
  Xs ≡ₚ Ys -> msum n m Xs = msum n m Ys.
Proof.
  intros HP. unfold msum. apply mkmat_ext. intros i j _ _.
  apply Rsum_perm. change (map ?f ?l) with (f <$> l). by rewrite HP.
Qed.

Lemma nth_map_lt {X Y} (f : X -> Y) (l : list X) (d : X) (e : Y) i :
  (i < length l)%nat -> nth i (map f l) e = f (nth i l d).
Proof.
  intros Hi. destruct (lookup_lt_is_Some_2 l i Hi) as [x Hx].
  rewrite (nth_lookup_Some _ _ _ _ Hx).
  apply nth_lookup_Some. change (map f l) with (f <$> l).
  by rewrite list_lookup_fmap, Hx.
Qed.

(** The new state of matrix [W] in the synchronous sweep, from the sum [T]
    of all start states and their number [m]. *)
Lemma sync_sweep_total n Wvs K reg :
  Forall (is_matrix n n) Wvs ->
  sync_sweep n (map (fun W => S_of W K) Wvs) (map P_of Wvs) reg =
  map (fun W =>
         madd
           (mdot
              (mdot (S_of W K)
                 (mdivc
                    (mkmat n n (fun a b =>
                       get (msum n n (map P_of Wvs)) a b - get (P_of W) a b))
                    (INR (length Wvs - 1))))
              (transpose (S_of W K)))
           (mscale reg (np_eye n)))
    Wvs.
Proof.
  intros HW. unfold sync_sweep. rewrite length_map.
  symmetry. etrans; [symmetry; apply (map_nth_seq_gen _ [] Wvs)|].
  apply map_ext_in. intros i Hi. symmetry.
  apply in_seq in Hi. unfold sync_next.
  rewrite length_map, (nth_map_lt _ Wvs [] []) by lia.
  do 4 f_equal. unfold msum at 1. apply mkmat_ext. intros a b Ha Hb.
  rewrite (Rsum_map_others (fun X => get X a b) [] (map P_of Wvs) i)
    by (rewrite length_map; lia).
  rewrite get_msum by done.
  by rewrite (nth_map_lt _ Wvs [] []) by lia.
Qed.

Lemma sync_fusion_perm n Wvs Wvs' K NIters reg :
  Forall (is_matrix n n) Wvs -> Wvs ≡ₚ Wvs' -> (NIters <= 1)%nat ->
  sync_fusion n Wvs K NIters reg = sync_fusion n Wvs' K NIters reg.
Proof.
  intros HW HP HN.
  assert (HW' : Forall (is_matrix n n) Wvs') by by rewrite <- HP.
  assert (HPs : map P_of Wvs ≡ₚ map P_of Wvs').
  { change (map ?f ?l) with (f <$> l). by rewrite HP. }
  assert (Hlen : length Wvs = length Wvs') by by rewrite HP.
  unfold sync_fusion. rewrite Hlen. f_equal.
  destruct NIters as [|[|?]]; [| |lia]; simpl.
  - by apply msum_perm.
  - rewrite !sync_sweep_total by done.
    rewrite <- Hlen, <- (msum_perm n n _ _ HPs).
    apply msum_perm. change (map ?f ?l) with (f <$> l). by rewrite HP.
Qed.

(** X15: up to the first sweep ([NIters <= 1]) the result of
    [doSimilarityFusionWs] does not depend on the order of the matrices in
    the list: two lists that hold the same N x N matrices in two orders
    give the same fused matrix. *)
Theorem first_sweep_order_independent (h : heap) (Ws Ws' : loc)
    (lsW lsW' : list loc) (Wvs Wvs' : list matrix) (n K NIters : nat)
    (reg : R) :
  pylists h !! Ws = Some lsW -> arrays_at h lsW Wvs ->
  pylists h !! Ws' = Some lsW' -> arrays_at h lsW' Wvs' ->
  Wvs ≡ₚ Wvs' ->
  (2 <= length Wvs)%nat ->
  Forall (is_matrix n n) Wvs -> (K < n)%nat ->
  (NIters <= 1)%nat ->
  exists F h1 F' h2 Fv,
    doSimilarityFusionWs Ws K NIters reg h = Ok F h1 /\
    doSimilarityFusionWs Ws' K NIters reg h = Ok F' h2 /\
    arrays h1 !! F = Some Fv /\ arrays h2 !! F' = Some Fv.
Proof.
  intros HWs Hat HWs' Hat' HP Hl HW HK HN.
  assert (HW' : Forall (is_matrix n n) Wvs') by by rewrite <- HP.
  assert (Hl' : (2 <= length Wvs')%nat) by by rewrite <- HP.
  destruct (doSimilarityFusionWs_run h Ws lsW Wvs n K NIters reg)
    as (F & h1 & Hrun & HF & _); [done|done|lia|done|done|].
  destruct (doSimilarityFusionWs_run h Ws' lsW' Wvs' n K NIters reg)
    as (F' & h2 & Hrun' & HF' & _); [done|done|lia|done|done|].
  exists F, h1, F', h2, (fusion_of Wvs K NIters reg).
  repeat split; [done|done|done|].
  rewrite HF'. f_equal.
  rewrite !(fusion_of_first_sync n) by (done || lia).
  symmetry. by apply sync_fusion_perm.
Qed.

Lemma first_sweep_order_independent_witness :
  exists F h1 F' h2 Fv,
    doSimilarityFusionWs 0%nat 1 1 1 heap_ex_orders = Ok F h1 /\
    doSimilarityFusionWs 1%nat 1 1 1 heap_ex_orders = Ok F' h2 /\
    arrays h1 !! F = Some Fv /\ arrays h2 !! F' = Some Fv.
Proof.
  apply (first_sweep_order_independent heap_ex_orders 0%nat 1%nat
           [0%nat; 1%nat] [1%nat; 0%nat] [W1_ex; W2_ex] [W2_ex; W1_ex]
           2 1 1 1).
  - reflexivity.
  - repeat constructor.
  - reflexivity.
  - repeat constructor.
  - apply perm_swap.
  - simpl. lia.
  - constructor; [apply is_matrix_W1_ex|constructor; [apply is_matrix_W2_ex|]].
    constructor.
  - lia.
  - lia.
Defined.

(** ** Signs of the entries through the sweeps *)

Lemma nonneg_madd A B : nonneg A -> nonneg B -> nonneg (madd A B).
Proof.
  intros HA HB. apply nonneg_mkmat. intros i j _ _.
  pose proof (get_nonneg A i j HA). pose proof (get_nonneg B i j HB). lra.
Qed.

Lemma nonneg_map_rows (g : R -> R) A :
  (forall x, 0 <= x -> 0 <= g x) -> nonneg A -> nonneg (map (map g) A).
Proof.
  intros Hg HA. apply Forall_map. eapply Forall_impl; [exact HA|].
  intros r Hr. apply Forall_map. eapply Forall_impl; [exact Hr|]. exact Hg.
Qed.

Lemma nonneg_mscale c A : 0 <= c -> nonneg A -> nonneg (mscale c A).
Proof. intros Hc. apply nonneg_map_rows. intros x Hx. nra. Qed.

Lemma nonneg_mscale_0 A : nonneg (mscale 0 A).
Proof.
  apply Forall_map, Forall_forall. intros r _.
  apply Forall_map, Forall_forall. intros x _. simpl. lra.
Qed.

Lemma nonneg_mdivc c A : 0 <= c -> nonneg A -> nonneg (mdivc A c).
Proof.
  intros Hc. apply nonneg_map_rows. intros x Hx.
  destruct (Req_dec c 0) as [->|Hnz].
  - unfold Rdiv. rewrite Rinv_0. lra.
  - apply Rle_mult_inv_pos; lra.
Qed.

Lemma nonneg_transpose A : nonneg A -> nonneg (transpose A).
Proof. intros HA. apply nonneg_mkmat. intros i j _ _. by apply get_nonneg. Qed.

Lemma nonneg_mdot S X : nonneg S -> nonneg X -> nonneg (mdot S X).
Proof.
  intros HS HX. apply nonneg_mkmat. intros i j _ _.
  apply Rsum_map_nonneg. intros k _.
  pose proof (get_nonneg S i k HS). pose proof (get_nonneg X k j HX). nra.
Qed.

Lemma nonneg_np_eye n : nonneg (np_eye n).
Proof.
  apply nonneg_mkmat. intros i j _ _. destruct (i =? j)%nat; lra.
Qed.

Lemma nonneg_nil : nonneg [].
Proof. constructor. Qed.

Lemma nonneg_nth (Xs : list matrix) i :
  Forall nonneg Xs -> nonneg (nth i Xs []).
Proof.
  intros HF. destruct (Xs !! i) as [X|] eqn:HX.
  - rewrite (nth_lookup_Some _ _ _ _ HX). by eapply Forall_lookup_1 in HF.
  - rewrite nth_lookup, HX. apply nonneg_nil.
Qed.

Lemma nonneg_P_of W : nonneg W -> nonneg (P_of W).
Proof.
  intros Hnn. rewrite P_of_rows. apply Forall_map.
  eapply Forall_impl; [exact Hnn|]. simpl. intros r Hr.
  apply Forall_map, Forall_forall. intros x Hx. simpl.
  pose proof (Rsum_nonneg r Hr) as Hs.
  rewrite Forall_forall in Hr. specialize (Hr x Hx). simpl in Hr.
  unfold row_divisor, divisor_of. destruct (Req_dec_T (Rsum r) 0) as [Hz|Hnz].
  - unfold Rdiv. rewrite Rinv_1. lra.
  - apply Rle_mult_inv_pos; lra.
Qed.

Lemma nonneg_S_of n W K :
  is_matrix n n W -> nonneg W -> (K <= n)%nat -> nonneg (S_of W K).
Proof.
  intros Hm Hnn HK. apply Forall_lookup. intros i p Hp.
  pose proof (is_matrix_S_of W n K Hm) as [HlS _].
  pose proof (lookup_lt_Some _ _ _ Hp) as Hi. rewrite HlS in Hi.
  destruct (is_matrix_lookup n n W i Hm Hi) as (r & Hr & _).
  rewrite (lookup_S_of W n K Hm HK i r Hr) in Hp. simplify_eq.
  eapply Forall_impl;
    [apply S_row_in_unit_interval; by eapply Forall_lookup_1 in Hnn|].
  simpl. intros x Hx. lra.
Qed.

Lemma nonneg_square_nth n (Xs : list matrix) i :
  Forall (nonneg_square n) Xs -> (i < length Xs)%nat ->
  nonneg_square n (nth i Xs []).
Proof.
  intros HF Hi. destruct (lookup_lt_is_Some_2 Xs i Hi) as [X HX].
  rewrite (nth_lookup_Some _ _ _ _ HX). by eapply Forall_lookup_1 in HF.
Qed.

Lemma nonneg_square_cross_of n old cur i :
  nonneg_square n old -> Forall (nonneg_square n) cur ->
  nonneg_square n (cross_of old cur i (length cur)).
Proof.
  intros [Hold _] Hcur. unfold cross_of.
  assert (H0 : nonneg_square n (mscale 0 old)).
  { split; [by apply is_matrix_map_rows|apply nonneg_mscale_0]. }
  assert (Hks : forall k, k ∈ seq 0 (length cur) -> (k < length cur)%nat).
  { intros k Hk. apply elem_of_seq in Hk. lia. }
  revert H0 Hks. generalize (mscale 0 old) (seq 0 (length cur)).
  intros A ks. revert A.
  induction ks as [|k ks IH]; intros A [HA HAn] Hks; simpl.
  - split; [by apply is_matrix_map_rows|].
    apply nonneg_mdivc; [apply pos_INR|done].
  - apply IH.
    + destruct (i =? k)%nat; [done|].
      destruct (nonneg_square_nth n cur k Hcur) as [_ Hk].
      { apply Hks. by left. }
      split; [by apply is_matrix_madd|by apply nonneg_madd].
    + intros k' Hk'. apply Hks. by right.
Qed.

Lemma nonneg_square_diffuse_of n S X reg :
  nonneg_square n S -> nonneg_square n X -> (0 < n)%nat ->
  nonneg_square n (diffuse_of S X reg) /\
  (0 < reg -> diagonal_ge n reg (diffuse_of S X reg)).
Proof.
  intros [HS HSn] [HX HXn] Hn. unfold diffuse_of.
  pose proof (is_matrix_transpose n n X HX Hn) as HXt.
  pose proof (is_matrix_mdot n n n S _ HS HXt Hn) as HA.
  pose proof (is_matrix_transpose n n _ HA Hn) as HAt.
  pose proof (is_matrix_mdot n n n S _ HS HAt Hn) as HY.
  assert (HYn : nonneg (mdot S (transpose (mdot S (transpose X))))).
  { by apply nonneg_mdot, nonneg_transpose, nonneg_mdot, nonneg_transpose. }
  destruct (Rlt_dec 0 reg) as [Hr|Hr].
  - split; [split|].
    + by apply is_matrix_madd.
    + apply nonneg_madd; [done|]. apply nonneg_mscale; [lra|].
      apply nonneg_np_eye.
    + intros _ a Ha.
      rewrite (get_madd n n), get_mscale by done.
      rewrite (is_matrix_nrows n n _ HY), get_np_eye, Nat.eqb_refl by done.
      pose proof (get_nonneg _ a a HYn). lra.
  - split; [done|]. intros Hr'. lra.
Qed.

(** One sweep keeps the states nonnegative, and every state that a pass
    has stored has a diagonal of at least a positive [reg]. *)
Lemma sweep_passes_nonneg n aliased Ss cur reg ks :
  (0 < n)%nat ->
  Forall (nonneg_square n) Ss -> Forall (nonneg_square n) cur ->
  length Ss = length cur ->
  (forall i, i ∈ ks -> (i < length cur)%nat) ->
  forall nxt,
    Forall (nonneg_square n) nxt -> length nxt = length cur ->
    let res :=
      fold_left (fun nx i => pass_of aliased Ss cur nx reg i (length cur))
        ks nxt in
    Forall (nonneg_square n) res /\
    forall i, (i < length cur)%nat ->
      i ∈ ks \/ (0 < reg -> diagonal_ge n reg (nth i nxt [])) ->
      0 < reg -> diagonal_ge n reg (nth i res []).
Proof.
  intros Hn HSs Hcur HlS.
  induction ks as [|k ks IH]; intros Hks nxt Hnxt Hln; simpl.
  - split; [done|]. intros i Hi [Hin|Hd] Hr; [|by apply Hd].
    by apply elem_of_nil in Hin.
  - assert (Hk : (k < length cur)%nat) by (apply Hks; by left).
    assert (Hsrc : Forall (nonneg_square n) (if aliased then nxt else cur))
      by by destruct aliased.
    assert (Hlsrc : length (if aliased then nxt else cur) = length cur)
      by by destruct aliased.
    pose proof (nonneg_square_cross_of n (nth k nxt [])
                  (if aliased then nxt else cur) k
                  (nonneg_square_nth n nxt k Hnxt ltac:(lia)) Hsrc) as HC.
    rewrite Hlsrc in HC.
    destruct (nonneg_square_diffuse_of n (nth k Ss []) _ reg
                (nonneg_square_nth n Ss k HSs ltac:(lia)) HC Hn)
      as [Hgood Hdiag].
    assert (Hnxt' : Forall (nonneg_square n)
                      (pass_of aliased Ss cur nxt reg k (length cur))).
    { unfold pass_of. by apply Forall_insert. }
    destruct (IH (fun i Hi => Hks i (proj2 (elem_of_cons _ _ _) (or_intror Hi)))
                (pass_of aliased Ss cur nxt reg k (length cur)) Hnxt')
      as [Hres Hd].
    { by rewrite length_pass_of. }
    split; [done|]. intros i Hi Hor Hr. apply Hd; [done| |done].
    destruct (decide (i = k)) as [->|Hne].
    + right. intros _. unfold pass_of.
      rewrite (nth_lookup_Some _ _ [] _
                 (list_lookup_insert_eq nxt k _ ltac:(lia))).
      by apply Hdiag.
    + destruct Hor as [Hin|Hold].
      * left. apply elem_of_cons in Hin as [?|?]; [done|done].
      * right. unfold pass_of.
        by rewrite nth_lookup, list_lookup_insert_ne, <- nth_lookup by done.
Qed.

Lemma sweep_of_nonneg n aliased Ss cur nxt reg :
  (0 < n)%nat ->
  Forall (nonneg_square n) Ss -> Forall (nonneg_square n) cur ->
  Forall (nonneg_square n) nxt ->
  length Ss = length cur -> length nxt = length cur ->
  Forall (nonneg_square n) (sweep_of aliased Ss cur nxt reg) /\
  length (sweep_of aliased Ss cur nxt reg) = length cur /\
  (0 < reg -> Forall (diagonal_ge n reg) (sweep_of aliased Ss cur nxt reg)).
Proof.
  intros Hn HSs Hcur Hnxt HlS Hln.
  destruct (sweep_passes_nonneg n aliased Ss cur reg (seq 0 (length cur))
              Hn HSs Hcur HlS) with (nxt := nxt) as [Hres Hd]; [|done|done|].
  { intros i Hi. apply elem_of_seq in Hi. lia. }
  assert (Hlen : length (sweep_of aliased Ss cur nxt reg) = length cur).
  { unfold sweep_of. generalize (seq 0 (length cur)). intros ks.
    clear Hnxt Hres Hd. revert nxt Hln.
    induction ks as [|k ks IH]; intros nxt Hln; simpl; [done|].
    apply IH. by rewrite length_pass_of. }
  split; [done|]. split; [done|]. intros Hr.
  apply Forall_lookup. intros i X HX.
  pose proof (lookup_lt_Some _ _ _ HX) as Hi. rewrite Hlen in Hi.
  rewrite <- (nth_lookup_Some _ _ [] _ HX). apply Hd; [done| |done].
  left. apply elem_of_seq. lia.
Qed.

Lemma sweeps_of_nonneg n Ss reg k :
  (0 < n)%nat -> Forall (nonneg_square n) Ss ->
  forall aliased cur nxt,
    Forall (nonneg_square n) cur -> Forall (nonneg_square n) nxt ->
    length Ss = length cur -> length nxt = length cur ->
    Forall (nonneg_square n) (sweeps_of k aliased Ss cur nxt reg) /\
    length (sweeps_of k aliased Ss cur nxt reg) = length cur /\
    ((1 <= k)%nat -> 0 < reg ->
     Forall (diagonal_ge n reg) (sweeps_of k aliased Ss cur nxt reg)).
Proof.
  intros Hn HSs. induction k as [|k IH]; intros aliased cur nxt Hcur Hnxt HlS Hln.
  - simpl. split; [done|]. split; [done|]. lia.
  - cbn [sweeps_of].
    destruct (sweep_of_nonneg n aliased Ss cur nxt reg Hn HSs Hcur Hnxt HlS Hln)
      as (Hgood & Hlen & Hdiag).
    destruct (IH true _ _ Hgood Hgood ltac:(lia) eq_refl) as (H1 & H2 & H3).
    split; [done|]. split; [lia|]. intros _ Hr.
    destruct k as [|k]; [by apply Hdiag|]. apply H3; [lia|done].
Qed.

Lemma fused_of_nonneg n Xs :
  Forall (nonneg_square n) Xs -> (0 < length Xs)%nat ->
  nonneg_square n (fused_of Xs) /\
  forall c, Forall (diagonal_ge n c) Xs -> diagonal_ge n c (fused_of Xs).
Proof.
  intros HXs Hl.
  assert (Hm : Forall (is_matrix n n) Xs).
  { eapply Forall_impl; [exact HXs|]. by intros X [? _]. }
  assert (Hnn : Forall nonneg Xs).
  { eapply Forall_impl; [exact HXs|]. by intros X [_ ?]. }
  destruct (fused_of_entries n Xs Hm Hl) as [HF He].
  assert (Hpos : 0 < INR (length Xs)) by (apply lt_0_INR; lia).
  split; [split; [done|]|].
  - unfold fused_of. apply nonneg_mdivc; [lra|].
    assert (H0 : nonneg (np_zeros (nrows (nth 0%nat Xs []))
                           (ncols (nth 0%nat Xs [])))).
    { apply nonneg_mkmat. intros; lra. }
    revert H0. generalize (np_zeros (nrows (nth 0%nat Xs []))
                             (ncols (nth 0%nat Xs []))).
    clear -Hnn. induction Hnn as [|X Xs HX _ IH]; intros A HA; simpl; [done|].
    apply IH. by apply nonneg_madd.
  - intros c Hc a Ha. rewrite He by done.
    apply (Rmult_le_reg_r (INR (length Xs))); [done|].
    unfold Rdiv. rewrite Rmult_assoc, Rinv_l, Rmult_1_r by lra.
    clear -Hc Ha. induction Hc as [|X Xs HX _ IH]; [simpl; lra|].
    cbn [length map Rsum fold_right]. rewrite S_INR.
    specialize (HX a Ha). unfold Rsum in IH. lra.
Qed.

Lemma fusion_of_nonneg n Wvs K NIters reg :
  (0 < length Wvs)%nat -> Forall (nonneg_square n) Wvs -> (K < n)%nat ->
  nonneg_square n (fusion_of Wvs K NIters reg) /\
  ((1 <= NIters)%nat -> 0 < reg ->
   diagonal_ge n reg (fusion_of Wvs K NIters reg)).
Proof.
  intros Hl HW HK.
  assert (Hn : (0 < n)%nat) by lia.
  assert (HSs : Forall (nonneg_square n) (map (fun W => S_of W K) Wvs)).
  { apply Forall_map. eapply Forall_impl; [exact HW|]. intros W [H1 H2].
    split; [by apply is_matrix_S_of|]. apply (nonneg_S_of n); [done|done|lia]. }
  assert (HPs : Forall (nonneg_square n) (map P_of Wvs)).
  { apply Forall_map. eapply Forall_impl; [exact HW|]. intros W [H1 H2].
    split; [by apply is_matrix_P_of|by apply nonneg_P_of]. }
  assert (HZs : Forall (nonneg_square n) (map zeros_like (map P_of Wvs))).
  { apply Forall_map. eapply Forall_impl; [exact HPs|]. intros X [H1 _].
    unfold zeros_like, np_zeros.
    rewrite (is_matrix_nrows n n X H1), (is_matrix_ncols n n X H1 Hn).
    split; [apply is_matrix_mkmat|]. apply nonneg_mkmat. intros; lra. }
  destruct (sweeps_of_nonneg n _ reg NIters Hn HSs false _ _ HPs HZs)
    as (Hgood & Hlen & Hdiag); [by rewrite !length_map..|].
  unfold fusion_of.
  destruct (fused_of_nonneg n _ Hgood) as [Hres Hd].
  { rewrite Hlen, length_map. lia. }
  split; [done|]. intros HN Hr. apply Hd. by apply Hdiag.
Qed.

(** X16: for at least two entrywise nonnegative N x N matrices and
    [K < N], the matrix that [doSimilarityFusionWs] returns is N x N and
    entrywise nonnegative, whatever [NIters] and [reg]; after at least one
    sweep with a positive [reg] every diagonal entry is at least [reg]. *)
Theorem fusion_nonnegative (h : heap) (Ws : loc) (lsW : list loc)
    (Wvs : list matrix) (n K NIters : nat) (reg : R) :
  pylists h !! Ws = Some lsW -> arrays_at h lsW Wvs ->
  (2 <= length Wvs)%nat ->
  Forall (nonneg_square n) Wvs -> (K < n)%nat ->
  exists F h' Fv,
    doSimilarityFusionWs Ws K NIters reg h = Ok F h' /\
    arrays h' !! F = Some Fv /\
    nonneg_square n Fv /\
    ((1 <= NIters)%nat -> 0 < reg -> diagonal_ge n reg Fv).
Proof.
  intros HWs Hat Hl HW HK.
  assert (Hm : Forall (is_matrix n n) Wvs).
  { eapply Forall_impl; [exact HW|]. by intros X [? _]. }
  destruct (doSimilarityFusionWs_run h Ws lsW Wvs n K NIters reg)
    as (F & h' & Hrun & HF & _); [done|done|lia|done|done|].
  exists F, h', (fusion_of Wvs K NIters reg). split; [done|]. split; [done|].
  apply (fusion_of_nonneg n); [lia|done|done].
Qed.

Lemma fusion_nonnegative_witness :
  exists F h' Fv,
    doSimilarityFusionWs 0%nat 1 2 1 heap_ex12 = Ok F h' /\
    arrays h' !! F = Some Fv /\
    nonneg_square 2 Fv /\
    ((1 <= 2)%nat -> 0 < 1 -> diagonal_ge 2 1 Fv).
Proof.
  apply (fusion_nonnegative heap_ex12 0%nat [0%nat; 1%nat]
           [W1_ex; W2_ex] 2 1 2 1).
  - reflexivity.
  - repeat constructor.
  - simpl. lia.
  - constructor; [|constructor; [|constructor]].
    + split; [apply is_matrix_W1_ex|]. repeat constructor; lra.
    + split; [apply is_matrix_W2_ex|]. repeat constructor; lra.
  - lia.
Defined.

(** ** [getWCSMSSM] *)

Lemma ncols_transpose n m (A : matrix) :
  is_matrix n m A -> (0 < n)%nat -> (0 < m)%nat -> ncols (transpose A) = n.
Proof.
  intros HA Hn Hm.
  apply (is_matrix_ncols m n); [|done]. by apply is_matrix_transpose.
Qed.

Lemma getWCSMSSM_run h SSMA SSMB CSMAB Av Bv Cv N M K Mu :
  arrays h !! SSMA = Some Av -> arrays h !! SSMB = Some Bv ->
  arrays h !! CSMAB = Some Cv ->
  is_matrix N N Av -> is_matrix M M Bv -> is_matrix N M Cv ->
  (K * N / (M + N) + 1 < N)%nat -> (K - K * N / (M + N) + 1 < M)%nat ->
  getWCSMSSM SSMA SSMB CSMAB K Mu h =
  Ok (length (arrays h) + 5)%nat
    (Heap
       (arrays h ++
        [DSym_of Av; W_of Av (K * N / (M + N)) Mu;
         DSym_of Bv; W_of Bv (K - K * N / (M + N)) Mu;
         CrossEps_of Cv (K * N / (M + N)) (K - K * N / (M + N));
         WCSMSSM_of Av Bv Cv K Mu])
       (pylists h)).
Proof.
  intros HA HB HC HAm HBm HCm Hk1 Hk2.
  unfold getWCSMSSM, WCSMSSM_of.
  rewrite bind_run, (read_run _ _ _ HA), bind_run, (read_run _ _ _ HB).
  rewrite (is_matrix_nrows N N Av HAm), (is_matrix_nrows M M Bv HBm).
  rewrite bind_run, split_neighbours_run by lia. cbn [fst snd].
  set (k1 := (K * N / (M + N))%nat) in *.
  set (k2 := (K - k1)%nat) in *.
  rewrite bind_run, (getW_run_ok h SSMA Av k1 Mu N HA HAm Hk1).
  set (h1 := add_array (add_array h (DSym_of Av)) (W_of Av k1 Mu)).
  assert (HB1 : arrays h1 !! SSMB = Some Bv) by by do 2 apply lookup_add_array_old.
  rewrite bind_run, (getW_run_ok h1 SSMB Bv k2 Mu M HB1 HBm Hk2).
  set (h2 := add_array (add_array h1 (DSym_of Bv)) (W_of Bv k2 Mu)).
  assert (HC2 : arrays h2 !! CSMAB = Some Cv) by by do 4 apply lookup_add_array_old.
  rewrite bind_run, (read_run _ _ _ HC2).
  pose proof (is_matrix_ncols N M Cv HCm ltac:(lia)) as HcC.
  pose proof (ncols_transpose N M Cv HCm ltac:(lia) ltac:(lia)) as HcT.
  rewrite bind_run. unfold np_partition at 1.
  destruct (Nat.ltb_spec k2 (ncols Cv)) as [_|?]; [|lia].
  unfold mret at 1, Py_ret at 1.
  rewrite bind_run. unfold np_partition at 1.
  destruct (Nat.ltb_spec k1 (ncols (transpose Cv))) as [_|?]; [|lia].
  unfold mret at 1, Py_ret at 1.
  rewrite bind_run. unfold new_array at 1.
  rewrite bind_run, (idivc_run _ _ _ _ (lookup_add_array_new _ _)).
  rewrite set_add_array_new. fold (CrossEps_of Cv k1 k2).
  rewrite bind_run, (read_run _ _ _ (lookup_add_array_new _ _)).
  fold (WCross_of Cv k1 k2 Mu).
  set (h3 := add_array h2 (CrossEps_of Cv k1 k2)).
  rewrite bind_run. unfold new_array at 1.
  assert (HWA : arrays (add_array h3 (np_zeros (N + M) (N + M)))
                !! S (length (arrays h)) = Some (W_of Av k1 Mu)).
  { do 4 apply lookup_add_array_old. apply lookup_add_array_new2. }
  rewrite bind_run, (read_run _ _ _ HWA).
  rewrite bind_run, (read_run _ _ _ (lookup_add_array_new _ _)).
  rewrite bind_run, (write_run _ _ _ _ (lookup_add_array_new _ _)).
  rewrite set_add_array_new.
  rewrite bind_run, (read_run _ _ _ (lookup_add_array_new _ _)).
  rewrite bind_run, (write_run _ _ _ _ (lookup_add_array_new _ _)).
  rewrite set_add_array_new.
  rewrite bind_run, (read_run _ _ _ (lookup_add_array_new _ _)).
  rewrite bind_run, (write_run _ _ _ _ (lookup_add_array_new _ _)).
  rewrite set_add_array_new.
  assert (HWB : forall v, arrays (add_array h3 v)
                !! S (length (arrays h1)) = Some (W_of Bv k2 Mu)).
  { intros v. do 2 apply lookup_add_array_old. apply lookup_add_array_new2. }
  rewrite bind_run, (read_run _ _ _ (HWB _)).
  rewrite bind_run, (read_run _ _ _ (lookup_add_array_new _ _)).
  rewrite bind_run, (write_run _ _ _ _ (lookup_add_array_new _ _)).
  rewrite set_add_array_new.
  unfold mret, Py_ret. f_equal.
  - unfold h3, h2, h1. rewrite !length_add_array. lia.
  - unfold h3, h2, h1, add_array. simpl. f_equal.
    by rewrite <- !app_assoc.
Qed.

Lemma getWCSMSSM_run_raise h SSMA SSMB CSMAB Av Bv K Mu N M :
  arrays h !! SSMA = Some Av -> arrays h !! SSMB = Some Bv ->
  is_matrix N N Av -> is_matrix M M Bv ->
  (0 < N + M)%nat ->
  (N <= K * N / (M + N) + 1)%nat \/ (M <= K - K * N / (M + N) + 1)%nat ->
  exists h',
    getWCSMSSM SSMA SSMB CSMAB K Mu h = Raise ValueError h' /\ heap_ext h h'.
Proof.
  intros HA HB HAm HBm Hpos Hk. unfold getWCSMSSM.
  rewrite bind_run, (read_run _ _ _ HA), bind_run, (read_run _ _ _ HB).
  rewrite (is_matrix_nrows N N Av HAm), (is_matrix_nrows M M Bv HBm).
  rewrite bind_run, split_neighbours_run by lia. cbn [fst snd].
  set (k1 := (K * N / (M + N))%nat) in *.
  set (k2 := (K - k1)%nat) in *.
  destruct (le_lt_dec N (k1 + 1)) as [Hk1|Hk1].
  - rewrite bind_run, (getW_run_raise h SSMA Av k1 Mu N HA HAm Hk1).
    eexists. split; [done|]. apply heap_ext_add_array, heap_ext_refl.
  - destruct Hk as [?|Hk2]; [lia|].
    rewrite bind_run, (getW_run_ok h SSMA Av k1 Mu N HA HAm Hk1).
    set (h1 := add_array (add_array h (DSym_of Av)) (W_of Av k1 Mu)).
    assert (HB1 : arrays h1 !! SSMB = Some Bv)
      by by do 2 apply lookup_add_array_old.
    rewrite bind_run, (getW_run_raise h1 SSMB Bv k2 Mu M HB1 HBm Hk2).
    eexists. split; [done|]. do 3 apply heap_ext_add_array. apply heap_ext_refl.
Qed.

(** X17: for an N x N [SSMA], an M x M [SSMB] and an N x M [CSMAB], with
    [k1 = K*N div (N+M)] and [k2 = K - k1]: [getWCSMSSM] raises
    [ZeroDivisionError] and leaves the store as it was when [N + M = 0];
    otherwise it returns exactly when [k1 + 1 < N] and [k2 + 1 < M], and
    raises [ValueError] when not; an exception leaves every array of the
    caller as it was. *)
Theorem getWCSMSSM_returns_iff (h : heap) (SSMA SSMB CSMAB : loc)
    (Av Bv Cv : matrix) (N M K : nat) (Mu : R) :
  arrays h !! SSMA = Some Av -> arrays h !! SSMB = Some Bv ->
  arrays h !! CSMAB = Some Cv ->
  is_matrix N N Av -> is_matrix M M Bv -> is_matrix N M Cv ->
  ((N + M = 0)%nat ->
   getWCSMSSM SSMA SSMB CSMAB K Mu h = Raise ZeroDivisionError h) /\
  ((0 < N + M)%nat ->
   (K * N / (M + N) + 1 < N)%nat /\ (K - K * N / (M + N) + 1 < M)%nat ->
   exists W h',
     getWCSMSSM SSMA SSMB CSMAB K Mu h = Ok W h' /\
     arrays h' !! W = Some (WCSMSSM_of Av Bv Cv K Mu)) /\
  ((0 < N + M)%nat ->
   (N <= K * N / (M + N) + 1)%nat \/ (M <= K - K * N / (M + N) + 1)%nat ->
   exists h',
     getWCSMSSM SSMA SSMB CSMAB K Mu h = Raise ValueError h' /\
     heap_ext h h').
Proof.
  intros HA HB HC HAm HBm HCm. split; [|split].
  - intros H0. unfold getWCSMSSM.
    rewrite bind_run, (read_run _ _ _ HA), bind_run, (read_run _ _ _ HB).
    rewrite (is_matrix_nrows N N Av HAm), (is_matrix_nrows M M Bv HBm).
    rewrite bind_run. unfold split_neighbours.
    by destruct (Nat.eqb_spec (M + N) 0); [|lia].
  - intros _ [Hk1 Hk2]. eexists _, _.
    split; [by apply (getWCSMSSM_run _ _ _ _ Av Bv Cv N M)|].
    simpl. rewrite lookup_app_r by lia.
    by replace (length (arrays h) + 5 - length (arrays h))%nat with 5%nat
      by lia.
  - intros Hpos Hk. by apply (getWCSMSSM_run_raise _ _ _ _ Av Bv _ _ N M).
Qed.

Lemma is_matrix_C_ex : is_matrix 3 3 C_ex.
Proof. split; [done|]. by repeat constructor. Qed.

Lemma getWCSMSSM_returns_iff_witness :
  exists W h',
    getWCSMSSM 0%nat 1%nat 2%nat 2 (1/2) heap_ex_cross = Ok W h' /\
    arrays h' !! W = Some (WCSMSSM_of D_ex D_ex C_ex 2 (1/2)).
Proof.
  apply (getWCSMSSM_returns_iff heap_ex_cross 0%nat 1%nat 2%nat
           D_ex D_ex C_ex 3 3 2 (1/2)).
  - reflexivity.
  - reflexivity.
  - reflexivity.
  - apply is_matrix_D_ex.
  - apply is_matrix_D_ex.
  - apply is_matrix_C_ex.
  - lia.
  - vm_compute. lia.
Defined.

Lemma is_matrix_set_block n m W r0 c0 B :
  is_matrix n m W -> is_matrix n m (set_block W r0 c0 B).
Proof.
  intros HW. unfold set_block. rewrite (is_matrix_nrows n m W HW).
  destruct n as [|n]; [by split|].
  rewrite (is_matrix_ncols (S n) m W HW) by lia. apply is_matrix_mkmat.
Qed.

Lemma get_set_block n m W r0 c0 B i j :
  is_matrix n m W -> (i < n)%nat -> (j < m)%nat ->
  get (set_block W r0 c0 B) i j =
  if ((r0 <=? i) && (i <? r0 + nrows B) &&
      (c0 <=? j) && (j <? c0 + ncols B))%nat
  then get B (i - r0) (j - c0) else get W i j.
Proof.
  intros HW Hi Hj. unfold set_block.
  rewrite (is_matrix_nrows n m W HW), (is_matrix_ncols n m W HW) by lia.
  by rewrite get_mkmat.
Qed.

Lemma is_matrix_WCross_of n m C k1 k2 Mu :
  is_matrix n m C -> (0 < n)%nat -> is_matrix n m (WCross_of C k1 k2 Mu).
Proof.
  intros HC Hn. unfold WCross_of.
  rewrite (is_matrix_nrows n m C HC), (is_matrix_ncols n m C HC Hn).
  apply is_matrix_mkmat.
Qed.

Lemma get_WCross_of n m C k1 k2 Mu i j :
  is_matrix n m C -> (i < n)%nat -> (j < m)%nat ->
  get (WCross_of C k1 k2 Mu) i j =
  kernel Mu (get C i j) (get (CrossEps_of C k1 k2) i j).
Proof.
  intros HC Hi Hj. unfold WCross_of.
  rewrite (is_matrix_nrows n m C HC), (is_matrix_ncols n m C HC) by lia.
  by rewrite get_mkmat.
Qed.

Lemma get_CrossEps_of n m C k1 k2 i j :
  is_matrix n m C -> (i < n)%nat -> (j < m)%nat ->
  get (CrossEps_of C k1 k2) i j =
  (nth i (np_mean1 (map (take k2) (map sort_row C))) 0 +
   nth j (np_mean1 (map (take k1) (map sort_row (transpose C)))) 0 +
   get C i j) / 3.
Proof.
  intros HC Hi Hj. unfold CrossEps_of.
  rewrite (is_matrix_nrows n m C HC), (is_matrix_ncols n m C HC) by lia.
  by rewrite get_mdivc, get_mkmat.
Qed.

(** The four blocks of the assembled array. *)
Lemma WCSMSSM_of_entries N M A B C K Mu :
  is_matrix N N A -> is_matrix M M B -> is_matrix N M C ->
  (0 < N)%nat -> (0 < M)%nat ->
  is_matrix (N + M) (N + M) (WCSMSSM_of A B C K Mu) /\
  forall i j, (i < N + M)%nat -> (j < N + M)%nat ->
    get (WCSMSSM_of A B C K Mu) i j =
    if (i <? N)%nat
    then if (j <? N)%nat
         then get (W_of A (K * N / (M + N)) Mu) i j
         else get (WCross_of C (K * N / (M + N)) (K - K * N / (M + N)) Mu)
                i (j - N)
    else if (j <? N)%nat
         then get (WCross_of C (K * N / (M + N)) (K - K * N / (M + N)) Mu)
                j (i - N)
         else get (W_of B (K - K * N / (M + N)) Mu) (i - N) (j - N).
Proof.
  intros HA HB HC HN HM. unfold WCSMSSM_of.
  rewrite (is_matrix_nrows N N A HA), (is_matrix_nrows M M B HB).
  set (k1 := (K * N / (M + N))%nat).
  set (k2 := (K - k1)%nat).
  pose proof (is_matrix_W_of N A k1 Mu HA) as HWA.
  pose proof (is_matrix_W_of M B k2 Mu HB) as HWB.
  pose proof (is_matrix_WCross_of N M C k1 k2 Mu HC HN) as HWC.
  pose proof (is_matrix_transpose N M _ HWC HN) as HWCt.
  assert (H0 : is_matrix (N + M) (N + M) (np_zeros (N + M) (N + M)))
    by apply is_matrix_mkmat.
  pose proof (is_matrix_set_block _ _ _ 0 0 (W_of A k1 Mu) H0) as H1.
  pose proof (is_matrix_set_block _ _ _ 0 N (WCross_of C k1 k2 Mu) H1) as H2.
  pose proof (is_matrix_set_block _ _ _ N 0
                (transpose (WCross_of C k1 k2 Mu)) H2) as H3.
  split; [by apply is_matrix_set_block|].
  intros i j Hi Hj.
  rewrite (get_set_block _ _ _ _ _ _ _ _ H3 Hi Hj).
  rewrite (get_set_block _ _ _ _ _ _ _ _ H2 Hi Hj).
  rewrite (get_set_block _ _ _ _ _ _ _ _ H1 Hi Hj).
  rewrite (get_set_block _ _ _ _ _ _ _ _ H0 Hi Hj).
  rewrite (is_matrix_nrows _ _ _ HWA), (is_matrix_ncols _ _ _ HWA HN).
  rewrite (is_matrix_nrows _ _ _ HWB), (is_matrix_ncols _ _ _ HWB HM).
  rewrite (is_matrix_nrows _ _ _ HWC), (is_matrix_ncols _ _ _ HWC HN).
  rewrite (is_matrix_nrows _ _ _ HWCt), (is_matrix_ncols _ _ _ HWCt HM).
  destruct (Nat.ltb_spec i N), (Nat.ltb_spec j N);
    repeat match goal with
    | |- context [(?a <=? ?b)%nat] => destruct (Nat.leb_spec a b); try lia
    | |- context [(?a <? ?b)%nat] => destruct (Nat.ltb_spec a b); try lia
    end; cbn [andb]; rewrite ?Nat.sub_0_r; try done.
  by rewrite (get_transpose N M _ _ _ HWC) by lia.
Qed.

(** X18: for an N x N [SSMA], an M x M [SSMB] and an N x M [CSMAB] on
    which it returns, [getWCSMSSM] leaves the caller's arrays as they were
    and returns an (N+M) x (N+M) array whose upper left block is what
    [getW(SSMA, k1, Mu)] gives, whose lower right block is what
    [getW(SSMB, k2, Mu)] gives, and whose upper right and lower left
    blocks are the kernel of [CSMAB] and its transpose. *)
Theorem getWCSMSSM_blocks (h : heap) (SSMA SSMB CSMAB : loc)
    (Av Bv Cv : matrix) (N M K : nat) (Mu : R) :
  arrays h !! SSMA = Some Av -> arrays h !! SSMB = Some Bv ->
  arrays h !! CSMAB = Some Cv ->
  is_matrix N N Av -> is_matrix M M Bv -> is_matrix N M Cv ->
  (K * N / (M + N) + 1 < N)%nat -> (K - K * N / (M + N) + 1 < M)%nat ->
  exists W h' Wv,
    getWCSMSSM SSMA SSMB CSMAB K Mu h = Ok W h' /\
    arrays h' !! W = Some Wv /\ heap_ext h h' /\
    is_matrix (N + M) (N + M) Wv /\
    (forall i j, (i < N)%nat -> (j < N)%nat ->
       get Wv i j = get (W_of Av (K * N / (M + N)) Mu) i j) /\
    (forall i j, (i < M)%nat -> (j < M)%nat ->
       get Wv (N + i) (N + j) =
       get (W_of Bv (K - K * N / (M + N)) Mu) i j) /\
    (forall i j, (i < N)%nat -> (j < M)%nat ->
       get Wv i (N + j) =
         kernel Mu (get Cv i j)
           (get (CrossEps_of Cv (K * N / (M + N)) (K - K * N / (M + N))) i j) /\
       get Wv (N + j) i = get Wv i (N + j)).
Proof.
  intros HA HB HC HAm HBm HCm Hk1 Hk2.
  destruct (WCSMSSM_of_entries N M Av Bv Cv K Mu HAm HBm HCm)
    as [Hm He]; [lia|lia|].
  eexists _, _, (WCSMSSM_of Av Bv Cv K Mu).
  split; [by apply (getWCSMSSM_run _ _ _ _ Av Bv Cv N M)|].
  split.
  { simpl. rewrite lookup_app_r by lia.
    by replace (length (arrays h) + 5 - length (arrays h))%nat with 5%nat
      by lia. }
  split; [apply heap_ext_app|]. split; [done|].
  split; [|split].
  - intros i j Hi Hj. rewrite He by lia.
    by destruct (Nat.ltb_spec i N), (Nat.ltb_spec j N); try lia.
  - intros i j Hi Hj. rewrite He by lia.
    destruct (Nat.ltb_spec (N + i) N), (Nat.ltb_spec (N + j) N); try lia.
    by replace (N + i - N)%nat with i by lia;
       replace (N + j - N)%nat with j by lia.
  - intros i j Hi Hj. rewrite !He by lia.
    destruct (Nat.ltb_spec i N), (Nat.ltb_spec (N + j) N); try lia.
    replace (N + j - N)%nat with j by lia.
    split; [|done]. by apply (get_WCross_of N M).
Qed.

Lemma getWCSMSSM_blocks_witness :
  exists W h' Wv,
    getWCSMSSM 0%nat 1%nat 2%nat 2 (1/2) heap_ex_cross = Ok W h' /\
    arrays h' !! W = Some Wv /\ heap_ext heap_ex_cross h' /\
    is_matrix (3 + 3) (3 + 3) Wv /\
    (forall i j, (i < 3)%nat -> (j < 3)%nat ->
       get Wv i j = get (W_of D_ex (2 * 3 / (3 + 3)) (1/2)) i j) /\
    (forall i j, (i < 3)%nat -> (j < 3)%nat ->
       get Wv (3 + i) (3 + j) =
       get (W_of D_ex (2 - 2 * 3 / (3 + 3)) (1/2)) i j) /\
    (forall i j, (i < 3)%nat -> (j < 3)%nat ->
       get Wv i (3 + j) =
         kernel (1/2) (get C_ex i j)
           (get (CrossEps_of C_ex (2 * 3 / (3 + 3)) (2 - 2 * 3 / (3 + 3))) i j) /\
       get Wv (3 + j) i = get Wv i (3 + j)).
Proof.
  apply (getWCSMSSM_blocks heap_ex_cross 0%nat 1%nat 2%nat
           D_ex D_ex C_ex 3 3 2 (1/2)).
  - reflexivity.
  - reflexivity.
  - reflexivity.
  - apply is_matrix_D_ex.
  - apply is_matrix_D_ex.
  - apply is_matrix_C_ex.
  - vm_compute. lia.
  - vm_compute. lia.
Defined.

Lemma transpose_C_ex : transpose C_ex = C_ex.
Proof. reflexivity. Qed.

Lemma cross_means_C_ex :
  np_mean1 (map (take 1) (map sort_row C_ex)) = [1; 1; 1].
Proof. unfold C_ex, np_mean1, sort_row. eval_R. list_eq_R. Qed.

Lemma CrossEps_of_C_ex_nonzero i j :
  (i < 3)%nat -> (j < 3)%nat -> get (CrossEps_of C_ex 1 1) i j <> 0.
Proof.
  intros Hi Hj. rewrite (get_CrossEps_of 3 3) by (done || apply is_matrix_C_ex).
  rewrite transpose_C_ex, cross_means_C_ex.
  destruct i as [|[|[|i]]]; [| | |lia];
    (destruct j as [|[|[|j]]]; [| | |lia]); unfold get, C_ex; simpl; lra.
Qed.

(** X19: for an N x N [SSMA], an M x M [SSMB] and an N x M [CSMAB], with
    [1 <= k1 < N-1], [1 <= k2 < M-1], [Mu > 0] and nonzero bandwidths in
    the three blocks, [getWCSMSSM] returns a symmetric array with every
    entry in (0, 1] and every diagonal entry equal to 1. *)
Theorem getWCSMSSM_affinity (h : heap) (SSMA SSMB CSMAB : loc)
    (Av Bv Cv : matrix) (N M K : nat) (Mu : R) :
  arrays h !! SSMA = Some Av -> arrays h !! SSMB = Some Bv ->
  arrays h !! CSMAB = Some Cv ->
  is_matrix N N Av -> is_matrix M M Bv -> is_matrix N M Cv ->
  (1 <= K * N / (M + N))%nat -> (K * N / (M + N) + 1 < N)%nat ->
  (1 <= K - K * N / (M + N))%nat -> (K - K * N / (M + N) + 1 < M)%nat ->
  0 < Mu ->
  (forall i j, (i < N)%nat -> (j < N)%nat ->
     get (Eps_of Av (K * N / (M + N))) i j <> 0) ->
  (forall i j, (i < M)%nat -> (j < M)%nat ->
     get (Eps_of Bv (K - K * N / (M + N))) i j <> 0) ->
  (forall i j, (i < N)%nat -> (j < M)%nat ->
     get (CrossEps_of Cv (K * N / (M + N)) (K - K * N / (M + N))) i j <> 0) ->
  exists W h' Wv,
    getWCSMSSM SSMA SSMB CSMAB K Mu h = Ok W h' /\
    arrays h' !! W = Some Wv /\
    symmetric (N + M) Wv /\
    (forall i j, (i < N + M)%nat -> (j < N + M)%nat -> 0 < get Wv i j <= 1) /\
    (forall i, (i < N + M)%nat -> get Wv i i = 1).
Proof.
  intros HA HB HC HAm HBm HCm _ Hk1 _ Hk2 HMu HEA HEB HEC.
  destruct (WCSMSSM_of_entries N M Av Bv Cv K Mu HAm HBm HCm)
    as [Hm He]; [lia|lia|].
  eexists _, _, (WCSMSSM_of Av Bv Cv K Mu).
  split; [by apply (getWCSMSSM_run _ _ _ _ Av Bv Cv N M)|].
  split.
  { simpl. rewrite lookup_app_r by lia.
    by replace (length (arrays h) + 5 - length (arrays h))%nat with 5%nat
      by lia. }
  split; [|split].
  - intros i j Hi Hj. rewrite !He by done.
    destruct (Nat.ltb_spec i N), (Nat.ltb_spec j N); try done.
    + by apply (W_of_symmetric N).
    + apply (W_of_symmetric M); [done|lia|lia].
  - intros i j Hi Hj. rewrite He by done.
    destruct (Nat.ltb_spec i N), (Nat.ltb_spec j N).
    + rewrite (get_W_of N) by done. apply kernel_range.
      specialize (HEA i j ltac:(done) ltac:(done)). nra.
    + rewrite (get_WCross_of N M) by (done || lia). apply kernel_range.
      specialize (HEC i (j - N)%nat ltac:(done) ltac:(lia)). nra.
    + rewrite (get_WCross_of N M) by (done || lia). apply kernel_range.
      specialize (HEC j (i - N)%nat ltac:(done) ltac:(lia)). nra.
    + rewrite (get_W_of M) by (done || lia). apply kernel_range.
      specialize (HEB (i - N)%nat (j - N)%nat ltac:(lia) ltac:(lia)). nra.
  - intros i Hi. rewrite He by done.
    destruct (Nat.ltb_spec i N).
    + by apply (W_of_diagonal N).
    + apply (W_of_diagonal M); [done|lia].
Qed.

Lemma getWCSMSSM_affinity_witness :
  exists W h' Wv,
    getWCSMSSM 0%nat 1%nat 2%nat 2 (1/2) heap_ex_cross = Ok W h' /\
    arrays h' !! W = Some Wv /\
    symmetric (3 + 3) Wv /\
    (forall i j, (i < 3 + 3)%nat -> (j < 3 + 3)%nat -> 0 < get Wv i j <= 1) /\
    (forall i, (i < 3 + 3)%nat -> get Wv i i = 1).
Proof.
  apply (getWCSMSSM_affinity heap_ex_cross 0%nat 1%nat 2%nat
           D_ex D_ex C_ex 3 3 2 (1/2)).
  - reflexivity.
  - reflexivity.
  - reflexivity.
  - apply is_matrix_D_ex.
  - apply is_matrix_D_ex.
  - apply is_matrix_C_ex.
  - vm_compute. lia.
  - vm_compute. lia.
  - vm_compute. lia.
  - vm_compute. lia.
  - lra.
  - change (2 * 3 / (3 + 3))%nat with 1%nat. apply Eps_of_D_ex_nonzero.
  - change (2 - 2 * 3 / (3 + 3))%nat with 1%nat. apply Eps_of_D_ex_nonzero.
  - change (2 * 3 / (3 + 3))%nat with 1%nat.
    change (2 - 1)%nat with 1%nat. apply CrossEps_of_C_ex_nonzero.
Defined.

(** ** The caller's store in the remaining functions *)

Lemma fresh_or_raises_frame (f : loc -> Py loc) h l :
  fresh_or_raises f -> heap_ext h (final_heap (f l h)).
Proof.
  intros Hf. destruct (Hf h l) as [(ext & v & ->)|(e & ext & ->)]; simpl.
  - apply (heap_ext_app h (ext ++ [v])).
  - apply heap_ext_app.
Qed.

Lemma getWCSMSSM_frame h SSMA SSMB CSMAB K Mu :
  heap_ext h (final_heap (getWCSMSSM SSMA SSMB CSMAB K Mu h)).
Proof.
  unfold getWCSMSSM. rewrite bind_run. unfold read at 1.
  destruct (arrays h !! SSMA) as [Av|]; [|apply heap_ext_refl].
  rewrite bind_run. unfold read at 1.
  destruct (arrays h !! SSMB) as [Bv|]; [|apply heap_ext_refl].
  rewrite bind_run. unfold split_neighbours.
  destruct (nrows Bv + nrows Av =? 0)%nat; [apply heap_ext_refl|].
  unfold mret at 1, Py_ret at 1. cbn [fst snd].
  set (k1 := (K * nrows Av / (nrows Bv + nrows Av))%nat).
  set (k2 := (K - k1)%nat).
  rewrite bind_run.
  pose proof (getW_frame h SSMA k1 Mu) as H1.
  destruct (getW SSMA k1 Mu h) as [WA h1|e h1]; cbn [final_heap] in H1;
    [|done].
  rewrite bind_run.
  pose proof (getW_frame h1 SSMB k2 Mu) as H2.
  destruct (getW SSMB k2 Mu h1) as [WB h2|e h2]; cbn [final_heap] in H2;
    [|by eapply heap_ext_trans].
  assert (H02 : heap_ext h h2) by by eapply heap_ext_trans.
  rewrite bind_run. unfold read at 1.
  destruct (arrays h2 !! CSMAB) as [Cv|]; [|done].
  rewrite bind_run. unfold np_partition at 1.
  destruct (k2 <? ncols Cv)%nat; [|done].
  unfold mret at 1, Py_ret at 1.
  rewrite bind_run. unfold np_partition at 1.
  destruct (k1 <? ncols (transpose Cv))%nat; [|done].
  unfold mret at 1, Py_ret at 1.
  rewrite bind_run. unfold new_array at 1.
  rewrite bind_run, (idivc_run _ _ _ _ (lookup_add_array_new _ _)).
  rewrite set_add_array_new.
  rewrite bind_run, (read_run _ _ _ (lookup_add_array_new _ _)).
  match goal with
  | |- context [add_array h2 ?E] => set (h3 := add_array h2 E)
  end.
  assert (H03 : heap_ext h h3) by by apply heap_ext_add_array.
  rewrite bind_run. unfold new_array at 1.
  rewrite bind_run. unfold read at 1.
  destruct (arrays (add_array h3 _) !! WA) as [WAv|];
    [|by apply heap_ext_add_array].
  rewrite bind_run, (read_run _ _ _ (lookup_add_array_new _ _)).
  rewrite bind_run, (write_run _ _ _ _ (lookup_add_array_new _ _)).
  rewrite set_add_array_new.
  rewrite bind_run, (read_run _ _ _ (lookup_add_array_new _ _)).
  rewrite bind_run, (write_run _ _ _ _ (lookup_add_array_new _ _)).
  rewrite set_add_array_new.
  rewrite bind_run, (read_run _ _ _ (lookup_add_array_new _ _)).
  rewrite bind_run, (write_run _ _ _ _ (lookup_add_array_new _ _)).
  rewrite set_add_array_new.
  rewrite bind_run. unfold read at 1.
  destruct (arrays (add_array h3 _) !! WB) as [WBv|];
    [|by apply heap_ext_add_array].
  rewrite bind_run, (read_run _ _ _ (lookup_add_array_new _ _)).
  rewrite bind_run, (write_run _ _ _ _ (lookup_add_array_new _ _)).
  rewrite set_add_array_new.
  by apply heap_ext_add_array.
Qed.

(** X20: whatever the arguments and however the call ends, [getP], [getS]
    and [getWCSMSSM] leave every array and every list that the store held
    before the call at its reference with its contents: the in-place
    operations ([np.fill_diagonal], [Eps /= 3], the block assignments) go
    to arrays that the call itself has allocated. *)
Theorem helpers_leave_store_unchanged (h : heap) (W SSMA SSMB CSMAB : loc)
    (diagRegularize : bool) (K : nat) (Mu : R) :
  heap_ext h (final_heap (getP W diagRegularize h)) /\
  heap_ext h (final_heap (getS W K h)) /\
  heap_ext h (final_heap (getWCSMSSM SSMA SSMB CSMAB K Mu h)).
Proof.
  split; [|split].
  - apply (fresh_or_raises_frame (fun W => getP W diagRegularize)),
      getP_fresh_or_raises.
  - apply (fresh_or_raises_frame (fun W => getS W K)), getS_fresh_or_raises.
  - apply getWCSMSSM_frame.
Qed.

(** ** [doSimilarityFusion] *)

Lemma nonneg_W_of D K Mu : nonneg (W_of D K Mu).
Proof.
  apply nonneg_mkmat. intros i j _ _. unfold kernel. left. apply exp_pos.
Qed.

(** X21: for at least two N x N distance matrices, [1 <= K < N-1] and
    nonzero bandwidths, [doSimilarityFusion] returns an N x N matrix with
    nonnegative entries, whatever the signs of the distances; after at
    least one sweep with a positive [reg] every diagonal entry is at least
    [reg]. *)
Theorem doSimilarityFusion_nonnegative (h : heap) (Scores : loc)
    (lsD : list loc) (Dvs : list matrix) (n K NIters : nat) (reg : R) :
  pylists h !! Scores = Some lsD -> arrays_at h lsD Dvs ->
  (2 <= length Dvs)%nat ->
  Forall (is_matrix n n) Dvs ->
  (1 <= K)%nat -> (K + 1 < n)%nat ->
  Forall (fun D => forall i j, (i < n)%nat -> (j < n)%nat ->
                     get (Eps_of D K) i j <> 0) Dvs ->
  exists F h' Fv,
    doSimilarityFusion Scores K NIters reg h = Ok F h' /\
    arrays h' !! F = Some Fv /\
    nonneg_square n Fv /\
    ((1 <= NIters)%nat -> 0 < reg -> diagonal_ge n reg Fv).
Proof.
  intros HS Hat Hl Hm _ HK _.
  destruct (doSimilarityFusion_run h Scores lsD Dvs n K NIters reg)
    as (F & h' & Hrun & HF & _); [done|done|lia|done|done|].
  eexists F, h', _. split; [done|]. split; [done|].
  apply (fusion_of_nonneg n); [rewrite length_map; lia| |lia].
  apply Forall_map. eapply Forall_impl; [exact Hm|]. intros D HD.
  split; [by apply is_matrix_W_of|apply nonneg_W_of].
Qed.

Lemma doSimilarityFusion_nonnegative_witness :
  exists F h' Fv,
    doSimilarityFusion 0%nat 1 2 1 heap_ex_scores = Ok F h' /\
    arrays h' !! F = Some Fv /\
    nonneg_square 3 Fv /\
    ((1 <= 2)%nat -> 0 < 1 -> diagonal_ge 3 1 Fv).
Proof.
  apply (doSimilarityFusion_nonnegative heap_ex_scores 0%nat [0%nat; 1%nat]
           [D_ex; D_ex] 3 1 2 1).
  - reflexivity.
  - repeat constructor.
  - simpl. lia.
  - constructor; [apply is_matrix_D_ex|constructor; [apply is_matrix_D_ex|]].
    constructor.
  - lia.
  - lia.
  - constructor; [apply Eps_of_D_ex_nonzero|].
    constructor; [apply Eps_of_D_ex_nonzero|constructor].
Defined.

Lemma W_of_same_distances n D D' K Mu :
  is_matrix n n D -> is_matrix n n D' -> Mu <> 0 ->
  (forall i j, (i < n)%nat -> (j < n)%nat -> get (Eps_of D K) i j <> 0) ->
  same_distances n D D' ->
  W_of D' K Mu = W_of D K Mu.
Proof.
  intros HD HD' HMu HEps (c & Hc & Hoff).
  rewrite <- (W_of_mscale n c D K Mu Hc HD HMu HEps).
  apply W_of_DSym, (DSym_of_offdiag n); [done|by apply is_matrix_map_rows|].
  intros i j Hi Hj Hne. rewrite !get_mscale, (Hoff i j Hi Hj Hne). lra.
Qed.

(** X22: the result of [doSimilarityFusion] depends on each distance
    matrix only through its symmetrized off-diagonal entries, and not on
    their unit: two lists of N x N matrices that agree pairwise up to a
    positive factor (one per pair) on [D[i,j] + D[j,i]], [i <> j], give the
    same fused matrix, for [1 <= K < N-1] and nonzero bandwidths. *)
Theorem doSimilarityFusion_same_distances (h : heap) (Scores Scores' : loc)
    (lsD lsD' : list loc) (Dvs Dvs' : list matrix) (n K NIters : nat)
    (reg : R) :
  pylists h !! Scores = Some lsD -> arrays_at h lsD Dvs ->
  pylists h !! Scores' = Some lsD' -> arrays_at h lsD' Dvs' ->
  (0 < length Dvs)%nat ->
  Forall (is_matrix n n) Dvs -> Forall (is_matrix n n) Dvs' ->
  (1 <= K)%nat -> (K + 1 < n)%nat ->
  Forall (fun D => forall i j, (i < n)%nat -> (j < n)%nat ->
                     get (Eps_of D K) i j <> 0) Dvs ->
  Forall2 (same_distances n) Dvs Dvs' ->
  exists F h1 F' h2 Fv,
    doSimilarityFusion Scores K NIters reg h = Ok F h1 /\
    arrays h1 !! F = Some Fv /\
    doSimilarityFusion Scores' K NIters reg h = Ok F' h2 /\
    arrays h2 !! F' = Some Fv.
Proof.
  intros HS Hat HS' Hat' Hl Hm Hm' _ HK HEps Hsame.
  pose proof (Forall2_length _ _ _ Hsame) as Hlen.
  destruct (doSimilarityFusion_run h Scores lsD Dvs n K NIters reg)
    as (F & h1 & Hrun & HF & _); [done|done|lia|done|done|].
  destruct (doSimilarityFusion_run h Scores' lsD' Dvs' n K NIters reg)
    as (F' & h2 & Hrun' & HF' & _); [done|done|lia|done|done|].
  eexists F, h1, F', h2, _. split; [done|]. split; [done|]. split; [done|].
  rewrite HF'. do 2 f_equal.
  clear -Hm Hm' HEps Hsame.
  induction Hsame as [|D D' Dvs Dvs' HDD _ IH]; [done|].
  apply Forall_cons in Hm as [HD Hm]. apply Forall_cons in Hm' as [HD' Hm'].
  apply Forall_cons in HEps as [HE HEps].
  simpl. f_equal; [|by apply IH].
  apply (W_of_same_distances n); [done|done|lra|done|done].
Qed.

Lemma same_distances_refl_scaled n c D :
  0 < c -> same_distances n D (mscale c D).
Proof.
  intros Hc. exists c. split; [done|]. intros i j _ _ _.
  rewrite !get_mscale. lra.
Qed.

Lemma doSimilarityFusion_same_distances_witness :
  exists F h1 F' h2 Fv,
    doSimilarityFusion 0%nat 1 2 1 heap_ex_scores = Ok F h1 /\
    arrays h1 !! F = Some Fv /\
    doSimilarityFusion 1%nat 1 2 1 heap_ex_scores = Ok F' h2 /\
    arrays h2 !! F' = Some Fv.
Proof.
  apply (doSimilarityFusion_same_distances heap_ex_scores 0%nat 1%nat
           [0%nat; 1%nat] [2%nat; 3%nat]
           [D_ex; D_ex] [D_ex_asym; mscale 2 D_ex] 3 1 2 1).
  - reflexivity.
  - repeat constructor.
  - reflexivity.
  - repeat constructor.
  - simpl. lia.
  - constructor; [apply is_matrix_D_ex|constructor; [apply is_matrix_D_ex|]].
    constructor.
  - constructor; [apply is_matrix_D_ex_asym|].
    constructor; [apply is_matrix_map_rows, is_matrix_D_ex|constructor].
  - lia.
  - lia.
  - constructor; [apply Eps_of_D_ex_nonzero|].
    constructor; [apply Eps_of_D_ex_nonzero|constructor].
  - constructor; [|constructor; [|constructor]].
    + exists 1. split; [lra|]. intros i j Hi Hj Hne.
      destruct i as [|[|[|i]]]; [| | |lia];
        (destruct j as [|[|[|j]]]; [| | |lia]);
        try done; unfold get, D_ex, D_ex_asym; simpl; lra.
    + apply same_distances_refl_scaled. lra.
Defined.
